(** * Voice changer engine (voz.py): capture, segmentation, synthesis, playback

    A shallow embedding of [VoiceChangerEngine] from [src/voz.py].

    - The engine object is the record [Engine]; every method is a function in
      the monad [M] (state passing, Python exceptions as [Raise]).
    - The callbacks given to the constructor ([ui_log], [on_partial],
      [on_final], [on_status]) and the calls into the external services
      (recognizer, synthesizer, audio device layer, file system) are recorded,
      in program order, in the [trace] field.  The callbacks are observers and
      are taken not to raise.
    - What the external services answer is an input of the model: the records
      [device_env], [asr_env] and [tts_env] give, for one call or for one loop
      iteration, which external calls fail, what the recognizer returns and
      what [time.time()] reads.  The theorems quantify over them.
    - Python floats (times, durations) are read as rationals ([Q]).
    - A Python [str] is a [string]; [len] is [String.length]. *)

From Stdlib Require Import List String Ascii Bool ZArith QArith Lia Lqa.
From Stdlib Require Import Qround Decimal DecimalString DecimalNat.
Import ListNotations.
Open Scope string_scope.
Open Scope Z_scope.

Set Implicit Arguments.

(** ** Data *)

(** An audio frame as delivered by the capture callback: a block of samples. *)
Definition frame := list Q.

Inductive exn : Type :=
| RuntimeError (msg : string)   (* raise RuntimeError("...") in the engine *)
| ValueError                    (* time.sleep of a negative duration *)
| DeviceError                   (* sounddevice: open/start/stop/close/play *)
| SynthError                    (* edge-tts / event loop failure *)
| CodecError                    (* pydub: from_file / normalize / export *)
| OSError.                      (* os.remove *)

Inductive log_msg : Type :=
| LogCaptureStarted             (* "[OK] Captura iniciada." *)
| LogCaptureStopped             (* "[OK] Captura detenida." *)
| LogAsrStarted                 (* "[OK] Hilo ASR iniciado." *)
| LogAsrStopped                 (* "[OK] Hilo ASR detenido." *)
| LogTtsStarted                 (* "[OK] Hilo TTS iniciado." *)
| LogTtsStopped                 (* "[OK] Hilo TTS detenido." *)
| LogRetry (n : Z) (e : exn)    (* "[TTS] Reintento {n}: {e}" *)
| LogFfmpegMissing              (* "[ERROR] FFmpeg no esta en PATH. ..." *)
| LogTtsError (e : exn)         (* "[TTS ERROR] {e}" *)
| LogResumeFailed (e : exn).    (* "[AUDIO] No se pudo reanudar captura: {e}" *)

Inductive status_msg : Type :=
| StRecording                   (* "Grabando..." *)
| StMicStopped                  (* "Microfono detenido" *)
| StPlaying                     (* "Reproduciendo voz cambiada..." *)
| StReady.                      (* "Listo. Escuchando..." *)

Inductive worker : Type := AsrWorker | TtsWorker.

(** Calls that leave the engine, in program order. *)
Inductive event : Type :=
| UiLog (m : log_msg)
| OnStatus (m : status_msg)
| OnPartial (t : string)
| OnFinal (t : string)
| RecAccept (f : frame)         (* recognizer.AcceptWaveform *)
| RecResult                     (* recognizer.Result *)
| RecPartialResult              (* recognizer.PartialResult *)
| RecFinalResult                (* recognizer.FinalResult *)
| Synth (text : string) (n : Z) (* attempt n of _edge_to_mp3 *)
| Sleep (d : Q)                 (* time.sleep(d) *)
| Decode                        (* AudioSegment.from_file + normalize *)
| ExportWav
| Play                          (* sd.play(..., blocking=True) *)
| SdStop                        (* sd.stop() *)
| RemoveMp3
| OpenInput                     (* sd.InputStream(...) *)
| StreamStart (id : nat)        (* stream.start() *)
| StreamStop (id : nat)
| StreamClose (id : nat)
| ThreadStart (w : worker).

(** The audio device layer as the engine sees it: the input streams that are
    open, those that are delivering frames, and the next fresh handle. *)
Record Device : Type := mkDevice {
  dev_open : list nat;
  dev_running : list nat;
  dev_next : nat
}.

(** Configuration attributes: read, never written, by the methods below. *)
Record Config : Type := mkConfig {
  model_loaded : bool;          (* self.model is not None *)
  recognizer_loaded : bool;     (* self.recognizer is not None *)
  ducking : bool;
  ffmpeg_available : bool;
  save_wav : bool;
  keep_mp3 : bool;
  print_partials : bool;
  min_phrase_len : Z;
  silence_finalize_sec : Q;
  partial_throttle_sec : Q;
  tts_max_retries : Z;
  tts_backoff : Q
}.

(** "control de parciales/silencio" *)
Record Segment : Type := mkSegment {
  _last_partial : string;
  _last_partial_time : Q;
  _last_activity_time : Q;
  _speech_seen_this_segment : bool
}.

Record Engine : Type := mkEngine {
  cfg : Config;
  seg : Segment;
  audio_q : list frame;         (* queue.Queue(maxsize=80), head = oldest *)
  phrase_q : list string;       (* queue.Queue(), head = oldest *)
  stop_event : bool;            (* threading.Event *)
  stream_in : option nat;       (* handle of the input stream, or None *)
  t_asr : bool;                 (* self.t_asr is not None *)
  t_tts : bool;
  device : Device;
  trace : list event            (* oldest first *)
}.

(** Values of [__init__] (the model is not loaded by the constructor). *)
Definition default_config : Config :=
  mkConfig false false true true true false true 6 (8 # 10) (25 # 100) 3 1.

Definition init (now : Q) : Engine :=
  mkEngine default_config (mkSegment "" 0 now false) [] [] false None
           false false (mkDevice [] [] 0%nat) [].

(** ** Field updates *)

Definition set_seg (g : Segment) (s : Engine) : Engine :=
  mkEngine (cfg s) g (audio_q s) (phrase_q s) (stop_event s) (stream_in s)
           (t_asr s) (t_tts s) (device s) (trace s).
Definition set_audio_q (q : list frame) (s : Engine) : Engine :=
  mkEngine (cfg s) (seg s) q (phrase_q s) (stop_event s) (stream_in s)
           (t_asr s) (t_tts s) (device s) (trace s).
Definition set_phrase_q (q : list string) (s : Engine) : Engine :=
  mkEngine (cfg s) (seg s) (audio_q s) q (stop_event s) (stream_in s)
           (t_asr s) (t_tts s) (device s) (trace s).
Definition set_stop_event (b : bool) (s : Engine) : Engine :=
  mkEngine (cfg s) (seg s) (audio_q s) (phrase_q s) b (stream_in s)
           (t_asr s) (t_tts s) (device s) (trace s).
Definition set_stream_in (h : option nat) (s : Engine) : Engine :=
  mkEngine (cfg s) (seg s) (audio_q s) (phrase_q s) (stop_event s) h
           (t_asr s) (t_tts s) (device s) (trace s).
Definition set_threads (a t : bool) (s : Engine) : Engine :=
  mkEngine (cfg s) (seg s) (audio_q s) (phrase_q s) (stop_event s) (stream_in s)
           a t (device s) (trace s).
Definition set_device (d : Device) (s : Engine) : Engine :=
  mkEngine (cfg s) (seg s) (audio_q s) (phrase_q s) (stop_event s) (stream_in s)
           (t_asr s) (t_tts s) d (trace s).
Definition set_trace (t : list event) (s : Engine) : Engine :=
  mkEngine (cfg s) (seg s) (audio_q s) (phrase_q s) (stop_event s) (stream_in s)
           (t_asr s) (t_tts s) (device s) t.

(** ** The monad: engine state and Python exceptions *)

Inductive res (A : Type) : Type :=
| Ok (a : A)
| Raise (e : exn).
Arguments Ok {A} a.
Arguments Raise {A} e.

Definition M (A : Type) : Type := Engine -> res A * Engine.

Definition ret {A} (a : A) : M A := fun s => (Ok a, s).
Definition bind {A B} (c : M A) (k : A -> M B) : M B :=
  fun s => match c s with
           | (Ok a, s1) => k a s1
           | (Raise e, s1) => (Raise e, s1)
           end.
Definition raise {A} (e : exn) : M A := fun s => (Raise e, s).

(** [try: c  except Exception as e: h e] *)
Definition try_except {A} (c : M A) (h : exn -> M A) : M A :=
  fun s => match c s with
           | (Ok a, s1) => (Ok a, s1)
           | (Raise e, s1) => h e s1
           end.

(** [try: c  finally: f]; an exception raised by [f] replaces the outcome. *)
Definition try_finally {A} (c : M A) (f : M unit) : M A :=
  fun s => match c s with
           | (r, s1) => match f s1 with
                        | (Ok _, s2) => (r, s2)
                        | (Raise e, s2) => (Raise e, s2)
                        end
           end.

Definition gets {A} (f : Engine -> A) : M A := fun s => (Ok (f s), s).
Definition modify (f : Engine -> Engine) : M unit := fun s => (Ok tt, f s).
Definition emit (e : event) : M unit :=
  modify (fun s => set_trace (trace s ++ [e]) s).
Definition when (b : bool) (c : M unit) : M unit := if b then c else ret tt.

Declare Scope engine_scope.
Delimit Scope engine_scope with engine.
Notation "x <- c ;; k" := (bind c (fun x => k))
  (at level 61, c at next level, right associativity) : engine_scope.
Notation "c ;; k" := (bind c (fun _ => k))
  (at level 61, right associativity) : engine_scope.
Open Scope engine_scope.

Definition ui_log (m : log_msg) : M unit := emit (UiLog m).
Definition on_status (m : status_msg) : M unit := emit (OnStatus m).
Definition on_partial (t : string) : M unit := emit (OnPartial t).
Definition on_final (t : string) : M unit := emit (OnFinal t).

(** Running a method: outcome, final state, and what it added to the trace. *)
Definition outcome {A} (c : M A) (s : Engine) : res A := fst (c s).
Definition exec {A} (c : M A) (s : Engine) : Engine := snd (c s).
Definition emitted {A} (c : M A) (s : Engine) : list event :=
  skipn (List.length (trace s)) (trace (exec c s)).

(** ** Capture: start_input / stop_input *)

(** Which calls into the audio device layer succeed. *)
Record device_env : Type := mkDeviceEnv {
  open_ok : bool;               (* sd.InputStream(...) *)
  start_ok : bool;              (* stream.start() *)
  stop_ok : bool;               (* stream.stop() *)
  close_ok : bool               (* stream.close() *)
}.

Definition device_fine : device_env := mkDeviceEnv true true true true.

Definition without (id : nat) (l : list nat) : list nat :=
  List.remove Nat.eq_dec id l.

Definition stream_open (d : device_env) : M nat :=
  emit OpenInput ;;
  if open_ok d then
    id <- gets (fun s => dev_next (device s)) ;;
    modify (fun s => set_device
      (mkDevice (dev_open (device s) ++ [id]) (dev_running (device s)) (S id)) s) ;;
    ret id
  else raise DeviceError.

Definition stream_start (d : device_env) (id : nat) : M unit :=
  emit (StreamStart id) ;;
  if start_ok d then
    modify (fun s => set_device
      (mkDevice (dev_open (device s)) (dev_running (device s) ++ [id])
                (dev_next (device s))) s)
  else raise DeviceError.

Definition stream_stop (d : device_env) (id : nat) : M unit :=
  emit (StreamStop id) ;;
  if stop_ok d then
    modify (fun s => set_device
      (mkDevice (dev_open (device s)) (without id (dev_running (device s)))
                (dev_next (device s))) s)
  else raise DeviceError.

Definition stream_close (d : device_env) (id : nat) : M unit :=
  emit (StreamClose id) ;;
  if close_ok d then
    modify (fun s => set_device
      (mkDevice (without id (dev_open (device s)))
                (without id (dev_running (device s)))
                (dev_next (device s))) s)
  else raise DeviceError.

(** [start_input]: the assignments to [sd.default] configure the device layer
    and are not observed by the engine. *)
Definition start_input (d : device_env) : M unit :=
  id <- stream_open d ;;
  modify (set_stream_in (Some id)) ;;
  stream_start d id ;;
  on_status StRecording ;;
  ui_log LogCaptureStarted.

Definition stop_input (d : device_env) : M unit :=
  h <- gets stream_in ;;
  match h with
  | Some id =>
      try_except (stream_stop d id ;; stream_close d id) (fun _ => ret tt) ;;
      modify (set_stream_in None) ;;
      ui_log LogCaptureStopped ;;
      on_status StMicStopped
  | None => ret tt
  end.

(** Capture is running: the engine holds a handle and the device layer is
    delivering frames on it. *)
Definition capture_active (s : Engine) : bool :=
  match stream_in s with
  | Some id => existsb (Nat.eqb id) (dev_running (device s))
  | None => false
  end.

(** ** Lifecycle: start / stop *)

Definition start (d : device_env) : M unit :=
  ml <- gets (fun s => model_loaded (cfg s)) ;;
  rl <- gets (fun s => recognizer_loaded (cfg s)) ;;
  if negb ml || negb rl then raise (RuntimeError "Modelo Vosk no cargado.")
  else
    modify (set_stop_event false) ;;
    start_input d ;;
    modify (set_threads true true) ;;
    emit (ThreadStart AsrWorker) ;;
    emit (ThreadStart TtsWorker).

(** [while not q.empty(): q.get_nowait()]: one element leaves per iteration.
    ([get_nowait] cannot raise on a queue that was just seen non-empty while
    no other thread takes from it.) *)
Fixpoint drain {A} (q : list A) : list A :=
  match q with
  | [] => []
  | _ :: rest => drain rest
  end.

Definition stop (d : device_env) : M unit :=
  modify (set_stop_event true) ;;
  try_except (stop_input d) (fun _ => ret tt) ;;
  modify (fun s => set_audio_q (drain (audio_q s)) s) ;;
  modify (fun s => set_phrase_q (drain (phrase_q s)) s).

(** ** Segmentation: asr_worker *)

(** Python [str.isspace] on the code points below 256. *)
Definition is_space (c : ascii) : bool :=
  let n := nat_of_ascii c in
  ((9 <=? n) && (n <=? 13) || (28 <=? n) && (n <=? 32)
   || (n =? 133) || (n =? 160))%nat.

Fixpoint lstrip (t : string) : string :=
  match t with
  | EmptyString => EmptyString
  | String c r => if is_space c then lstrip r else t
  end.

Fixpoint rstrip (t : string) : string :=
  match t with
  | EmptyString => EmptyString
  | String c r =>
      match rstrip r with
      | EmptyString => if is_space c then EmptyString else String c EmptyString
      | r' => String c r'
      end
  end.

Definition strip (t : string) : string := rstrip (lstrip t).

(** [d.get(key, "")] and [d.get(key) or ""] on the parsed JSON answer. *)
Definition get_or_empty (field : option string) : string :=
  match field with
  | Some t => t
  | None => EmptyString
  end.

(** Python truth value of a [str]. *)
Definition truthy (t : string) : bool :=
  match t with
  | EmptyString => false
  | String _ _ => true
  end.

(** One iteration of the segmentation loop as seen from outside: whether the
    capture callback delivers a frame while [audio_q.get(timeout=0.2)] waits
    on an empty queue, the recognizer's answers, and the clock readings. *)
Record asr_env : Type := mkAsrEnv {
  arrival : option frame;
  accept : bool;                (* AcceptWaveform(inbytes) *)
  result_text : option string;  (* "text" of Result() *)
  partial_text : option string; (* "partial" of PartialResult() *)
  final_text : option string;   (* "text" of FinalResult() *)
  t_partial : Q;                (* now = time.time() after PartialResult *)
  t_silence : Q;                (* time.time() in _finalize_by_silence *)
  t_reset : Q                   (* time.time() in _reset_partials *)
}.

Definition _reset_partials (now : Q) : M unit :=
  modify (fun s => set_seg
    (mkSegment EmptyString (_last_partial_time (seg s)) now false) s).

Definition _emit_phrase (text : string) : M unit :=
  m <- gets (fun s => min_phrase_len (cfg s)) ;;
  if Z.of_nat (String.length text) <? m then ret tt
  else
    on_final text ;;
    modify (fun s => set_phrase_q (phrase_q s ++ [text]) s).

(** The test of line 211: [time.time() - last_activity >= silence_finalize_sec]. *)
Definition silence_elapsed (now : Q) (s : Engine) : bool :=
  Qle_bool (silence_finalize_sec (cfg s)) (now - _last_activity_time (seg s)).

Definition _finalize_by_silence (e : asr_env) : M unit :=
  seen <- gets (fun s => _speech_seen_this_segment (seg s)) ;;
  if negb seen then ret tt
  else
    late <- gets (silence_elapsed (t_silence e)) ;;
    if late then
      emit RecFinalResult ;;
      (let fin := strip (get_or_empty (final_text e)) in
       when (truthy fin) (_emit_phrase fin)) ;;
      _reset_partials (t_reset e)
    else ret tt.

(** [audio_q.get(timeout=0.2)]: [None] stands for [queue.Empty]. *)
Definition audio_get (e : asr_env) : M (option frame) :=
  q <- gets audio_q ;;
  match q with
  | f :: rest => modify (set_audio_q rest) ;; ret (Some f)
  | [] => ret (arrival e)
  end.

(** The test of line 191. *)
Definition surfaces (partial : string) (now : Q) (s : Engine) : bool :=
  print_partials (cfg s)
  && negb (String.eqb partial (_last_partial (seg s)))
  && Qle_bool (partial_throttle_sec (cfg s)) (now - _last_partial_time (seg s)).

Definition on_partial_result (e : asr_env) : M unit :=
  emit RecPartialResult ;;
  let partial := get_or_empty (partial_text e) in
  let now := t_partial e in
  if truthy partial then
    modify (fun s => set_seg
      (mkSegment (_last_partial (seg s)) (_last_partial_time (seg s)) now true) s) ;;
    show <- gets (surfaces partial now) ;;
    when show
      (on_partial partial ;;
       modify (fun s => set_seg
         (mkSegment partial now (_last_activity_time (seg s))
                    (_speech_seen_this_segment (seg s))) s))
  else _finalize_by_silence e.

(** Body of the [while] loop of [asr_worker]. *)
Definition asr_iteration (e : asr_env) : M unit :=
  got <- audio_get e ;;
  match got with
  | None => _finalize_by_silence e
  | Some f =>
      emit (RecAccept f) ;;
      if accept e then
        emit RecResult ;;
        (let text := strip (get_or_empty (result_text e)) in
         when (truthy text) (_emit_phrase text)) ;;
        _reset_partials (t_reset e)
      else on_partial_result e
  end.

(** Lines 198-201: what [asr_worker] does once the loop has ended. *)
Definition asr_flush (final : option string) : M unit :=
  emit RecFinalResult ;;
  (let fin := strip (get_or_empty final) in
   when (truthy fin) (_emit_phrase fin)) ;;
  ui_log LogAsrStopped.

(** The loop [while not self.stop_event.is_set()].  The stop event is raised
    by another thread ([stop] on the lifecycle side); a run of the worker is
    given by the iterations that take place before the event is seen set:
    when [envs] is used up, the event has been raised. *)
Fixpoint asr_loop (envs : list asr_env) : M unit :=
  match envs with
  | [] => modify (set_stop_event true)
  | e :: rest =>
      stopping <- gets stop_event ;;
      if stopping then ret tt
      else asr_iteration e ;; asr_loop rest
  end.

Definition asr_worker (envs : list asr_env) (final : option string) : M unit :=
  ui_log LogAsrStarted ;;
  asr_loop envs ;;
  asr_flush final.

(** ** Synthesis and playback: tts_worker *)

(** One iteration of the synthesis loop as seen from outside. *)
Record tts_env : Type := mkTtsEnv {
  phrase_arrival : option string; (* put by the segmentation thread while
                                     phrase_q.get(timeout=0.2) waits *)
  dev : device_env;
  synth_ok : Z -> bool;         (* does attempt n of _edge_to_mp3 succeed *)
  decode_ok : bool;             (* AudioSegment.from_file, normalize *)
  export_ok : bool;             (* seg_out.export(wav_path) *)
  play_ok : bool;               (* sd.play(..., blocking=True) *)
  remove_ok : bool;             (* os.remove(mp3_path) *)
  stop_raised : bool            (* stop() sets the stop event on the lifecycle
                                   thread while this phrase is in flight *)
}.

(** [time.sleep(d)] raises ValueError on a negative duration. *)
Definition sleep (d : Q) : M unit :=
  emit (Sleep d) ;;
  if Qle_bool 0 d then ret tt else raise ValueError.

(** [for n in range(1, self.tts_max_retries + 1)]: [left] is the number of
    values of [n] still to come. *)
Fixpoint retry_loop (ok : Z -> bool) (text : string) (n : Z) (left : nat)
  : M unit :=
  match left with
  | O => raise (RuntimeError "TTS agotó reintentos")
  | S left' =>
      emit (Synth text n) ;;
      if ok n then ret tt
      else
        ui_log (LogRetry n SynthError) ;;
        backoff <- gets (fun s => tts_backoff (cfg s)) ;;
        sleep (backoff * inject_Z n) ;;
        retry_loop ok text (n + 1) left'
  end.

Definition _tts_with_retries (ok : Z -> bool) (text : string) : M unit :=
  retries <- gets (fun s => tts_max_retries (cfg s)) ;;
  retry_loop ok text 1 (Z.to_nat retries).

(** The arithmetic on the segment (gain, frame rate, channels) does not reach
    the claims; the device call and its [finally] do. *)
Definition _play_segment (e : tts_env) : M unit :=
  try_finally
    (emit Play ;; if play_ok e then ret tt else raise DeviceError)
    (emit SdStop).

Definition external (ev : event) (ok : bool) (e : exn) : M unit :=
  emit ev ;; if ok then ret tt else raise e.

(** The [try] block of lines 268-294, with its [except Exception] handler.
    [continue] leaves the block; the [finally] clause still runs. *)
Definition phrase_body (e : tts_env) (text : string) : M unit :=
  try_except
    (ff <- gets (fun s => ffmpeg_available (cfg s)) ;;
     if negb ff then ui_log LogFfmpegMissing
     else
       _tts_with_retries (synth_ok e) text ;;
       external Decode (decode_ok e) CodecError ;;
       sw <- gets (fun s => save_wav (cfg s)) ;;
       when sw (external ExportWav (export_ok e) CodecError) ;;
       on_status StPlaying ;;
       _play_segment e ;;
       on_status StReady ;;
       km <- gets (fun s => keep_mp3 (cfg s)) ;;
       when (negb km)
         (try_except (external RemoveMp3 (remove_ok e) OSError)
                     (fun _ => ret tt)))
    (fun ex => ui_log (LogTtsError ex)).

(** The [finally] clause of lines 299-304.  The stop event is read here; a
    [stop()] that ran on the lifecycle thread meanwhile has set it. *)
Definition resume (e : tts_env) : M unit :=
  when (stop_raised e) (modify (set_stop_event true)) ;;
  dk <- gets (fun s => ducking (cfg s)) ;;
  stopping <- gets stop_event ;;
  when (dk && negb stopping)
    (try_except (start_input (dev e))
                (fun ex => ui_log (LogResumeFailed ex))).

(** Lines 264-304: the handling of one dequeued, non-empty phrase. *)
Definition handle_phrase (e : tts_env) (text : string) : M unit :=
  dk <- gets (fun s => ducking (cfg s)) ;;
  when dk (stop_input (dev e)) ;;
  try_finally (phrase_body e text) (resume e).

(** [phrase_q.get(timeout=0.2)]: [None] stands for [queue.Empty]. *)
Definition phrase_get (e : tts_env) : M (option string) :=
  q <- gets phrase_q ;;
  match q with
  | t :: rest => modify (set_phrase_q rest) ;; ret (Some t)
  | [] => ret (phrase_arrival e)
  end.

(** Body of the [while] loop of [tts_worker]. *)
Definition tts_iteration (e : tts_env) : M unit :=
  got <- phrase_get e ;;
  match got with
  | None => ret tt
  | Some text => if truthy text then handle_phrase e text else ret tt
  end.

(** As [asr_loop]: the iterations that take place before the stop event is
    seen set. *)
Fixpoint tts_loop (envs : list tts_env) : M unit :=
  match envs with
  | [] => modify (set_stop_event true)
  | e :: rest =>
      stopping <- gets stop_event ;;
      if stopping then ret tt
      else tts_iteration e ;; tts_loop rest
  end.

Definition tts_worker (envs : list tts_env) : M unit :=
  ui_log LogTtsStarted ;;
  tts_loop envs ;;
  ui_log LogTtsStopped.

(** * Further functions of voz.py *)

(** ** Utilities: normalizar_float32_a_int16, rms *)

(** [np.clip(x, lo, hi)], that is [minimum(maximum(x, lo), hi)]. *)
Definition clip (lo hi x : Q) : Q :=
  let m := if Qle_bool lo x then x else lo in
  if Qle_bool m hi then m else hi.

(** Conversion of a float to an integer type: the fraction is dropped. *)
Definition Qtrunc (q : Q) : Z := Z.quot (Qnum q) (Z.pos (Qden q)).

(** A 16-bit signed integer kept as a [Z]: what lies outside the type wraps. *)
Definition wrap16 (z : Z) : Z := (z + 32768) mod 65536 - 32768.

(** One sample of [np.int16(np.clip(x, -1.0, 1.0) * 32767)].  The samples
    are float32, and so is the product: [round32] is its rounding. *)
Definition to_int16 (round32 : Q -> Q) (x : Q) : Z :=
  wrap16 (Qtrunc (round32 (clip (-1) 1 x * 32767)%Q)).

(** [tobytes()] of one int16: two's complement, low byte first. *)
Definition int16_bytes (z : Z) : list Z := [z mod 256; (z / 256) mod 256].

Definition normalizar_float32_a_int16 (round32 : Q -> Q) (x : frame)
  : list Z :=
  flat_map (fun v => int16_bytes (to_int16 round32 v)) x.

(** [rms]: 0.0 on an empty array; otherwise the float computation
    [sqrt(mean(square(arr)))], which is [root_mean_square] here. *)
Definition rms (root_mean_square : frame -> Q) (arr : frame) : Q :=
  match arr with
  | [] => 0%Q
  | _ :: _ => root_mean_square arr
  end.

(** ** Capture callback: _audio_callback *)

(** Lines of [ui_log] written by the functions of this part. *)
Inductive note : Type :=
| NoteAudioStatus (status : string)   (* "[AUDIO] {status}" *)
| NoteNotVosk (dir : string)          (* "[AVISO] La carpeta seleccionada no
                                         parece ser un modelo Vosk: {dir}" *)
| NoteLoading                         (* "[INFO] Cargando modelo Vosk..." *)
| NoteLoaded.                         (* "[OK] Modelo Vosk cargado." *)

(** The noise gate attributes of the engine. *)
Record gate : Type := mkGate {
  enable_noise_gate : bool;
  rms_gate_threshold : Q
}.

(** [audio_q.put(frame)] on [queue.Queue(maxsize=80)]: on a full queue the
    call does not return until a consumer has taken a frame ([None]). *)
Definition audio_put (f : frame) (s : Engine) : option Engine :=
  if (List.length (audio_q s) <? 80)%nat
  then Some (set_audio_q (audio_q s ++ [f]) s)
  else None.

(** [status] is the text of the callback flags when one is set. *)
Definition _audio_callback (root_mean_square : frame -> Q) (g : gate)
  (status : option string) (indata : frame) (s : Engine)
  : list note * option Engine :=
  let notes := match status with
               | Some text => [NoteAudioStatus text]
               | None => []
               end in
  if enable_noise_gate g
     && negb (Qle_bool (rms_gate_threshold g) (rms root_mean_square indata))
  then (notes, Some s)
  else (notes, audio_put indata s).

(** ** Model loading: load_model *)

(** What the file system and Vosk answer. *)
Record model_env : Type := mkModelEnv {
  is_dir : bool;                (* os.path.isdir(model_dir) *)
  has_am : bool;                (* os.path.exists(join(model_dir, "am")) *)
  has_conf : bool;
  has_graph : bool;
  model_ok : bool;              (* Model(model_dir) returns *)
  recognizer_ok : bool          (* KaldiRecognizer(...), SetWords(True) *)
}.

Inductive load_error : Type :=
| NoSuchDirectory (dir : string) (* RuntimeError("No existe la carpeta del
                                    modelo: {dir}") *)
| ModelFailed                    (* raised by Model(model_dir) *)
| RecognizerFailed.              (* raised by KaldiRecognizer / SetWords *)

Definition set_loaded (model recognizer : bool) (s : Engine) : Engine :=
  mkEngine
    (mkConfig model recognizer (ducking (cfg s)) (ffmpeg_available (cfg s))
       (save_wav (cfg s)) (keep_mp3 (cfg s)) (print_partials (cfg s))
       (min_phrase_len (cfg s)) (silence_finalize_sec (cfg s))
       (partial_throttle_sec (cfg s)) (tts_max_retries (cfg s))
       (tts_backoff (cfg s)))
    (seg s) (audio_q s) (phrase_q s) (stop_event s) (stream_in s)
    (t_asr s) (t_tts s) (device s) (trace s).

(** The lines logged, the outcome, and the engine afterwards. *)
Definition load_model (fs : model_env) (model_dir : string) (s : Engine)
  : list note * (load_error + unit) * Engine :=
  if negb (is_dir fs) then ([], inl (NoSuchDirectory model_dir), s)
  else
    let warned := if has_am fs || has_conf fs || has_graph fs then []
                  else [NoteNotVosk model_dir] in
    if negb (model_ok fs)
    then ((warned ++ [NoteLoading])%list, inl ModelFailed, s)
    else if negb (recognizer_ok fs)
    then ((warned ++ [NoteLoading])%list, inl RecognizerFailed,
          set_loaded true (recognizer_loaded (cfg s)) s)
    else ((warned ++ [NoteLoading; NoteLoaded])%list, inr tt,
          set_loaded true true s).

(** ** Helpers of the window: device labels, file names, text panel *)

(** Python [str(n)] of a natural number. *)
Definition str_nat (n : nat) : string := NilZero.string_of_uint (Nat.to_uint n).

Definition is_digit (c : ascii) : bool :=
  let n := nat_of_ascii c in ((48 <=? n) && (n <=? 57))%nat.

(** The digits of an integer literal: underscores may stand between two
    digits, one at a time.  [after_digit] tells whether the character read
    last was a digit. *)
Fixpoint valid_digits (after_digit : bool) (t : string) : bool :=
  match t with
  | EmptyString => after_digit
  | String c r =>
      if is_digit c then valid_digits true r
      else if Ascii.eqb c "_" then after_digit && valid_digits false r
      else false
  end.

Fixpoint digits_value (acc : Z) (t : string) : Z :=
  match t with
  | EmptyString => acc
  | String c r =>
      if is_digit c
      then digits_value (10 * acc + (Z.of_nat (nat_of_ascii c) - 48)) r
      else digits_value acc r
  end.

(** Python [int(t)] on a [str] (code points below 256): blanks around, an
    optional sign, decimal digits.  [None] stands for ValueError. *)
Definition py_int (t : string) : option Z :=
  match strip t with
  | String "-" body =>
      if valid_digits false body then Some (- digits_value 0 body) else None
  | String "+" body =>
      if valid_digits false body then Some (digits_value 0 body) else None
  | body => if valid_digits false body then Some (digits_value 0 body) else None
  end.

(** [t.split(":")[0]] *)
Fixpoint before_colon (t : string) : string :=
  match t with
  | EmptyString => EmptyString
  | String c r => if Ascii.eqb c ":" then EmptyString
                  else String c (before_colon r)
  end.

Definition parse_device_index (combo_value : string) : option Z :=
  if truthy combo_value then py_int (before_colon combo_value) else None.

(** An entry of [sd.query_devices()]. *)
Record device_info : Type := mkDeviceInfo {
  name : string;
  max_input_channels : nat;
  max_output_channels : nat
}.

(** The label f"{idx}: {d['name']}  (in:{ins}/out:{outs})". *)
Definition device_label (idx : nat) (d : device_info) : string :=
  (str_nat idx ++ ": " ++ name d ++ "  (in:" ++ str_nat (max_input_channels d)
   ++ "/out:" ++ str_nat (max_output_channels d) ++ ")")%string.

(** The loop of [refresh_devices] from index [idx] on: the labels of the
    input list and of the output list. *)
Fixpoint device_options (idx : nat) (devices : list device_info)
  : list string * list string :=
  match devices with
  | [] => ([], [])
  | d :: rest =>
      let (in_opts, out_opts) := device_options (S idx) rest in
      ((if (0 <? max_input_channels d)%nat
        then device_label idx d :: in_opts else in_opts),
       (if (0 <? max_output_channels d)%nat
        then device_label idx d :: out_opts else out_opts))
  end.

Definition refresh_devices (devices : list device_info)
  : list string * list string :=
  device_options 0 devices.

(** [t.replace(old, new)] for one-character [old] and [new]. *)
Fixpoint replace_char (old new : ascii) (t : string) : string :=
  match t with
  | EmptyString => EmptyString
  | String c r =>
      String (if Ascii.eqb c old then new else c) (replace_char old new r)
  end.

(** [t[:n]] *)
Fixpoint prefix_of (n : nat) (t : string) : string :=
  match n, t with
  | S n', String c r => String c (prefix_of n' r)
  | _, _ => EmptyString
  end.

(** The file name part built by [_do_generate_and_play_tts] from the text. *)
Definition safe_snip (text : string) : string :=
  if truthy text
  then replace_char "\" "_"
         (replace_char "/" "_" (replace_char " " "_" (prefix_of 30 text)))
  else "tts".

(** What [generate_and_play_tts] does with the content of the text box. *)
Inductive panel_action : Type :=
| WarnEmptyText                       (* messagebox.showwarning(...) *)
| SynthesizeInThread (text : string). (* Thread(_do_generate_and_play_tts) *)

Definition generate_and_play_tts (box : string) : panel_action :=
  let text := strip box in
  if truthy text then SynthesizeInThread text else WarnEmptyText.

(** ** The window: App.start, App.stop, the text panel *)

(** The handlers of [App] are functions on the record [Window], which holds
    the engine, the two buttons, the audio kept by the text panel and what
    the window has shown.  Calls of Tk itself (configure, set, insert,
    dialogs) are taken not to raise. *)

(** [box.strip() or default] *)
Definition or_default (box default : string) : string :=
  if truthy (strip box) then strip box else default.

(** What the widgets hold when a handler reads them. *)
Record form : Type := mkForm {
  model_path_var : string;
  input_combo : string;
  output_combo : string;
  voice_combo : string;
  rate_var : string;
  vol_var : string;
  gain_var : option Q;          (* float(self.gain_var.get()); None: it raises *)
  tts_autosave : bool
}.

Inductive window_status : Type :=
| WsRecording                   (* "Grabando..." *)
| WsStopped                     (* "Detenido" *)
| WsSaved                       (* "MP3 guardado" *)
| WsPlayedNotSaved              (* "Reproducido (no guardado)" *)
| WsTtsError                    (* "Error en TTS" *)
| WsSavedManual.                (* "MP3 guardado (manual)" *)

Inductive window_line : Type :=
| LineStarted                   (* "[OK] Inicio completo." *)
| LineStopped                   (* "[OK] Detenido." *)
| LinePanelFfmpeg               (* "[ERROR] FFmpeg no esta en PATH para
                                   convertir/normalizar." *)
| LineSaved (snip : string)     (* "[OK] MP3 guardado: {outfile}" *)
| LinePanelError (e : exn)      (* "[TTS TEXTO->VOZ] {e}" *)
| LineSavedManual.              (* "[OK] MP3 guardado manualmente: ..." *)

(** What the handlers of the window show and call, in program order (the
    calls of the engine are in the trace of the engine). *)
Inductive window_event : Type :=
| ShowErrorNoModelDir           (* showerror("Modelo Vosk", "Selecciona ...") *)
| ShowLoadError (e : load_error) (* showerror("Modelo Vosk", str(e)) *)
| ShowError (e : exn)           (* showerror("Error", str(e)) *)
| ShowExportError               (* showerror("Guardar MP3", str(e)) *)
| ShowInfoNoAudio               (* showinfo("Sin audio", ...) *)
| EngineLog (n : note)          (* a line load_model passes to ui_log *)
| WindowLog (l : window_line)
| SetStatus (st : window_status)
| PanelDecode                   (* AudioSegment.from_file, normalize *)
| PanelPlay                     (* sd.play(..., blocking=True) *)
| PanelSdStop                   (* sd.stop() *)
| ExportMp3 (name : string)     (* seg.export(outfile, format="mp3", ...);
                                   [name] is what follows the time stamp *)
| DestroyRoot.                  (* self.root.destroy() *)

(** The attributes of the engine that [App.start] sets and the engine
    record above leaves out. *)
Record settings : Type := mkSettings {
  input_device : option Z;
  output_device : option Z;
  voice : string;
  tts_rate : string;
  tts_volume : string;
  playback_gain_db : Q;
  noise_gate : gate
}.

Record Window : Type := mkWindow {
  engine : Engine;
  engine_settings : settings;
  btn_start : bool;             (* state is "normal" *)
  btn_stop : bool;
  last_tts_seg : option string; (* the text whose audio is kept, if any *)
  displayed : list window_event
}.

Definition set_engine (s : Engine) (w : Window) : Window :=
  mkWindow s (engine_settings w) (btn_start w) (btn_stop w) (last_tts_seg w)
           (displayed w).
Definition set_settings (g : settings) (w : Window) : Window :=
  mkWindow (engine w) g (btn_start w) (btn_stop w) (last_tts_seg w)
           (displayed w).
Definition set_buttons (start_enabled stop_enabled : bool) (w : Window)
  : Window :=
  mkWindow (engine w) (engine_settings w) start_enabled stop_enabled
           (last_tts_seg w) (displayed w).
Definition display (l : list window_event) (w : Window) : Window :=
  mkWindow (engine w) (engine_settings w) (btn_start w) (btn_stop w)
           (last_tts_seg w) (displayed w ++ l).

(** Lines 552-563 of [App.start]: the values read from the widgets. *)
Definition read_settings (f : form) : settings :=
  mkSettings (parse_device_index (input_combo f))
             (parse_device_index (output_combo f))
             (or_default (voice_combo f) "es-ES-ElviraNeural")
             (or_default (rate_var f) "+0%")
             (or_default (vol_var f) "+0%")
             (match gain_var f with
              | Some g => g
              | None => 0%Q
              end)
             (mkGate true (5 # 1000)).

(** Lines 566-575: flags and phrasing parameters. *)
Definition apply_config (s : Engine) : Engine :=
  mkEngine
    (mkConfig (model_loaded (cfg s)) (recognizer_loaded (cfg s)) true
       (ffmpeg_available (cfg s)) true false (print_partials (cfg s))
       6 (8 # 10) (25 # 100) (tts_max_retries (cfg s)) (tts_backoff (cfg s)))
    (seg s) (audio_q s) (phrase_q s) (stop_event s) (stream_in s)
    (t_asr s) (t_tts s) (device s) (trace s).


Module App.

(** [fs] is what the file system and Vosk answer for the directory of the
    model box, [d] what the input device answers. *)
Definition start (fs : model_env) (d : device_env) (f : form) (w : Window)
  : Window :=
  let model_dir := strip (model_path_var f) in
  if negb (truthy model_dir) then display [ShowErrorNoModelDir] w
  else
    match load_model fs model_dir (engine w) with
    | (notes, inl err, s1) =>
        display (map EngineLog notes ++ [ShowLoadError err]) (set_engine s1 w)
    | (notes, inr _, s1) =>
        let w1 := display (map EngineLog notes) w in
        let w2 := set_settings (read_settings f)
                    (set_engine (apply_config s1) w1) in
        match start d (set_stop_event false (engine w2)) with
        | (Ok _, s2) =>
            display [SetStatus WsRecording; WindowLog LineStarted]
                    (set_buttons false true (set_engine s2 w2))
        | (Raise ex, s2) => display [ShowError ex] (set_engine s2 w2)
        end
    end.

Definition stop (d : device_env) (w : Window) : Window :=
  match stop d (engine w) with
  | (Ok _, s1) =>
      display [SetStatus WsStopped; WindowLog LineStopped]
              (set_buttons true false (set_engine s1 w))
  | (Raise ex, s1) => display [ShowError ex] (set_engine s1 w)
  end.

Definition on_close (d : device_env) (w : Window) : Window :=
  display [DestroyRoot] (stop d w).




End App.

(** * Vocabulary of the statements *)

Open Scope list_scope.

(** [keeps R c]: every run of [c] relates the state before to the state
    after by [R], whatever the outcome. *)
Definition keeps (R : Engine -> Engine -> Prop) {A} (c : M A) : Prop :=
  forall s, R s (exec c s).

(** [extends P s s']: the trace of [s'] is the trace of [s] followed by
    events that satisfy [P]. *)
Definition extends (P : event -> Prop) (s s' : Engine) : Prop :=
  exists l, trace s' = trace s ++ l /\ Forall P l.

(** [only_emits P]: nothing but the trace changes, and only by [P]-events. *)
Definition only_emits (P : event -> Prop) (s s' : Engine) : Prop :=
  cfg s' = cfg s /\ seg s' = seg s /\ audio_q s' = audio_q s
  /\ phrase_q s' = phrase_q s /\ stop_event s' = stop_event s
  /\ stream_in s' = stream_in s /\ device s' = device s
  /\ extends P s s'.

(** [quiet P]: configuration, segment state and both queues are untouched,
    and the trace grows by [P]-events (the stop event, the stream handle and
    the device layer may change). *)
Definition quiet (P : event -> Prop) (s s' : Engine) : Prop :=
  cfg s' = cfg s /\ seg s' = seg s /\ audio_q s' = audio_q s
  /\ phrase_q s' = phrase_q s /\ extends P s s'.

(** [returns c]: [c] never raises. *)
Definition returns {A} (c : M A) : Prop :=
  forall s, exists a, outcome c s = Ok a.

(** [text] reaches the minimum phrase length of the engine. *)
Definition long_enough (s : Engine) (text : string) : bool :=
  negb (Z.of_nat (String.length text) <? min_phrase_len (cfg s)).

(** The engine after [on_final text; phrase_q.put(text)]. *)
Definition enqueued (text : string) (s : Engine) : Engine :=
  set_phrase_q (phrase_q s ++ [text]) (set_trace (trace s ++ [OnFinal text]) s).

(** The engine after [_reset_partials] read the clock at [now]. *)
Definition reset_at (now : Q) (s : Engine) : Engine :=
  set_seg (mkSegment EmptyString (_last_partial_time (seg s)) now false) s.

(** What becomes of a text the recognizer declared final: a phrase when it is
    non-empty and long enough, nothing otherwise. *)
Definition finalized (fin : string) (s : Engine) : Engine :=
  if truthy fin && long_enough s fin then enqueued fin s else s.

(** The segmentation side leaves configuration, stop event, stream handle
    and device layer alone. *)
Definition asr_frame (s s' : Engine) : Prop :=
  cfg s' = cfg s /\ stop_event s' = stop_event s
  /\ stream_in s' = stream_in s /\ device s' = device s.

(** The engine when the loop of [asr_worker] has ended. *)
Definition loop_ended (envs : list asr_env) (s : Engine) : Engine :=
  exec (ui_log LogAsrStarted ;; asr_loop envs) s.

(** Calls made by the [try] block of [tts_worker]: synthesizer, codec, output
    device, file system, log and status. *)
Definition tts_side (ev : event) : Prop :=
  match ev with
  | Synth _ _ | Sleep _ | Decode | ExportWav | Play | SdStop | RemoveMp3
  | UiLog _ | OnStatus _ => True
  | _ => False
  end.

(** Neither transcript callback: not [on_final], not [on_partial]. *)
Definition not_final (ev : event) : Prop :=
  match ev with
  | OnFinal _ | OnPartial _ => False
  | _ => True
  end.

(** The steps the engine's threads take, each atomic here: the lifecycle
    calls, one iteration of either worker loop, and the shutdown flush of the
    segmentation worker.  Any interleaving of the threads at this grain is a
    list of actions. *)
Inductive action : Type :=
| DoStart (d : device_env)
| DoStop (d : device_env)
| DoAsrIteration (e : asr_env)
| DoAsrFlush (final : option string)
| DoTtsIteration (e : tts_env).

Definition perform (a : action) : M unit :=
  match a with
  | DoStart d => start d
  | DoStop d => stop d
  | DoAsrIteration e => asr_iteration e
  | DoAsrFlush final => asr_flush final
  | DoTtsIteration e => tts_iteration e
  end.

Fixpoint perform_all (acts : list action) (s : Engine) : Engine :=
  match acts with
  | [] => s
  | a :: rest => perform_all rest (exec (perform a) s)
  end.

(** A text of at least [m] characters. *)
Definition long (m : Z) (t : string) : Prop := m <= Z.of_nat (String.length t).

Definition final_long (m : Z) (ev : event) : Prop :=
  match ev with
  | OnFinal t => long m t
  | _ => True
  end.

(** With minimum length [m] configured: the configuration stays, a queue of
    long phrases stays one, and every finalized-phrase callback added to the
    trace carries a long phrase. *)
Definition phrases_long (m : Z) (s s' : Engine) : Prop :=
  min_phrase_len (cfg s) = m ->
  min_phrase_len (cfg s') = m
  /\ (Forall (long m) (phrase_q s) -> Forall (long m) (phrase_q s'))
  /\ extends (final_long m) s s'.

(** What the loop body of [tts_worker] does with a dequeued text. *)
Definition on_phrase (e : tts_env) (text : string) : M unit :=
  if truthy text then handle_phrase e text else ret tt.

(** Lines 189-190: a non-empty partial marks speech and activity. *)
Definition heard (now : Q) (s : Engine) : Engine :=
  set_seg (mkSegment (_last_partial (seg s)) (_last_partial_time (seg s))
                     now true) s.

(** Lines 192-194: the partial is passed to the callback and remembered. *)
Definition shown (p : string) (now : Q) (s : Engine) : Engine :=
  set_seg (mkSegment p now (_last_activity_time (seg s))
                     (_speech_seen_this_segment (seg s)))
          (set_trace (trace s ++ [OnPartial p]) s).

(** The text of the partial handed last to the partial-text callback. *)
Fixpoint last_surfaced (tr : list event) : option string :=
  match tr with
  | [] => None
  | ev :: rest =>
      match last_surfaced rest with
      | Some t => Some t
      | None => match ev with
                | OnPartial t => Some t
                | _ => None
                end
      end
  end.

Definition not_partial (ev : event) : Prop :=
  match ev with
  | OnPartial _ => False
  | _ => True
  end.

(** The remembered partial is empty (fresh engine, or cleared by a reset) or
    it is the text of the partial surfaced last. *)
Definition segment_memory (s : Engine) : Prop :=
  _last_partial (seg s) = EmptyString
  \/ last_surfaced (trace s) = Some (_last_partial (seg s)).

(** What every step of the engine keeps about partials: the configuration,
    the meaning of the remembered partial, and (for a throttle that is not
    negative) a time of the last surfaced partial that never goes back. *)
Definition partials_kept (s s' : Engine) : Prop :=
  cfg s' = cfg s
  /\ (segment_memory s -> segment_memory s')
  /\ ((0 <= partial_throttle_sec (cfg s))%Q ->
      (_last_partial_time (seg s) <= _last_partial_time (seg s'))%Q).

(** What [n .. n+k-1] failed attempts leave in the trace: the call, the
    retry log, and the wait of [backoff * n]. *)
Fixpoint retry_events (text : string) (backoff : Q) (n : Z) (k : nat)
  : list event :=
  match k with
  | O => []
  | S k' =>
      [Synth text n; UiLog (LogRetry n SynthError);
       Sleep (backoff * inject_Z n)]
      ++ retry_events text backoff (n + 1) k'
  end.

Definition is_synth (ev : event) : bool :=
  match ev with
  | Synth _ _ => true
  | _ => false
  end.

Definition is_failure_report (ev : event) : bool :=
  match ev with
  | UiLog (LogTtsError _) => true
  | _ => false
  end.

Definition is_playback (ev : event) : bool :=
  match ev with
  | Decode | ExportWav | Play => true
  | _ => false
  end.

Definition synth_calls (l : list event) : nat := List.length (filter is_synth l).
Definition failure_reports (l : list event) : nat :=
  List.length (filter is_failure_report l).

(** Events of the retry loop itself. *)
Definition retry_side (ev : event) : Prop :=
  match ev with
  | Synth _ _ | UiLog (LogRetry _ _) | Sleep _ => True
  | _ => False
  end.

(** What [stop_input] adds to the trace. *)
Definition stop_input_events (d : device_env) (s : Engine) : list event :=
  match stream_in s with
  | Some id =>
      StreamStop id :: (if stop_ok d then [StreamClose id] else [])
      ++ [UiLog LogCaptureStopped; OnStatus StMicStopped]
  | None => []
  end.

(** The engine when the [finally] clause is entered: capture has been
    suspended and the [try] block has run, whatever its outcome. *)
Definition at_finally (e : tts_env) (text : string) (s : Engine) : Engine :=
  exec (phrase_body e text) (exec (stop_input (dev e)) s).

(** The resume attempt of the [finally] clause. *)
Definition try_resume (d : device_env) : M unit :=
  try_except (start_input d) (fun ex => ui_log (LogResumeFailed ex)).

(** ** Concrete engines and inputs *)

(** The engine after one successful [start_input] on a fresh engine. *)
Definition running_engine : Engine := exec (start_input device_fine) (init 0).

(** A segment with speech whose last activity is one second old. *)
Definition pending_segment : Engine :=
  set_seg (mkSegment "hol" 1 1 true) (init 0).

(** A poll that finds the queue empty at time 2, the recognizer's forced
    final text being [final]. *)
Definition silent_poll (final : string) : asr_env :=
  mkAsrEnv None false None None (Some final) 2 2 (21 # 10).

(** A frame on which the recognizer declares the text [t] final. *)
Definition final_frame (t : string) : asr_env :=
  mkAsrEnv (Some []) true (Some t) None None 1 1 1.

(** A frame on which the recognizer reports the partial text [p] at time [t]. *)
Definition partial_frame (p : string) (t : Q) : asr_env :=
  mkAsrEnv (Some []) false None (Some p) None t t t.

(** "hola" was surfaced at time 1; then the recognizer declared
    "hola mundo" final, which ended the segment. *)
Definition after_first_phrase : Engine :=
  perform_all [DoAsrIteration (partial_frame "hola" 1);
               DoAsrIteration (final_frame "hola mundo")] (init 0).

(** A synthesizer that fails once and then succeeds. *)
Definition second_try : tts_env :=
  mkTtsEnv None device_fine (fun n => n =? 2) true true true true false.

(** A synthesizer that fails on every attempt. *)
Definition never_answers : tts_env :=
  mkTtsEnv None device_fine (fun _ => false) true true true true false.

(** A phrase whose playback fails after a successful synthesis. *)
Definition playback_fails : tts_env :=
  mkTtsEnv None device_fine (fun _ => true) true true false true false.

(** The lifecycle thread calls [stop] while the phrase is played. *)
Definition stopped_meanwhile : tts_env :=
  mkTtsEnv None device_fine (fun _ => true) true true true true true.

(** The engine started on a loaded model. *)
Definition started_engine : Engine :=
  exec (start device_fine)
    (mkEngine
       (mkConfig true true true true true false true 6 (8 # 10) (25 # 100) 3 1)
       (mkSegment EmptyString 0 0 false) [] [] false None false false
       (mkDevice [] [] 0%nat) []).

(** Synthesis, decoding and playback all succeed. *)
Definition all_fine : tts_env :=
  mkTtsEnv None device_fine (fun _ => true) true true true true false.

(** What a run of actions adds to the trace. *)
Definition emitted_by (acts : list action) (s : Engine) : list event :=
  skipn (List.length (trace s)) (trace (perform_all acts s)).

(** ** Vocabulary of the further properties *)

(** What the rounding of a float32 product is taken to do: it keeps the
    order, and it leaves alone the integers that fit 16 bits (float32
    represents them exactly). *)
Definition rounds (round32 : Q -> Q) : Prop :=
  (forall a b : Q, (a <= b)%Q -> (round32 a <= round32 b)%Q)
  /\ (forall k : Z, -32767 <= k <= 32767 ->
      (round32 (inject_Z k) == inject_Z k)%Q).

(** Two bytes read as a little-endian int16, and a buffer read as int16
    samples (what the recognizer does with the bytes it is given). *)
Definition int16_of_bytes (lo hi : Z) : Z := wrap16 (lo + 256 * hi).

Fixpoint decode_int16 (bytes : list Z) : list Z :=
  match bytes with
  | lo :: hi :: rest => int16_of_bytes lo hi :: decode_int16 rest
  | _ => []
  end.

(** The frame an iteration of the segmentation loop gets, with what stays in
    the queue: the head of the queue, or the frame that arrives during the
    wait on an empty queue. *)
Definition next_frame (e : asr_env) (s : Engine)
  : option (frame * list frame) :=
  match audio_q s with
  | f :: rest => Some (f, rest)
  | [] => match arrival e with
          | Some f => Some (f, [])
          | None => None
          end
  end.

(** The frames passed to [AcceptWaveform], in order. *)
Definition accepted (l : list event) : list frame :=
  flat_map (fun ev => match ev with
                      | RecAccept f => [f]
                      | _ => []
                      end) l.

Definition not_accept (ev : event) : Prop :=
  match ev with
  | RecAccept _ => False
  | _ => True
  end.

(** The frame queue is left alone and no frame is passed to the
    recognizer. *)
Definition queue_kept (s s' : Engine) : Prop :=
  audio_q s' = audio_q s /\ extends not_accept s s'.

(** Lines 280-294: what the [try] block of [tts_worker] does once the
    synthesis has returned. *)
Definition after_synthesis (e : tts_env) : M unit :=
  external Decode (decode_ok e) CodecError ;;
  sw <- gets (fun s => save_wav (cfg s)) ;;
  when sw (external ExportWav (export_ok e) CodecError) ;;
  on_status StPlaying ;;
  _play_segment e ;;
  on_status StReady ;;
  km <- gets (fun s => keep_mp3 (cfg s)) ;;
  when (negb km)
    (try_except (external RemoveMp3 (remove_ok e) OSError)
                (fun _ => ret tt)).

(** Its outcome and its calls, read off the answers of the services. *)
Definition playback_outcome (e : tts_env) (s : Engine) : res unit :=
  if negb (decode_ok e) then Raise CodecError
  else if save_wav (cfg s) && negb (export_ok e) then Raise CodecError
  else if negb (play_ok e) then Raise DeviceError
  else Ok tt.

Definition playback_events (e : tts_env) (s : Engine) : list event :=
  Decode
  :: (if decode_ok e
      then (if save_wav (cfg s) then [ExportWav] else [])
           ++ (if save_wav (cfg s) && negb (export_ok e) then []
               else [OnStatus StPlaying; Play; SdStop]
                    ++ (if play_ok e
                        then OnStatus StReady
                             :: (if keep_mp3 (cfg s) then [] else [RemoveMp3])
                        else []))
      else []).

(** What the [except] clause logs for an outcome of the [try] block. *)
Definition error_report (r : res unit) : list event :=
  match r with
  | Ok _ => []
  | Raise ex => [UiLog (LogTtsError ex)]
  end.

(** Every [sd.play] in the trace is directly followed by [sd.stop]. *)
Fixpoint stops_after_play (l : list event) : bool :=
  match l with
  | [] => true
  | Play :: rest =>
      match rest with
      | SdStop :: _ => stops_after_play rest
      | _ => false
      end
  | _ :: rest => stops_after_play rest
  end.

(** Calls on the capture side: the input stream, log and status. *)
Definition capture_side (ev : event) : Prop :=
  match ev with
  | OpenInput | StreamStart _ | StreamStop _ | StreamClose _
  | UiLog (LogCaptureStarted) | UiLog (LogCaptureStopped)
  | UiLog (LogResumeFailed _) | OnStatus StRecording
  | OnStatus StMicStopped => True
  | _ => False
  end.

Definition is_play (ev : event) : bool :=
  match ev with
  | Play => true
  | _ => false
  end.

(** [e] with another answer of [os.remove]. *)
Definition with_remove_ok (b : bool) (e : tts_env) : tts_env :=
  mkTtsEnv (phrase_arrival e) (dev e) (synth_ok e) (decode_ok e)
           (export_ok e) (play_ok e) b (stop_raised e).

(** A phrase as the segmentation side produces it: not empty, and without
    white space at either end. *)
Definition stripped (t : string) : Prop := truthy t = true /\ strip t = t.

Definition final_stripped (ev : event) : Prop :=
  match ev with
  | OnFinal t => stripped t
  | _ => True
  end.

(** A queue of stripped phrases stays one, and every finalized-phrase
    callback added to the trace carries a stripped phrase. *)
Definition stripped_kept (s s' : Engine) : Prop :=
  (Forall stripped (phrase_q s) -> Forall stripped (phrase_q s'))
  /\ extends final_stripped s s'.

(** The phrases handed to [on_final], and the phrases the synthesizer was
    called on (each phrase is counted at its first attempt), in order. *)
Definition finals (l : list event) : list string :=
  flat_map (fun ev => match ev with
                      | OnFinal t => [t]
                      | _ => []
                      end) l.

Definition first_attempts (l : list event) : list string :=
  flat_map (fun ev => match ev with
                      | Synth t n => if n =? 1 then [t] else []
                      | _ => []
                      end) l.

(** The steps of the two worker threads while the engine runs; the phrases
    the synthesis loop gets are those of the queue. *)
Definition worker_step (a : action) : Prop :=
  match a with
  | DoAsrIteration _ | DoAsrFlush _ => True
  | DoTtsIteration e => phrase_arrival e = None
  | DoStart _ | DoStop _ => False
  end.

(** Between the two workers no phrase is lost, doubled or reordered: the
    phrases synthesized so far followed by those waiting in the queue are
    the phrases that were waiting at first followed by those finalized
    since. *)
Definition conserved (s s' : Engine) : Prop :=
  exists l, trace s' = trace s ++ l
            /\ first_attempts l ++ phrase_q s' = phrase_q s ++ finals l.

Definition nonempty (t : string) : Prop := truthy t = true.

(** A string of decimal digits only. *)
Fixpoint all_digits (t : string) : bool :=
  match t with
  | EmptyString => true
  | String c r => is_digit c && all_digits r
  end.

(** The characters [safe_snip] takes out of a file name. *)
Definition unsafe_char (c : ascii) : bool :=
  Ascii.eqb c " " || Ascii.eqb c "/" || Ascii.eqb c "\".

Fixpoint has_unsafe (t : string) : bool :=
  match t with
  | EmptyString => false
  | String c r => unsafe_char c || has_unsafe r
  end.

Fixpoint all_space (t : string) : bool :=
  match t with
  | EmptyString => true
  | String c r => is_space c && all_space r
  end.

(** What a handler of the window added to what the window has shown. *)
Definition shown_by (w w' : Window) : list window_event :=
  skipn (List.length (displayed w)) (displayed w').

Definition is_error_dialog (ev : window_event) : bool :=
  match ev with
  | ShowErrorNoModelDir | ShowLoadError _ | ShowError _ => true
  | _ => false
  end.

(** The model box is not blank and the model loads. *)
Definition loads (fs : model_env) (f : form) : bool :=
  truthy (strip (model_path_var f)) && is_dir fs && model_ok fs
  && recognizer_ok fs.

(** The model loads and the input device opens and starts the stream. *)
Definition starts (fs : model_env) (d : device_env) (f : form) : bool :=
  loads fs f && open_ok d && start_ok d.


(** * Properties *)

(** ** Running the monad *)

Ltac step_monad :=
  unfold outcome, exec, emitted, when, external, ui_log, on_status, on_partial,
    on_final, emit, modify, gets, try_except, try_finally, bind, ret, raise in *.

Lemma skipn_emitted (A : Type) (old new : list A) :
  skipn (List.length old) (old ++ new) = new.
Proof.
  induction old as [|x old IH]; [reflexivity | exact IH].
Qed.

Lemma emitted_spec (A : Type) (c : M A) (s : Engine) (l : list event) :
  trace (exec c s) = trace s ++ l -> emitted c s = l.
Proof.
  intros H. unfold emitted. rewrite H. apply skipn_emitted.
Qed.

Lemma drain_empty (A : Type) (q : list A) : drain q = [].
Proof.
  induction q as [|x q IH]; [reflexivity | exact IH].
Qed.

Lemma engine_eta (s : Engine) :
  mkEngine (cfg s) (seg s) (audio_q s) (phrase_q s) (stop_event s)
           (stream_in s) (t_asr s) (t_tts s) (device s) (trace s) = s.
Proof. destruct s; reflexivity. Qed.

(** ** Capture *)

Lemma stop_input_stopped (d : device_env) (s : Engine) :
  stream_in s = None -> stop_input d s = (Ok tt, s).
Proof.
  intros H. unfold stop_input. step_monad. rewrite H. reflexivity.
Qed.

(** Whatever the device layer answers, [stop_input] returns normally and
    leaves the engine without a stream handle. *)
Lemma stop_input_total (d : device_env) (s : Engine) :
  outcome (stop_input d) s = Ok tt
  /\ stream_in (exec (stop_input d) s) = None
  /\ cfg (exec (stop_input d) s) = cfg s
  /\ seg (exec (stop_input d) s) = seg s
  /\ audio_q (exec (stop_input d) s) = audio_q s
  /\ phrase_q (exec (stop_input d) s) = phrase_q s
  /\ stop_event (exec (stop_input d) s) = stop_event s.
Proof.
  unfold stop_input, stream_stop, stream_close. step_monad.
  destruct (stream_in s) as [id|] eqn:Hs; cbn.
  - destruct (stop_ok d); cbn; [destruct (close_ok d); cbn|]; repeat split.
  - rewrite Hs. repeat split.
Qed.

Lemma stop_input_trace (d : device_env) (s : Engine) :
  trace (exec (stop_input d) s) = trace s ++ stop_input_events d s.
Proof.
  unfold stop_input, stop_input_events, stream_stop, stream_close. step_monad.
  destruct (stream_in s) as [id|]; cbn.
  - destruct (stop_ok d); cbn; [destruct (close_ok d); cbn|];
      repeat rewrite <- app_assoc; reflexivity.
  - rewrite app_nil_r. reflexivity.
Qed.

(** [start_input] when the device opens and starts the stream. *)
Lemma start_input_succeeds (d : device_env) (s : Engine) :
  open_ok d = true -> start_ok d = true ->
  start_input d s
  = (Ok tt,
     mkEngine (cfg s) (seg s) (audio_q s) (phrase_q s) (stop_event s)
       (Some (dev_next (device s))) (t_asr s) (t_tts s)
       (mkDevice (dev_open (device s) ++ [dev_next (device s)])
                 (dev_running (device s) ++ [dev_next (device s)])
                 (S (dev_next (device s))))
       (trace s ++ [OpenInput; StreamStart (dev_next (device s));
                    OnStatus StRecording; UiLog LogCaptureStarted])).
Proof.
  intros Ho Hs. unfold start_input, stream_open, stream_start. step_monad.
  rewrite Ho. cbn. rewrite Hs. cbn. repeat rewrite <- app_assoc. reflexivity.
Qed.

(** C8, as stated, fails: [start_input] on a running capture is not a no-op.
    It opens a second stream (handle 1 beside handle 0, both running), stores
    the new handle, and reports a normal start; no warning is emitted. *)
Lemma start_input_running_opens_second_stream :
  capture_active running_engine = true
  /\ stream_in running_engine = Some 0%nat
  /\ stream_in (exec (start_input device_fine) running_engine) = Some 1%nat
  /\ dev_open (device (exec (start_input device_fine) running_engine))
     = [0; 1]%nat
  /\ dev_running (device (exec (start_input device_fine) running_engine))
     = [0; 1]%nat
  /\ emitted (start_input device_fine) running_engine
     = [OpenInput; StreamStart 1; OnStatus StRecording; UiLog LogCaptureStarted]
  /\ ~ (stream_in (exec (start_input device_fine) running_engine)
        = stream_in running_engine
        /\ device (exec (start_input device_fine) running_engine)
           = device running_engine).
Proof.
  repeat split; try reflexivity.
  intros [H _]. discriminate H.
Qed.

(** C8 (amended): [stop_input] is idempotent: on a stopped capture it is a
    no-op (no device call, no log, no status), so a second stop after a first
    changes nothing.  [start_input] has no running check and no warning:
    whatever the capture state, when the device accepts the stream it opens
    and starts a new input stream, stores its handle in place of the previous
    one, leaves the streams that were running untouched, and reports a normal
    start. *)
Theorem frame_source_start_stop (d : device_env) (s : Engine) :
  (stream_in s = None -> stop_input d s = (Ok tt, s))
  /\ (forall d', stop_input d' (exec (stop_input d) s)
                 = (Ok tt, exec (stop_input d) s))
  /\ (open_ok d = true -> start_ok d = true ->
      outcome (start_input d) s = Ok tt
      /\ stream_in (exec (start_input d) s) = Some (dev_next (device s))
      /\ dev_open (device (exec (start_input d) s))
         = dev_open (device s) ++ [dev_next (device s)]
      /\ dev_running (device (exec (start_input d) s))
         = dev_running (device s) ++ [dev_next (device s)]
      /\ emitted (start_input d) s
         = [OpenInput; StreamStart (dev_next (device s));
            OnStatus StRecording; UiLog LogCaptureStarted]).
Proof.
  split; [apply stop_input_stopped|]. split.
  - intros d'. apply stop_input_stopped. apply stop_input_total.
  - intros Ho Hs. assert (Hrun := @start_input_succeeds d s Ho Hs).
    unfold outcome, emitted, exec. rewrite Hrun. cbn.
    repeat split. apply skipn_emitted.
Qed.

Lemma frame_source_start_stop_witness :
  stop_input device_fine (init 0) = (Ok tt, init 0)
  /\ stream_in (exec (start_input device_fine) running_engine) = Some 1%nat.
Proof.
  split.
  - exact (proj1 (frame_source_start_stop device_fine (init 0)) eq_refl).
  - exact (proj1 (proj2 (proj2 (proj2
             (frame_source_start_stop device_fine running_engine))
             eq_refl eq_refl))).
Defined.

(** ** Lifecycle *)

Lemma stop_unfold (d : device_env) (s : Engine) :
  stop d s =
  (Ok tt,
   set_phrase_q []
     (set_audio_q [] (exec (stop_input d) (set_stop_event true s)))).
Proof.
  pose proof (stop_input_total d (set_stop_event true s)) as [Ho _].
  unfold stop. step_monad. cbv beta iota.
  destruct (stop_input d (set_stop_event true s)) as [r s1]. cbn in *.
  subst r. rewrite !drain_empty. reflexivity.
Qed.

Lemma stop_input_trace_indep (d : device_env) (s : Engine) (b : bool) :
  trace (exec (stop_input d) (set_stop_event b s))
  = trace (exec (stop_input d) s)
  /\ device (exec (stop_input d) (set_stop_event b s))
     = device (exec (stop_input d) s).
Proof.
  unfold stop_input, stream_stop, stream_close. step_monad. cbn.
  destruct (stream_in s) as [id|]; cbn; [|split; reflexivity].
  destruct (stop_ok d); cbn; [destruct (close_ok d); cbn|]; split; reflexivity.
Qed.

Lemma not_in_without (id : nat) (l : list nat) : ~ In id (without id l).
Proof. unfold without. apply remove_In. Qed.

Lemma without_without (id : nat) (l : list nat) :
  without id (without id l) = without id l.
Proof.
  unfold without. apply notin_remove. apply remove_In.
Qed.

(** C6: [stop] raises the stop signal, stops the frame source and empties
    both queues; the only calls it makes are those of [stop_input] (nothing
    taken from a queue reaches the recognizer, the synthesizer or a
    callback); it never raises, whatever the device layer does; a second
    [stop] changes nothing; on an engine that was never started it only sets
    the stop event. *)
Theorem stop_drains_and_is_reentrant (d : device_env) (s : Engine) :
  outcome (stop d) s = Ok tt
  /\ stop_event (exec (stop d) s) = true
  /\ stream_in (exec (stop d) s) = None
  /\ capture_active (exec (stop d) s) = false
  /\ audio_q (exec (stop d) s) = []
  /\ phrase_q (exec (stop d) s) = []
  /\ emitted (stop d) s = stop_input_events d s
  /\ (forall id, stream_in s = Some id -> stop_ok d = true ->
        ~ In id (dev_running (device (exec (stop d) s))))
  /\ (forall d', stop d' (exec (stop d) s) = (Ok tt, exec (stop d) s))
  /\ (forall now, stop d (init now) = (Ok tt, set_stop_event true (init now))).
Proof.
  pose proof (stop_input_total d (set_stop_event true s))
    as (_ & Hst & _ & _ & _ & _ & Hev).
  pose proof (stop_input_trace_indep d s true) as [Htr Hdev].
  assert (Ho : outcome (stop d) s = Ok tt)
    by (unfold outcome; rewrite stop_unfold; reflexivity).
  assert (Ee : exec (stop d) s
               = set_phrase_q [] (set_audio_q []
                   (exec (stop_input d) (set_stop_event true s))))
    by (unfold exec at 1; rewrite stop_unfold; reflexivity).
  unfold emitted at 1. rewrite Ee.
  remember (exec (stop_input d) (set_stop_event true s)) as s1 eqn:Es1.
  cbn [set_phrase_q set_audio_q stop_event stream_in audio_q phrase_q
       trace device].
  repeat split; try assumption.
  - unfold capture_active. cbn. rewrite Hst. reflexivity.
  - rewrite Htr, stop_input_trace. apply skipn_emitted.
  - intros id Hid Hok. rewrite Hdev.
    unfold stop_input, stream_stop, stream_close. step_monad.
    rewrite Hid. cbn. rewrite Hok. cbn.
    destruct (close_ok d); cbn; [rewrite without_without|];
      apply not_in_without.
  - intros d'. rewrite stop_unfold. f_equal.
    unfold exec. rewrite stop_input_stopped by exact Hst.
    unfold set_phrase_q, set_audio_q, set_stop_event. cbn.
    rewrite Hev. reflexivity.
Qed.

Lemma stop_drains_and_is_reentrant_witness :
  ~ In 0%nat (dev_running (device (exec (stop device_fine) running_engine))).
Proof.
  exact (proj1 (proj2 (proj2 (proj2 (proj2 (proj2 (proj2 (proj2
    (stop_drains_and_is_reentrant device_fine running_engine))))))))
    0%nat eq_refl eq_refl).
Defined.

(** C7: when the model or the recognizer is not loaded, [start] raises before
    doing anything: the engine is left exactly as it was (stop event not
    cleared, no stream opened, no thread created, queues untouched, nothing
    logged). *)
Theorem start_requires_model (d : device_env) (s : Engine) :
  model_loaded (cfg s) = false \/ recognizer_loaded (cfg s) = false ->
  start d s = (Raise (RuntimeError "Modelo Vosk no cargado."), s).
Proof.
  intros H. unfold start. step_monad.
  destruct H as [H | H]; rewrite H; cbn; [reflexivity|].
  rewrite orb_true_r. reflexivity.
Qed.

Lemma start_requires_model_witness :
  start device_fine (init 0)
  = (Raise (RuntimeError "Modelo Vosk no cargado."), init 0).
Proof.
  apply (start_requires_model device_fine (init 0)). left. reflexivity.
Defined.

(** ** What a method leaves alone

    For a reflexive and transitive [R], [keeps R] goes through the control
    structure of the methods. *)

Section Keeps.
Variable R : Engine -> Engine -> Prop.
Hypothesis R_refl : forall s, R s s.
Hypothesis R_trans : forall a b c, R a b -> R b c -> R a c.

Lemma keeps_ret A (a : A) : keeps R (ret a).
Proof. intros s. apply R_refl. Qed.

Lemma keeps_raise A (e : exn) : keeps R (@raise A e).
Proof. intros s. apply R_refl. Qed.

Lemma keeps_gets A (f : Engine -> A) : keeps R (gets f).
Proof. intros s. apply R_refl. Qed.

Lemma keeps_bind A B (c : M A) (k : A -> M B) :
  keeps R c -> (forall a, keeps R (k a)) -> keeps R (bind c k).
Proof.
  intros Hc Hk s. specialize (Hc s). unfold exec, bind in *.
  destruct (c s) as [[a|e] s1]; cbn in *; [|exact Hc].
  eapply R_trans; [exact Hc | apply Hk].
Qed.

Lemma keeps_try_except A (c : M A) (h : exn -> M A) :
  keeps R c -> (forall e, keeps R (h e)) -> keeps R (try_except c h).
Proof.
  intros Hc Hh s. specialize (Hc s). unfold exec, try_except in *.
  destruct (c s) as [[a|e] s1]; cbn in *; [exact Hc|].
  eapply R_trans; [exact Hc | apply Hh].
Qed.

Lemma keeps_try_finally A (c : M A) (f : M unit) :
  keeps R c -> keeps R f -> keeps R (try_finally c f).
Proof.
  intros Hc Hf s. specialize (Hc s). unfold exec, try_finally in *.
  destruct (c s) as [r s1]; cbn in *. specialize (Hf s1). unfold exec in Hf.
  destruct (f s1) as [[u|e] s2]; cbn in *; eapply R_trans; eassumption.
Qed.

Lemma keeps_when (b : bool) (c : M unit) : keeps R c -> keeps R (when b c).
Proof. intros Hc. destruct b; [exact Hc | apply keeps_ret]. Qed.

Lemma keeps_if A (b : bool) (c1 c2 : M A) :
  keeps R c1 -> keeps R c2 -> keeps R (if b then c1 else c2).
Proof. intros H1 H2. destruct b; assumption. Qed.
End Keeps.

(** ** Relations between the state before and after *)

Lemma extends_refl P s : extends P s s.
Proof. exists []. split; [symmetry; apply app_nil_r | constructor]. Qed.

Lemma extends_trans P a b c : extends P a b -> extends P b c -> extends P a c.
Proof.
  intros (l1 & E1 & F1) (l2 & E2 & F2). exists (l1 ++ l2). split.
  - rewrite E2, E1. symmetry. apply app_assoc.
  - apply Forall_app. split; assumption.
Qed.

Lemma only_emits_refl P s : only_emits P s s.
Proof. repeat split; apply extends_refl. Qed.

Lemma only_emits_trans P a b c :
  only_emits P a b -> only_emits P b c -> only_emits P a c.
Proof.
  intros (A1 & A2 & A3 & A4 & A5 & A6 & A7 & A8)
         (B1 & B2 & B3 & B4 & B5 & B6 & B7 & B8).
  repeat split; try congruence. eapply extends_trans; eassumption.
Qed.

Lemma quiet_refl P s : quiet P s s.
Proof. repeat split; apply extends_refl. Qed.

Lemma quiet_trans P a b c : quiet P a b -> quiet P b c -> quiet P a c.
Proof.
  intros (A1 & A2 & A3 & A4 & A5) (B1 & B2 & B3 & B4 & B5).
  repeat split; try congruence. eapply extends_trans; eassumption.
Qed.

Lemma only_emits_quiet P s s' : only_emits P s s' -> quiet P s s'.
Proof. intros (A1 & A2 & A3 & A4 & _ & _ & _ & A8). repeat split; assumption. Qed.

(** ** Methods that never raise *)

Lemma returns_ret A (a : A) : returns (ret a).
Proof. intros s. exists a. reflexivity. Qed.

Lemma returns_gets A (f : Engine -> A) : returns (gets f).
Proof. intros s. exists (f s). reflexivity. Qed.

Lemma returns_modify (f : Engine -> Engine) : returns (modify f).
Proof. intros s. exists tt. reflexivity. Qed.

Lemma returns_emit (ev : event) : returns (emit ev).
Proof. intros s. exists tt. reflexivity. Qed.

Lemma returns_bind A B (c : M A) (k : A -> M B) :
  returns c -> (forall a, returns (k a)) -> returns (bind c k).
Proof.
  intros Hc Hk s. destruct (Hc s) as [a Ha]. unfold outcome, bind in *.
  destruct (c s) as [r s1]; cbn in *. subst r. apply Hk.
Qed.

(** A handler that never raises swallows every exception of the body. *)
Lemma returns_try_except A (c : M A) (h : exn -> M A) :
  (forall e, returns (h e)) -> returns (try_except c h).
Proof.
  intros Hh s. unfold outcome, try_except.
  destruct (c s) as [[a|e] s1]; cbn; [exists a; reflexivity | apply Hh].
Qed.

Lemma returns_try_finally A (c : M A) (f : M unit) :
  returns c -> returns f -> returns (try_finally c f).
Proof.
  intros Hc Hf s. destruct (Hc s) as [a Ha]. unfold outcome, try_finally in *.
  destruct (c s) as [r s1]; cbn in *. subst r.
  destruct (Hf s1) as [u Hu]. unfold outcome in Hu.
  destruct (f s1) as [r2 s2]; cbn in *.
  subst r2. exists a. reflexivity.
Qed.

Lemma returns_when (b : bool) (c : M unit) : returns c -> returns (when b c).
Proof. intros Hc. destruct b; [exact Hc | apply returns_ret]. Qed.

Lemma returns_if A (b : bool) (c1 c2 : M A) :
  returns c1 -> returns c2 -> returns (if b then c1 else c2).
Proof. intros H1 H2. destruct b; assumption. Qed.

Lemma returns_unit (c : M unit) (s : Engine) :
  returns c -> c s = (Ok tt, exec c s).
Proof.
  intros Hc. destruct (Hc s) as [[] Ha]. unfold outcome, exec in *.
  destruct (c s) as [r s1]; cbn in *. subst r. reflexivity.
Qed.

Ltac returns_auto :=
  repeat lazymatch goal with
  | |- forall _, _ => intro
  | |- returns (bind _ _) => apply returns_bind
  | |- returns (try_except _ _) => apply returns_try_except
  | |- returns (try_finally _ _) => apply returns_try_finally
  | |- returns (when _ _) => apply returns_when
  | |- returns (if _ then _ else _) => apply returns_if
  | |- returns (match ?x with _ => _ end) => destruct x
  | |- returns (ret _) => apply returns_ret
  | |- returns (gets _) => apply returns_gets
  | |- returns (modify _) => apply returns_modify
  | |- returns (emit _) => apply returns_emit
  | |- returns (ui_log _) => apply returns_emit
  | |- returns (on_status _) => apply returns_emit
  | |- returns (on_partial _) => apply returns_emit
  | |- returns (on_final _) => apply returns_emit
  end.

(** ** Segmentation *)

Lemma emit_phrase_eq (text : string) (s : Engine) :
  _emit_phrase text s
  = (Ok tt, if long_enough s text then enqueued text s else s).
Proof.
  unfold _emit_phrase, long_enough. step_monad.
  destruct (Z.of_nat (String.length text) <? min_phrase_len (cfg s));
    reflexivity.
Qed.

Lemma when_emit_phrase_eq (fin : string) (s : Engine) :
  when (truthy fin) (_emit_phrase fin) s = (Ok tt, finalized fin s).
Proof.
  unfold when, finalized. destruct (truthy fin); cbn.
  - apply emit_phrase_eq.
  - reflexivity.
Qed.

Lemma finalize_idle (e : asr_env) (s : Engine) :
  _speech_seen_this_segment (seg s) = false
  \/ silence_elapsed (t_silence e) s = false ->
  _finalize_by_silence e s = (Ok tt, s).
Proof.
  intros H. unfold _finalize_by_silence. step_monad.
  destruct (_speech_seen_this_segment (seg s)); cbn; [|reflexivity].
  destruct H as [H | H]; [discriminate|]. rewrite H. reflexivity.
Qed.

Lemma finalize_fires (e : asr_env) (s : Engine) :
  _speech_seen_this_segment (seg s) = true ->
  silence_elapsed (t_silence e) s = true ->
  _finalize_by_silence e s
  = (Ok tt,
     reset_at (t_reset e)
       (finalized (strip (get_or_empty (final_text e)))
          (set_trace (trace s ++ [RecFinalResult]) s))).
Proof.
  intros Hseen Hlate.
  unfold _finalize_by_silence, finalized, reset_at, long_enough,
    _emit_phrase, _reset_partials, enqueued.
  step_monad. rewrite Hseen. cbn [negb]. rewrite Hlate.
  destruct (truthy (strip (get_or_empty (final_text e)))); cbn;
    [|reflexivity].
  destruct (Z.of_nat _ <? _); reflexivity.
Qed.

Lemma long_enough_false (s : Engine) (t : string) :
  long_enough s t = false
  <-> Z.of_nat (String.length t) < min_phrase_len (cfg s).
Proof.
  unfold long_enough. rewrite negb_false_iff. apply Z.ltb_lt.
Qed.

Lemma long_enough_true (s : Engine) (t : string) :
  long_enough s t = true
  <-> min_phrase_len (cfg s) <= Z.of_nat (String.length t).
Proof.
  unfold long_enough. rewrite negb_true_iff. apply Z.ltb_ge.
Qed.

Lemma finalized_discard (fin : string) (s : Engine) :
  fin = EmptyString \/ Z.of_nat (String.length fin) < min_phrase_len (cfg s) ->
  finalized fin s = s.
Proof.
  intros [H | H]; unfold finalized.
  - subst fin. reflexivity.
  - apply long_enough_false in H. rewrite H, andb_false_r. reflexivity.
Qed.

(** C10: when the silence check fires but the forced final text is empty or
    shorter than [min_phrase_len], the segment is reset all the same
    ([_speech_seen_this_segment] cleared, [_last_partial] cleared,
    [_last_activity_time] set to the clock reading of the reset), the phrase
    queue is unchanged, and the only call made is [FinalResult]: no
    finalized-phrase callback, no log, no status. *)
Theorem silence_discards_short_final (e : asr_env) (s : Engine) :
  _speech_seen_this_segment (seg s) = true ->
  silence_elapsed (t_silence e) s = true ->
  strip (get_or_empty (final_text e)) = EmptyString
  \/ Z.of_nat (String.length (strip (get_or_empty (final_text e))))
     < min_phrase_len (cfg s) ->
  outcome (_finalize_by_silence e) s = Ok tt
  /\ _speech_seen_this_segment (seg (exec (_finalize_by_silence e) s)) = false
  /\ _last_partial (seg (exec (_finalize_by_silence e) s)) = EmptyString
  /\ _last_activity_time (seg (exec (_finalize_by_silence e) s)) = t_reset e
  /\ phrase_q (exec (_finalize_by_silence e) s) = phrase_q s
  /\ emitted (_finalize_by_silence e) s = [RecFinalResult].
Proof.
  intros Hseen Hlate Hshort.
  unfold outcome, emitted, exec. rewrite (finalize_fires e s Hseen Hlate).
  rewrite finalized_discard by exact Hshort. cbn.
  repeat split. apply skipn_emitted.
Qed.

Lemma silence_discards_short_final_witness :
  phrase_q (exec (_finalize_by_silence (silent_poll "hola")) pending_segment)
  = []
  /\ emitted (_finalize_by_silence (silent_poll "hola")) pending_segment
     = [RecFinalResult].
Proof.
  assert (H := silence_discards_short_final (silent_poll "hola")
                 pending_segment eq_refl eq_refl
                 (or_intror (eq_refl : (4 ?= 6) = Lt))).
  split; apply H.
Defined.

(** C4: the silence check does nothing unless speech was seen in the segment
    and [silence_finalize_sec] has elapsed since the last activity.  When it
    fires it asks the recognizer for its final result once, turns that text
    into one phrase when it is non-empty and long enough (so at most one
    phrase is enqueued), and resets the segment; after that, a further
    silence check is a no-op whatever the clock and the recognizer say. *)
Theorem silence_timeout_emits_once (e : asr_env) (s : Engine) :
  (_speech_seen_this_segment (seg s) = false
   \/ silence_elapsed (t_silence e) s = false ->
   _finalize_by_silence e s = (Ok tt, s))
  /\ (_speech_seen_this_segment (seg s) = true ->
      silence_elapsed (t_silence e) s = true ->
      outcome (_finalize_by_silence e) s = Ok tt
      /\ emitted (_finalize_by_silence e) s
         = RecFinalResult
           :: (if truthy (strip (get_or_empty (final_text e)))
                  && long_enough s (strip (get_or_empty (final_text e)))
               then [OnFinal (strip (get_or_empty (final_text e)))] else [])
      /\ phrase_q (exec (_finalize_by_silence e) s)
         = phrase_q s
           ++ (if truthy (strip (get_or_empty (final_text e)))
                  && long_enough s (strip (get_or_empty (final_text e)))
               then [strip (get_or_empty (final_text e))] else [])
      /\ seg (exec (_finalize_by_silence e) s)
         = mkSegment EmptyString (_last_partial_time (seg s)) (t_reset e) false
      /\ forall e2,
           _finalize_by_silence e2 (exec (_finalize_by_silence e) s)
           = (Ok tt, exec (_finalize_by_silence e) s)).
Proof.
  split; [apply finalize_idle|].
  intros Hseen Hlate.
  unfold outcome, emitted, exec. rewrite (finalize_fires e s Hseen Hlate).
  cbn [fst snd]. unfold finalized.
  change (long_enough (set_trace (trace s ++ [RecFinalResult]) s))
    with (long_enough s).
  destruct (truthy (strip (get_or_empty (final_text e)))
            && long_enough s (strip (get_or_empty (final_text e)))); cbn.
  all: repeat split;
    try (intros e2; apply finalize_idle; left; reflexivity);
    try (rewrite <- app_assoc); try apply skipn_emitted.
  symmetry. apply app_nil_r.
Qed.

Lemma silence_timeout_emits_once_witness :
  emitted (_finalize_by_silence (silent_poll "hola mundo")) pending_segment
  = [RecFinalResult; OnFinal "hola mundo"]
  /\ phrase_q (exec (_finalize_by_silence (silent_poll "hola mundo"))
                    pending_segment) = ["hola mundo"]
  /\ _finalize_by_silence (silent_poll "hola mundo") (init 0)
     = (Ok tt, init 0).
Proof.
  pose proof (silence_timeout_emits_once (silent_poll "hola mundo")
                pending_segment) as [_ H].
  specialize (H eq_refl eq_refl). destruct H as (_ & H1 & H2 & _).
  split; [exact H1 | split; [exact H2 |]].
  exact (proj1 (silence_timeout_emits_once (silent_poll "hola mundo") (init 0))
           (or_introl eq_refl)).
Defined.

Lemma keeps_modify (R : Engine -> Engine -> Prop) (f : Engine -> Engine) :
  (forall s, R s (f s)) -> keeps R (modify f).
Proof. intros H s. apply H. Qed.

(** Takes a [keeps] goal apart along the control structure of the method;
    what remains are the state updates, as goals [forall s, R s (f s)]. *)
Ltac keeps_auto Rrefl Rtrans :=
  repeat lazymatch goal with
  | |- keeps _ (bind _ _) => apply keeps_bind; [exact Rtrans | | intro]
  | |- keeps _ (try_except _ _) =>
      apply keeps_try_except; [exact Rtrans | | intro]
  | |- keeps _ (try_finally _ _) => apply keeps_try_finally; [exact Rtrans | |]
  | |- keeps _ (when _ _) => apply keeps_when; [exact Rrefl |]
  | |- keeps _ (if _ then _ else _) => apply keeps_if
  | |- keeps _ (match ?x with _ => _ end) => destruct x
  | |- keeps _ (ret _) => apply keeps_ret; exact Rrefl
  | |- keeps _ (raise _) => apply keeps_raise; exact Rrefl
  | |- keeps _ (gets _) => apply keeps_gets; exact Rrefl
  | |- keeps _ (modify _) => apply keeps_modify
  | |- keeps _ (external _ _ _) => unfold external
  | |- keeps _ (emit _) => unfold emit
  | |- keeps _ (ui_log _) => unfold ui_log
  | |- keeps _ (on_status _) => unfold on_status
  | |- keeps _ (on_partial _) => unfold on_partial
  | |- keeps _ (on_final _) => unfold on_final
  | |- keeps _ (sleep _) => unfold sleep
  | |- keeps _ (stream_open _) => unfold stream_open
  | |- keeps _ (stream_start _ _) => unfold stream_start
  | |- keeps _ (stream_stop _ _) => unfold stream_stop
  | |- keeps _ (stream_close _ _) => unfold stream_close
  | |- keeps _ (start_input _) => unfold start_input
  | |- keeps _ (stop_input _) => unfold stop_input
  | |- keeps _ (_reset_partials _) => unfold _reset_partials
  | |- keeps _ (_finalize_by_silence _) => unfold _finalize_by_silence
  | |- keeps _ (audio_get _) => unfold audio_get
  | |- keeps _ (asr_iteration _) => unfold asr_iteration
  | |- keeps _ (asr_flush _) => unfold asr_flush
  | |- keeps _ (_play_segment _) => unfold _play_segment
  end.

Lemma asr_frame_refl s : asr_frame s s.
Proof. repeat split. Qed.

Lemma asr_frame_trans a b c : asr_frame a b -> asr_frame b c -> asr_frame a c.
Proof.
  intros (A1 & A2 & A3 & A4) (B1 & B2 & B3 & B4). repeat split; congruence.
Qed.

Lemma emit_phrase_frame (text : string) : keeps asr_frame (_emit_phrase text).
Proof.
  unfold _emit_phrase.
  keeps_auto asr_frame_refl asr_frame_trans; intros s; repeat split.
Qed.

Lemma on_partial_result_frame (e : asr_env) :
  keeps asr_frame (on_partial_result e).
Proof.
  unfold on_partial_result.
  keeps_auto asr_frame_refl asr_frame_trans;
    try apply emit_phrase_frame; intros s; repeat split.
Qed.

Lemma asr_iteration_frame (e : asr_env) : keeps asr_frame (asr_iteration e).
Proof.
  keeps_auto asr_frame_refl asr_frame_trans;
    try apply emit_phrase_frame; try apply on_partial_result_frame;
    intros s; repeat split.
Qed.

Lemma asr_iteration_returns (e : asr_env) : returns (asr_iteration e).
Proof.
  unfold asr_iteration, audio_get, on_partial_result, _finalize_by_silence,
    _emit_phrase, _reset_partials.
  returns_auto.
Qed.

Lemma asr_loop_returns (envs : list asr_env) : returns (asr_loop envs).
Proof.
  induction envs as [|e rest IH]; cbn [asr_loop]; returns_auto.
  - apply asr_iteration_returns.
  - exact IH.
Qed.

Lemma bind_unit A (c : M unit) (k : M A) (s : Engine) :
  returns c -> (c ;; k) s = k (exec c s).
Proof.
  intros Hc. unfold bind. rewrite (returns_unit s Hc). reflexivity.
Qed.

Lemma asr_loop_cons (e : asr_env) (rest : list asr_env) (s : Engine) :
  asr_loop (e :: rest) s
  = if stop_event s then (Ok tt, s)
    else asr_loop rest (exec (asr_iteration e) s).
Proof.
  cbn [asr_loop]. unfold gets. unfold bind at 1.
  destruct (stop_event s); [reflexivity|].
  apply bind_unit. apply asr_iteration_returns.
Qed.

(** The loop ends with the stop event set, and never touches the
    configuration. *)
Lemma asr_loop_ends (envs : list asr_env) (s : Engine) :
  stop_event (exec (asr_loop envs) s) = true
  /\ cfg (exec (asr_loop envs) s) = cfg s.
Proof.
  revert s. induction envs as [|e rest IH]; intros s.
  - split; reflexivity.
  - unfold exec. rewrite asr_loop_cons.
    destruct (stop_event s) eqn:Hs; [split; [exact Hs | reflexivity]|].
    destruct (IH (exec (asr_iteration e) s)) as [H1 H2].
    split; [exact H1|]. unfold exec in *. rewrite H2.
    apply (asr_iteration_frame e s).
Qed.

Lemma asr_flush_eq (final : option string) (s : Engine) :
  asr_flush final s
  = (Ok tt,
     set_trace
       (trace (finalized (strip (get_or_empty final))
                 (set_trace (trace s ++ [RecFinalResult]) s))
        ++ [UiLog LogAsrStopped])
       (finalized (strip (get_or_empty final))
          (set_trace (trace s ++ [RecFinalResult]) s))).
Proof.
  unfold asr_flush. unfold emit at 1. unfold modify, bind at 1.
  unfold bind at 1. rewrite when_emit_phrase_eq. reflexivity.
Qed.

(** C9: when the stop signal ends the segmentation loop, the worker asks the
    recognizer for its final result exactly once more; when that text is
    non-empty and at least [min_phrase_len] long, it is handed to the
    finalized-phrase callback and put at the end of the phrase queue; then
    the worker logs that it has stopped and returns. *)
Theorem shutdown_flush (envs : list asr_env) (final : option string)
  (s : Engine) :
  outcome (asr_worker envs final) s = Ok tt
  /\ stop_event (loop_ended envs s) = true
  /\ exec (asr_worker envs final) s = exec (asr_flush final) (loop_ended envs s)
  /\ emitted (asr_flush final) (loop_ended envs s)
     = RecFinalResult
       :: (if truthy (strip (get_or_empty final))
              && long_enough s (strip (get_or_empty final))
           then [OnFinal (strip (get_or_empty final))] else [])
       ++ [UiLog LogAsrStopped]
  /\ phrase_q (exec (asr_worker envs final) s)
     = phrase_q (loop_ended envs s)
       ++ (if truthy (strip (get_or_empty final))
              && long_enough s (strip (get_or_empty final))
           then [strip (get_or_empty final)] else []).
Proof.
  assert (Hret : returns (ui_log LogAsrStarted ;; asr_loop envs)).
  { returns_auto. apply asr_loop_returns. }
  assert (Hw : asr_worker envs final s
               = asr_flush final (loop_ended envs s)).
  { unfold asr_worker, loop_ended.
    rewrite bind_unit by apply returns_emit.
    rewrite bind_unit by apply asr_loop_returns.
    unfold exec at 3. rewrite bind_unit by apply returns_emit.
    reflexivity. }
  assert (Hend : stop_event (loop_ended envs s) = true
                 /\ cfg (loop_ended envs s) = cfg s).
  { unfold loop_ended. unfold exec at 1 2.
    rewrite bind_unit by apply returns_emit.
    destruct (asr_loop_ends envs (exec (ui_log LogAsrStarted) s)) as [H1 H2].
    split; [exact H1 | unfold exec at 1 in H2; rewrite H2; reflexivity]. }
  destruct Hend as [Hstop Hcfg].
  assert (Hlong : long_enough (loop_ended envs s) = long_enough s).
  { unfold long_enough. rewrite Hcfg. reflexivity. }
  assert (He : exec (asr_worker envs final) s
               = exec (asr_flush final) (loop_ended envs s))
    by (unfold exec; rewrite Hw; reflexivity).
  split; [unfold outcome; rewrite Hw, asr_flush_eq; reflexivity|].
  split; [exact Hstop|]. split; [exact He|].
  rewrite He. unfold emitted, exec. rewrite asr_flush_eq. cbn [fst snd].
  unfold finalized.
  change (long_enough (set_trace (trace (loop_ended envs s) ++ [RecFinalResult])
                         (loop_ended envs s)))
    with (long_enough (loop_ended envs s)).
  rewrite Hlong.
  destruct (truthy (strip (get_or_empty final))
            && long_enough s (strip (get_or_empty final))); cbn.
  all: split; try (repeat rewrite <- app_assoc; apply skipn_emitted);
    try reflexivity.
  symmetry. apply app_nil_r.
Qed.

(** ** Synthesis and playback: what the per-phrase block touches *)

Lemma extends_weaken (P Q : event -> Prop) s s' :
  (forall ev, P ev -> Q ev) -> extends P s s' -> extends Q s s'.
Proof.
  intros H (l & E & F). exists l. split; [exact E|].
  eapply Forall_impl; [exact H | exact F].
Qed.

Lemma quiet_weaken (P Q : event -> Prop) A (c : M A) :
  (forall ev, P ev -> Q ev) -> keeps (quiet P) c -> keeps (quiet Q) c.
Proof.
  intros H Hc s. destruct (Hc s) as (A1 & A2 & A3 & A4 & A5).
  repeat split; try assumption. eapply extends_weaken; eassumption.
Qed.

Lemma only_emits_keeps_quiet P A (c : M A) :
  keeps (only_emits P) c -> keeps (quiet P) c.
Proof. intros Hc s. apply only_emits_quiet. apply Hc. Qed.

(** Closes the goals left by [keeps_auto] for [only_emits] and [quiet]: a
    field update that is outside the relation, or one emitted event. *)
Ltac trace_update :=
  intros ?s; unfold only_emits, quiet; cbn; repeat split;
  first [ exists []; split; [symmetry; apply app_nil_r | constructor]
        | eexists [_]; split; [reflexivity | repeat constructor] ].

Lemma retry_loop_side (ok : Z -> bool) (text : string) (left : nat) :
  forall n, keeps (only_emits tts_side) (retry_loop ok text n left).
Proof.
  induction left as [|left IH]; intros n; cbn [retry_loop];
    keeps_auto (@only_emits_refl tts_side) (@only_emits_trans tts_side);
    try trace_update.
  apply IH.
Qed.

Lemma phrase_body_side (e : tts_env) (text : string) :
  keeps (only_emits tts_side) (phrase_body e text).
Proof.
  unfold phrase_body, _tts_with_retries.
  keeps_auto (@only_emits_refl tts_side) (@only_emits_trans tts_side);
    try trace_update.
  apply retry_loop_side.
Qed.

Lemma stop_input_quiet (d : device_env) :
  keeps (quiet not_final) (stop_input d).
Proof.
  keeps_auto (@quiet_refl not_final) (@quiet_trans not_final);
    trace_update.
Qed.

Lemma start_input_quiet (d : device_env) :
  keeps (quiet not_final) (start_input d).
Proof.
  keeps_auto (@quiet_refl not_final) (@quiet_trans not_final);
    trace_update.
Qed.

Lemma tts_side_not_final (ev : event) : tts_side ev -> not_final ev.
Proof. destruct ev; cbn; trivial. Qed.

Lemma handle_phrase_quiet (e : tts_env) (text : string) :
  keeps (quiet not_final) (handle_phrase e text).
Proof.
  unfold handle_phrase, resume.
  keeps_auto (@quiet_refl not_final) (@quiet_trans not_final);
    try trace_update.
  apply (@quiet_weaken tts_side not_final); [exact tts_side_not_final|].
  apply only_emits_keeps_quiet. apply phrase_body_side.
Qed.

(** ** The phrase queue holds long phrases only *)

Lemma phrases_long_refl m s : phrases_long m s s.
Proof. intros H. repeat split; [exact H | trivial | apply extends_refl]. Qed.

Lemma phrases_long_trans m a b c :
  phrases_long m a b -> phrases_long m b c -> phrases_long m a c.
Proof.
  intros Hab Hbc Ha. destruct (Hab Ha) as (Hb & Q1 & E1).
  destruct (Hbc Hb) as (Hc & Q2 & E2).
  repeat split; [exact Hc | auto | eapply extends_trans; eassumption].
Qed.

Lemma quiet_phrases_long m s s' : quiet not_final s s' -> phrases_long m s s'.
Proof.
  intros (A1 & A2 & A3 & A4 & A5) H. rewrite A1, A4.
  repeat split; [exact H | trivial |].
  eapply extends_weaken; [|exact A5]. intros [] Hev; cbn in *; trivial.
  contradiction.
Qed.

Lemma emit_phrase_long m (text : string) :
  keeps (phrases_long m) (_emit_phrase text).
Proof.
  intros s Hm. unfold exec. rewrite emit_phrase_eq. cbn [snd].
  destruct (long_enough s text) eqn:Hl; [|apply phrases_long_refl; exact Hm].
  apply long_enough_true in Hl. rewrite Hm in Hl.
  unfold enqueued. cbn. repeat split; [exact Hm | |].
  - intros Hq. apply Forall_app. split; [exact Hq|].
    constructor; [exact Hl | constructor].
  - exists [OnFinal text]. split; [reflexivity|].
    constructor; [exact Hl | constructor].
Qed.

(** A field update that leaves configuration and phrase queue alone, or one
    emitted event that is not a finalized-phrase callback. *)
Ltac long_update :=
  intros ?s; unfold phrases_long; cbn; intros ?Hm;
  split; [assumption | split; [trivial |]];
  first [ exists []; split; [symmetry; apply app_nil_r | constructor]
        | eexists [_]; split; [reflexivity | repeat constructor] ].

Lemma on_partial_result_long m (e : asr_env) :
  keeps (phrases_long m) (on_partial_result e).
Proof.
  unfold on_partial_result.
  keeps_auto (@phrases_long_refl m) (@phrases_long_trans m);
    try apply emit_phrase_long; long_update.
Qed.

Lemma asr_iteration_long m (e : asr_env) :
  keeps (phrases_long m) (asr_iteration e).
Proof.
  keeps_auto (@phrases_long_refl m) (@phrases_long_trans m);
    try apply emit_phrase_long; try apply on_partial_result_long;
    long_update.
Qed.

Lemma asr_flush_long m (final : option string) :
  keeps (phrases_long m) (asr_flush final).
Proof.
  keeps_auto (@phrases_long_refl m) (@phrases_long_trans m);
    try apply emit_phrase_long; long_update.
Qed.

Lemma tts_iteration_eq (e : tts_env) (s : Engine) :
  tts_iteration e s
  = match phrase_q s with
    | t :: rest => on_phrase e t (set_phrase_q rest s)
    | [] => match phrase_arrival e with
            | Some t => on_phrase e t s
            | None => (Ok tt, s)
            end
    end.
Proof.
  unfold tts_iteration, phrase_get, on_phrase. step_monad.
  destruct (phrase_q s) as [|t rest]; cbn; [|reflexivity].
  destruct (phrase_arrival e); reflexivity.
Qed.

Lemma on_phrase_quiet (e : tts_env) (text : string) :
  keeps (quiet not_final) (on_phrase e text).
Proof.
  unfold on_phrase. apply keeps_if.
  - apply handle_phrase_quiet.
  - apply keeps_ret. apply quiet_refl.
Qed.

Lemma tts_iteration_long m (e : tts_env) :
  keeps (phrases_long m) (tts_iteration e).
Proof.
  intros s. unfold exec. rewrite tts_iteration_eq.
  destruct (phrase_q s) as [|t rest] eqn:Hq.
  - destruct (phrase_arrival e) as [t|]; [|apply phrases_long_refl].
    apply quiet_phrases_long. apply (on_phrase_quiet e t s).
  - apply phrases_long_trans with (b := set_phrase_q rest s).
    + intros Hm. cbn. split; [exact Hm | split].
      * rewrite Hq. intros H. inversion H; assumption.
      * exists []. split; [symmetry; apply app_nil_r | constructor].
    + apply quiet_phrases_long. apply (on_phrase_quiet e t).
Qed.

Lemma start_long m (d : device_env) : keeps (phrases_long m) (start d).
Proof.
  intros s. apply quiet_phrases_long. revert s.
  change (keeps (quiet not_final) (start d)). unfold start.
  keeps_auto (@quiet_refl not_final) (@quiet_trans not_final); trace_update.
Qed.

Lemma stop_long m (d : device_env) : keeps (phrases_long m) (stop d).
Proof.
  intros s Hm. unfold exec. rewrite stop_unfold. cbn [snd].
  destruct (stop_input_quiet d (set_stop_event true s))
    as (A1 & _ & _ & _ & A5).
  cbn. rewrite A1. split; [exact Hm | split; [constructor|]].
  eapply extends_weaken; [|exact A5]. intros [] Hev; cbn in *; trivial.
  contradiction.
Qed.

Lemma perform_long m (a : action) : keeps (phrases_long m) (perform a).
Proof.
  destruct a; cbn [perform].
  - apply start_long.
  - apply stop_long.
  - apply asr_iteration_long.
  - apply asr_flush_long.
  - apply tts_iteration_long.
Qed.

Lemma perform_all_long m (acts : list action) (s : Engine) :
  phrases_long m s (perform_all acts s).
Proof.
  revert s. induction acts as [|a rest IH]; intros s; cbn [perform_all].
  - apply phrases_long_refl.
  - eapply phrases_long_trans; [apply (@perform_long m a s) | apply IH].
Qed.

(** C2: a candidate shorter than [min_phrase_len] is dropped by
    [_emit_phrase] before anything happens (no callback, nothing enqueued);
    and along every interleaving of lifecycle calls and worker iterations,
    a phrase queue whose phrases all have at least [min_phrase_len]
    characters keeps that property, and every finalized-phrase callback
    made on the way carries such a phrase. *)
Theorem short_phrases_never_enqueued :
  (forall (text : string) (s : Engine),
     Z.of_nat (String.length text) < min_phrase_len (cfg s) ->
     _emit_phrase text s = (Ok tt, s))
  /\ (forall (acts : list action) (s : Engine),
        Forall (long (min_phrase_len (cfg s))) (phrase_q s) ->
        min_phrase_len (cfg (perform_all acts s)) = min_phrase_len (cfg s)
        /\ Forall (long (min_phrase_len (cfg s)))
                  (phrase_q (perform_all acts s))
        /\ Forall (final_long (min_phrase_len (cfg s)))
                  (skipn (List.length (trace s))
                         (trace (perform_all acts s)))).
Proof.
  split.
  - intros text s H. rewrite emit_phrase_eq.
    apply long_enough_false in H. rewrite H. reflexivity.
  - intros acts s Hq.
    destruct (@perform_all_long (min_phrase_len (cfg s)) acts s eq_refl)
      as (Hm & Hq' & (l & El & Fl)).
    split; [exact Hm | split; [exact (Hq' Hq)|]].
    rewrite El, skipn_emitted. exact Fl.
Qed.

Lemma short_phrases_never_enqueued_witness :
  _emit_phrase "hola" (init 0) = (Ok tt, init 0)
  /\ Forall (long 6)
       (phrase_q (perform_all [DoAsrIteration (final_frame "hola");
                               DoAsrIteration (final_frame "hola mundo")]
                              (init 0))).
Proof.
  split.
  - apply (proj1 short_phrases_never_enqueued "hola" (init 0)). reflexivity.
  - apply (proj2 short_phrases_never_enqueued
             [DoAsrIteration (final_frame "hola");
              DoAsrIteration (final_frame "hola mundo")] (init 0)).
    constructor.
Defined.

(** ** Partial results *)

Lemma on_partial_result_eq (e : asr_env) (s : Engine) :
  truthy (get_or_empty (partial_text e)) = true ->
  on_partial_result e s
  = (Ok tt,
     if surfaces (get_or_empty (partial_text e)) (t_partial e) s
     then shown (get_or_empty (partial_text e)) (t_partial e)
            (heard (t_partial e) (set_trace (trace s ++ [RecPartialResult]) s))
     else heard (t_partial e) (set_trace (trace s ++ [RecPartialResult]) s)).
Proof.
  intros Hp. unfold on_partial_result. step_monad. rewrite Hp. cbn.
  match goal with
  | |- context [surfaces ?p ?n ?x] =>
      change (surfaces p n x) with (surfaces p n s)
  end.
  destruct (surfaces (get_or_empty (partial_text e)) (t_partial e) s);
    reflexivity.
Qed.

Lemma surfaces_iff (p : string) (now : Q) (s : Engine) :
  surfaces p now s = true
  <-> print_partials (cfg s) = true
      /\ p <> _last_partial (seg s)
      /\ (partial_throttle_sec (cfg s) <= now - _last_partial_time (seg s))%Q.
Proof.
  unfold surfaces. rewrite !andb_true_iff, negb_true_iff, Qle_bool_iff.
  rewrite <- not_true_iff_false, String.eqb_eq. tauto.
Qed.

(** C5, as stated, fails on the text comparison: the partial "hola" arrives
    two seconds after "hola" was the last partial surfaced, and it is
    surfaced again, because the reset at the end of the segment cleared the
    remembered partial. *)
Lemma same_partial_surfaced_after_reset :
  last_surfaced (trace after_first_phrase) = Some "hola"
  /\ _last_partial (seg after_first_phrase) = EmptyString
  /\ emitted (asr_iteration (partial_frame "hola" 3)) after_first_phrase
     = [RecAccept []; RecPartialResult; OnPartial "hola"]
  /\ ~ (forall (e : asr_env) (s : Engine) (p : string),
          In (OnPartial p) (emitted (asr_iteration e) s) ->
          last_surfaced (trace s) <> Some p).
Proof.
  repeat split; try reflexivity.
  intros H.
  apply (H (partial_frame "hola" 3) after_first_phrase "hola").
  - cbn. right. right. left. reflexivity.
  - reflexivity.
Qed.

Lemma last_surfaced_app (tr l : list event) :
  last_surfaced (tr ++ l)
  = match last_surfaced l with
    | Some t => Some t
    | None => last_surfaced tr
    end.
Proof.
  induction tr as [|ev tr IH]; cbn.
  - destruct (last_surfaced l); reflexivity.
  - rewrite IH. destruct (last_surfaced l); reflexivity.
Qed.

Lemma not_final_not_partial (ev : event) : not_final ev -> not_partial ev.
Proof. destruct ev; cbn; trivial. Qed.

Lemma last_surfaced_backstage (l : list event) :
  Forall not_partial l -> last_surfaced l = None.
Proof.
  induction 1 as [|ev l Hev _ IH]; cbn; [reflexivity|].
  rewrite IH. destruct ev; cbn in *; try reflexivity; contradiction.
Qed.

Lemma partials_kept_refl s : partials_kept s s.
Proof. repeat split; [trivial | intros _; apply Qle_refl]. Qed.

Lemma partials_kept_trans a b c :
  partials_kept a b -> partials_kept b c -> partials_kept a c.
Proof.
  intros (A1 & A2 & A3) (B1 & B2 & B3). repeat split.
  - congruence.
  - auto.
  - intros H. eapply Qle_trans; [apply A3; exact H|].
    apply B3. rewrite A1. exact H.
Qed.

Lemma extends_memory (P : event -> Prop) (s s' : Engine) :
  (forall ev, P ev -> not_partial ev) ->
  seg s' = seg s -> extends P s s' ->
  segment_memory s -> segment_memory s'.
Proof.
  intros HP Hseg (l & El & Fl) Hm. unfold segment_memory in *.
  rewrite Hseg, El, last_surfaced_app.
  rewrite last_surfaced_backstage; [exact Hm|].
  eapply Forall_impl; [exact HP | exact Fl].
Qed.

Lemma quiet_partials_kept s s' : quiet not_final s s' -> partials_kept s s'.
Proof.
  intros (A1 & A2 & A3 & A4 & A5). repeat split.
  - exact A1.
  - apply (@extends_memory not_final);
      [exact not_final_not_partial | exact A2 | exact A5].
  - intros _. rewrite A2. apply Qle_refl.
Qed.

Lemma emit_phrase_partials (text : string) :
  keeps partials_kept (_emit_phrase text).
Proof.
  intros s. unfold exec. rewrite emit_phrase_eq. cbn [snd].
  destruct (long_enough s text); [|apply partials_kept_refl].
  repeat split.
  - apply (@extends_memory not_partial); [trivial | reflexivity |].
    exists [OnFinal text]. split; [reflexivity | repeat constructor].
  - intros _. apply Qle_refl.
Qed.

(** A reset, a field update outside the segment state, or one emitted event
    that is not a partial-text callback. *)
Ltac partials_update :=
  intros ?s; split; [reflexivity | split];
  [ first
      [ intros _; left; reflexivity
      | apply (@extends_memory not_partial); [trivial | reflexivity |];
        first [ exists []; split; [symmetry; apply app_nil_r | constructor]
              | eexists [_]; split; [reflexivity | repeat constructor] ] ]
  | intros _; apply Qle_refl ].

Lemma finalize_partials (e : asr_env) :
  keeps partials_kept (_finalize_by_silence e).
Proof.
  keeps_auto partials_kept_refl partials_kept_trans;
    try apply emit_phrase_partials; partials_update.
Qed.

Lemma on_partial_result_partials (e : asr_env) :
  keeps partials_kept (on_partial_result e).
Proof.
  destruct (truthy (get_or_empty (partial_text e))) eqn:Hp.
  - intros s. unfold exec. rewrite (on_partial_result_eq e s Hp). cbn [snd].
    destruct (surfaces _ _ s) eqn:Hs.
    + apply surfaces_iff in Hs. destruct Hs as (_ & _ & Hthr).
      repeat split.
      * intros _. right. cbn. rewrite last_surfaced_app. reflexivity.
      * intros H0. cbn. lra.
    + repeat split.
      * intros Hm. unfold segment_memory in *. cbn.
        rewrite last_surfaced_app. exact Hm.
      * intros _. apply Qle_refl.
  - unfold on_partial_result. cbv zeta. rewrite Hp.
    change (keeps partials_kept (emit RecPartialResult ;; _finalize_by_silence e)).
    keeps_auto partials_kept_refl partials_kept_trans;
      try apply emit_phrase_partials; partials_update.
Qed.

Lemma asr_iteration_partials (e : asr_env) :
  keeps partials_kept (asr_iteration e).
Proof.
  keeps_auto partials_kept_refl partials_kept_trans;
    try apply emit_phrase_partials; try apply on_partial_result_partials;
    partials_update.
Qed.

Lemma asr_flush_partials (final : option string) :
  keeps partials_kept (asr_flush final).
Proof.
  keeps_auto partials_kept_refl partials_kept_trans;
    try apply emit_phrase_partials; partials_update.
Qed.

Lemma perform_partials (a : action) : keeps partials_kept (perform a).
Proof.
  destruct a; cbn [perform]; intros s.
  - apply quiet_partials_kept. revert s.
    change (keeps (quiet not_final) (start d)). unfold start.
    keeps_auto (@quiet_refl not_final) (@quiet_trans not_final); trace_update.
  - unfold exec. rewrite stop_unfold. cbn [snd].
    destruct (stop_input_quiet d (set_stop_event true s))
      as (A1 & A2 & _ & _ & A5).
    repeat split.
    + exact A1.
    + intros Hm. unfold segment_memory in *. cbn.
      destruct A5 as (l & El & Fl). rewrite A2, El. cbn.
      rewrite last_surfaced_app, last_surfaced_backstage; [exact Hm|].
      eapply Forall_impl; [exact not_final_not_partial | exact Fl].
    + intros _. cbn. rewrite A2. apply Qle_refl.
  - apply asr_iteration_partials.
  - apply asr_flush_partials.
  - unfold exec. rewrite tts_iteration_eq.
    destruct (phrase_q s) as [|t rest].
    + destruct (phrase_arrival e) as [t|]; [|apply partials_kept_refl].
      apply quiet_partials_kept. apply (on_phrase_quiet e t s).
    + apply partials_kept_trans with (b := set_phrase_q rest s).
      * repeat split; [trivial | intros _; apply Qle_refl].
      * apply quiet_partials_kept. apply (on_phrase_quiet e t).
Qed.

Lemma perform_all_partials (acts : list action) (s : Engine) :
  partials_kept s (perform_all acts s).
Proof.
  revert s. induction acts as [|a rest IH]; intros s; cbn [perform_all].
  - apply partials_kept_refl.
  - eapply partials_kept_trans; [apply (@perform_partials a s) | apply IH].
Qed.

(** C5 (amended): every non-empty partial marks speech and updates
    [_last_activity_time].  It is handed to the partial-text callback exactly
    when [print_partials] is on, its text differs from the remembered partial
    and at least [partial_throttle_sec] has passed since the time of the last
    surfaced partial; it then becomes the remembered partial and its time the
    remembered time.  The remembered partial is the text surfaced last,
    except that every segment reset clears it to the empty text (the
    remembered time survives a reset).  Hence, for a throttle that is not
    negative, once a partial has been surfaced no partial that arrives less
    than [partial_throttle_sec] after it is surfaced, whatever the engine
    did in between. *)
Theorem partial_throttling (e : asr_env) (s : Engine) :
  truthy (get_or_empty (partial_text e)) = true ->
  (_last_activity_time (seg (exec (on_partial_result e) s)) = t_partial e
   /\ _speech_seen_this_segment (seg (exec (on_partial_result e) s)) = true)
  /\ emitted (on_partial_result e) s
     = RecPartialResult
       :: (if surfaces (get_or_empty (partial_text e)) (t_partial e) s
           then [OnPartial (get_or_empty (partial_text e))] else [])
  /\ (surfaces (get_or_empty (partial_text e)) (t_partial e) s = true
      <-> print_partials (cfg s) = true
          /\ get_or_empty (partial_text e) <> _last_partial (seg s)
          /\ (partial_throttle_sec (cfg s)
              <= t_partial e - _last_partial_time (seg s))%Q)
  /\ (surfaces (get_or_empty (partial_text e)) (t_partial e) s = true ->
      _last_partial (seg (exec (on_partial_result e) s))
      = get_or_empty (partial_text e)
      /\ _last_partial_time (seg (exec (on_partial_result e) s)) = t_partial e)
  /\ (forall (now : Q) (s0 : Engine),
        _last_partial (seg (exec (_reset_partials now) s0)) = EmptyString
        /\ _last_partial_time (seg (exec (_reset_partials now) s0))
           = _last_partial_time (seg s0))
  /\ (forall (acts : list action) (t0 : Q),
        segment_memory (perform_all acts (init t0)))
  /\ ((0 <= partial_throttle_sec (cfg s))%Q ->
      surfaces (get_or_empty (partial_text e)) (t_partial e) s = true ->
      forall (acts : list action) (e2 : asr_env),
        truthy (get_or_empty (partial_text e2)) = true ->
        (t_partial e2 - t_partial e < partial_throttle_sec (cfg s))%Q ->
        emitted (on_partial_result e2)
                (perform_all acts (exec (on_partial_result e) s))
        = [RecPartialResult]).
Proof.
  intros Hp.
  assert (Hrun := on_partial_result_eq e s Hp).
  split.
  { split; unfold exec; rewrite Hrun; cbn [snd];
      destruct (surfaces _ _ s); reflexivity. }
  split.
  { unfold emitted, exec. rewrite Hrun. cbn [snd].
    destruct (surfaces _ _ s); cbn;
      try rewrite <- app_assoc; apply skipn_emitted. }
  split; [apply surfaces_iff|].
  split.
  { intros H. unfold exec. rewrite Hrun. cbn [snd]. rewrite H.
    split; reflexivity. }
  split; [intros now s0; split; reflexivity|].
  split.
  { intros acts t0. apply (perform_all_partials acts (init t0)).
    left. reflexivity. }
  intros H0 Hs acts e2 Hp2 Hnear.
  set (s1 := exec (on_partial_result e) s).
    assert (Hs1 : cfg s1 = cfg s /\ _last_partial_time (seg s1) = t_partial e).
    { unfold s1, exec. rewrite Hrun. cbn [snd]. rewrite Hs. split; reflexivity. }
    destruct Hs1 as [Hc1 Ht1].
    destruct (perform_all_partials acts s1) as (Hc2 & _ & Hmono).
    rewrite Hc1 in Hmono. specialize (Hmono H0). rewrite Ht1 in Hmono.
    unfold emitted, exec. rewrite (on_partial_result_eq e2 _ Hp2). cbn [snd].
    assert (Hno : surfaces (get_or_empty (partial_text e2)) (t_partial e2)
                    (perform_all acts s1) = false).
    { apply not_true_is_false. intros Hyes.
      apply surfaces_iff in Hyes. destruct Hyes as (_ & _ & Hthr).
      rewrite Hc2, Hc1 in Hthr. lra. }
    rewrite Hno. cbn. apply skipn_emitted.
Qed.

Lemma partial_throttling_witness :
  emitted (on_partial_result (partial_frame "hola" 1)) (init 0)
  = [RecPartialResult; OnPartial "hola"]
  /\ emitted (on_partial_result (partial_frame "hola m" (12 # 10)))
       (perform_all [DoAsrIteration (partial_frame "hola" (11 # 10))]
          (exec (on_partial_result (partial_frame "hola" 1)) (init 0)))
     = [RecPartialResult].
Proof.
  pose proof (partial_throttling (partial_frame "hola" 1) (init 0) eq_refl)
    as (_ & H2 & _ & _ & _ & _ & H7).
  split; [exact H2|].
  apply (H7 ltac:(discriminate) eq_refl
            [DoAsrIteration (partial_frame "hola" (11 # 10))]
            (partial_frame "hola m" (12 # 10)) eq_refl).
  reflexivity.
Defined.

(** ** Synthesis retries *)

Lemma retry_events_side text b k : forall n, Forall retry_side (retry_events text b n k).
Proof.
  induction k as [|k IH]; intros n; cbn; repeat constructor. apply IH.
Qed.

Lemma retry_events_calls text b k : forall n, synth_calls (retry_events text b n k) = k.
Proof.
  induction k as [|k IH]; intros n; [reflexivity|].
  unfold synth_calls in *. cbn. rewrite IH. reflexivity.
Qed.

Lemma retry_side_counts (l : list event) :
  Forall retry_side l ->
  failure_reports l = 0%nat /\ filter is_playback l = [].
Proof.
  unfold failure_reports.
  induction 1 as [|ev l Hev _ [IH1 IH2]]; [split; reflexivity|].
  destruct ev as [[]| | | | | | | | | | | | | | | | | | |]; cbn in *;
    try contradiction; split; assumption.
Qed.

Lemma sleep_ok (d : Q) (s : Engine) :
  (0 <= d)%Q -> sleep d s = (Ok tt, set_trace (trace s ++ [Sleep d]) s).
Proof.
  intros H. unfold sleep. step_monad. apply Qle_bool_iff in H. rewrite H.
  reflexivity.
Qed.

Lemma backoff_wait (b : Q) (n : Z) : (0 <= b)%Q -> 1 <= n -> (0 <= b * inject_Z n)%Q.
Proof.
  intros Hb Hn. apply Qmult_le_0_compat; [exact Hb|].
  change 0%Q with (inject_Z 0). rewrite <- Zle_Qle. lia.
Qed.

(** All of the [left] attempts from [n] on fail, the waits are legal: the
    loop makes them all and raises. *)
Lemma retry_loop_exhausted (ok : Z -> bool) (text : string) (left : nat) :
  forall (n : Z) (s : Engine),
    (0 <= tts_backoff (cfg s))%Q -> 1 <= n ->
    (forall i, n <= i < n + Z.of_nat left -> ok i = false) ->
    retry_loop ok text n left s
    = (Raise (RuntimeError "TTS agotó reintentos"),
       set_trace (trace s ++ retry_events text (tts_backoff (cfg s)) n left) s).
Proof.
  induction left as [|left IH]; intros n s Hb Hn Hfail.
  - cbn. rewrite app_nil_r. unfold raise. f_equal. symmetry.
    apply engine_eta.
  - cbn [retry_loop retry_events]. unfold emit, ui_log, emit, modify, gets.
    unfold bind at 1. rewrite (Hfail n) by lia.
    unfold bind at 1 2. cbn [cfg set_trace].
    unfold bind at 1. rewrite sleep_ok by (apply backoff_wait; assumption).
    rewrite IH; [| exact Hb | lia | intros i Hi; apply Hfail; lia].
    cbn. repeat rewrite <- app_assoc. reflexivity.
Qed.

(** The first [j] attempts from [n] on fail and the next one succeeds. *)
Lemma retry_loop_succeeds (ok : Z -> bool) (text : string) (j : nat) :
  forall (left : nat) (n : Z) (s : Engine),
    (0 <= tts_backoff (cfg s))%Q -> 1 <= n -> (j < left)%nat ->
    (forall i, n <= i < n + Z.of_nat j -> ok i = false) ->
    ok (n + Z.of_nat j) = true ->
    retry_loop ok text n left s
    = (Ok tt,
       set_trace (trace s ++ retry_events text (tts_backoff (cfg s)) n j
                          ++ [Synth text (n + Z.of_nat j)]) s).
Proof.
  induction j as [|j IH]; intros left n s Hb Hn Hlt Hfail Hok;
    (destruct left as [|left]; [lia|]).
  - cbn [retry_loop retry_events]. unfold emit, modify.
    unfold bind at 1. rewrite Z.add_0_r in Hok. rewrite Hok.
    rewrite Z.add_0_r. reflexivity.
  - cbn [retry_loop retry_events]. unfold emit, ui_log, emit, modify, gets.
    unfold bind at 1. rewrite (Hfail n) by lia.
    unfold bind at 1 2. cbn [cfg set_trace].
    unfold bind at 1. rewrite sleep_ok by (apply backoff_wait; assumption).
    rewrite (IH left); [| exact Hb | lia | lia
                        | intros i Hi; apply Hfail; lia
                        | rewrite <- Hok; f_equal; lia].
    cbn. repeat rewrite <- app_assoc. cbn.
    replace (n + 1 + Z.of_nat j) with (n + Z.pos (Pos.of_succ_nat j)) by lia.
    reflexivity.
Qed.

(** Whatever the synthesizer and the configuration: the loop only makes
    retry events, calls the synthesizer at most [left] times, and raises
    when every attempt fails. *)
Lemma retry_loop_bounded (ok : Z -> bool) (text : string) (left : nat) :
  forall (n : Z) (s : Engine),
  exists r l,
    retry_loop ok text n left s = (r, set_trace (trace s ++ l) s)
    /\ Forall retry_side l
    /\ (synth_calls l <= left)%nat
    /\ ((forall i, n <= i < n + Z.of_nat left -> ok i = false) ->
        exists ex, r = Raise ex).
Proof.
  induction left as [|left IH]; intros n s.
  - exists (Raise (RuntimeError "TTS agotó reintentos")), [].
    split; [cbn; rewrite app_nil_r; unfold raise; f_equal; symmetry;
            apply engine_eta|].
    repeat split; [constructor | apply Nat.le_refl | eauto].
  - cbn [retry_loop]. unfold emit, ui_log, emit, modify, gets.
    unfold bind at 1. destruct (ok n) eqn:Hok.
    + exists (Ok tt), [Synth text n]. repeat split.
      * repeat constructor.
      * unfold synth_calls. cbn. lia.
      * intros Hfail. rewrite Hfail in Hok by lia. discriminate.
    + unfold bind at 1 2. cbn [cfg set_trace]. unfold bind at 1.
      unfold sleep, emit, modify. unfold bind at 1.
      destruct (Qle_bool 0 (tts_backoff (cfg s) * inject_Z n)).
      * unfold ret. cbv beta iota.
        match goal with
        | |- context [retry_loop ok text (n + 1) left ?s1] =>
            destruct (IH (n + 1) s1) as (r & l & El & Fl & Cl & Rl)
        end.
        exists r, ([Synth text n; UiLog (LogRetry n SynthError);
                    Sleep (tts_backoff (cfg s) * inject_Z n)] ++ l).
        rewrite El. cbn. repeat rewrite <- app_assoc.
        repeat split.
        -- repeat constructor. exact Fl.
        -- unfold synth_calls in *. cbn. lia.
        -- intros Hfail. apply Rl. intros i Hi. apply Hfail. lia.
      * exists (Raise ValueError),
          [Synth text n; UiLog (LogRetry n SynthError);
           Sleep (tts_backoff (cfg s) * inject_Z n)].
        unfold raise. cbn. repeat rewrite <- app_assoc. repeat split.
        -- repeat constructor.
        -- unfold synth_calls. cbn. lia.
        -- eauto.
Qed.

Lemma phrase_body_returns (e : tts_env) (text : string) :
  returns (phrase_body e text).
Proof. unfold phrase_body. returns_auto. Qed.

Lemma stop_input_returns (d : device_env) : returns (stop_input d).
Proof. intros s. exists tt. apply stop_input_total. Qed.

Lemma resume_returns (e : tts_env) : returns (resume e).
Proof. unfold resume. returns_auto. Qed.

Lemma handle_phrase_returns (e : tts_env) (text : string) :
  returns (handle_phrase e text).
Proof.
  unfold handle_phrase. returns_auto.
  - apply stop_input_returns.
  - apply phrase_body_returns.
  - apply resume_returns.
Qed.

Lemma tts_iteration_returns (e : tts_env) : returns (tts_iteration e).
Proof.
  unfold tts_iteration, phrase_get. returns_auto; apply handle_phrase_returns.
Qed.

Lemma tts_loop_cons (e : tts_env) (rest : list tts_env) (s : Engine) :
  tts_loop (e :: rest) s
  = if stop_event s then (Ok tt, s)
    else tts_loop rest (exec (tts_iteration e) s).
Proof.
  cbn [tts_loop]. unfold gets. unfold bind at 1.
  destruct (stop_event s); [reflexivity|].
  apply bind_unit. apply tts_iteration_returns.
Qed.

(** With FFmpeg present, a phrase whose synthesis raises is dropped: the
    block logs the error once and does nothing else. *)
Lemma phrase_body_synthesis_raises (e : tts_env) (text : string) (s : Engine)
  (ex : exn) (l : list event) :
  ffmpeg_available (cfg s) = true ->
  _tts_with_retries (synth_ok e) text s = (Raise ex, set_trace (trace s ++ l) s) ->
  phrase_body e text s
  = (Ok tt, set_trace (trace s ++ l ++ [UiLog (LogTtsError ex)]) s).
Proof.
  intros Hff Hsyn. unfold phrase_body, try_except.
  unfold gets at 1. unfold bind at 1. rewrite Hff. cbn [negb].
  unfold bind at 1. rewrite Hsyn. unfold ui_log, emit, modify. cbn.
  rewrite <- app_assoc. reflexivity.
Qed.

Lemma tts_with_retries_eq (ok : Z -> bool) (text : string) (s : Engine) :
  _tts_with_retries ok text s
  = retry_loop ok text 1 (Z.to_nat (tts_max_retries (cfg s))) s.
Proof. reflexivity. Qed.

Lemma emitted_of_run A (c : M A) (s : Engine) (r : res A) (l : list event) :
  c s = (r, set_trace (trace s ++ l) s) -> emitted c s = l.
Proof.
  intros H. apply emitted_spec. unfold exec. rewrite H. reflexivity.
Qed.

(** C3: synthesis is attempted at most [tts_max_retries] times.  When the
    attempts before the k-th fail and the k-th succeeds (k within the
    limit), exactly k calls are made, each failed attempt n being logged and
    followed by a wait of [tts_backoff * n].  When all attempts fail, each is
    followed by its wait and the loop raises; the per-phrase block then
    drops the phrase (nothing is decoded, exported or played) and logs the
    failure exactly once.  The loop body never raises, so the worker goes on
    to the next iteration.  (The waits need a [tts_backoff] that is not
    negative: [time.sleep] refuses a negative duration.) *)
Theorem retry_policy (e : tts_env) (text : string) (s : Engine) :
  (synth_calls (emitted (_tts_with_retries (synth_ok e) text) s)
   <= Z.to_nat (tts_max_retries (cfg s)))%nat
  /\ (forall k : Z,
        (0 <= tts_backoff (cfg s))%Q ->
        1 <= k <= tts_max_retries (cfg s) ->
        (forall n, 1 <= n < k -> synth_ok e n = false) ->
        synth_ok e k = true ->
        outcome (_tts_with_retries (synth_ok e) text) s = Ok tt
        /\ emitted (_tts_with_retries (synth_ok e) text) s
           = retry_events text (tts_backoff (cfg s)) 1 (Z.to_nat (k - 1))
             ++ [Synth text k]
        /\ synth_calls (emitted (_tts_with_retries (synth_ok e) text) s)
           = Z.to_nat k)
  /\ ((0 <= tts_backoff (cfg s))%Q ->
      (forall n, 1 <= n <= tts_max_retries (cfg s) -> synth_ok e n = false) ->
      outcome (_tts_with_retries (synth_ok e) text) s
      = Raise (RuntimeError "TTS agotó reintentos")
      /\ emitted (_tts_with_retries (synth_ok e) text) s
         = retry_events text (tts_backoff (cfg s)) 1
             (Z.to_nat (tts_max_retries (cfg s))))
  /\ (ffmpeg_available (cfg s) = true ->
      (forall n, 1 <= n <= tts_max_retries (cfg s) -> synth_ok e n = false) ->
      outcome (phrase_body e text) s = Ok tt
      /\ failure_reports (emitted (phrase_body e text) s) = 1%nat
      /\ filter is_playback (emitted (phrase_body e text) s) = [])
  /\ outcome (tts_iteration e) s = Ok tt
  /\ (forall rest : list tts_env,
        stop_event s = false ->
        tts_loop (e :: rest) s = tts_loop rest (exec (tts_iteration e) s)).
Proof.
  split.
  { destruct (retry_loop_bounded (synth_ok e) text
                (Z.to_nat (tts_max_retries (cfg s))) 1 s)
      as (r & l & El & _ & Cl & _).
    rewrite (@emitted_of_run _ _ s r l); [exact Cl|].
    rewrite tts_with_retries_eq. exact El. }
  split.
  { intros k Hb Hk Hfail Hok.
    assert (Hrun : _tts_with_retries (synth_ok e) text s
                   = (Ok tt,
                      set_trace
                        (trace s
                         ++ retry_events text (tts_backoff (cfg s)) 1
                              (Z.to_nat (k - 1))
                         ++ [Synth text k]) s)).
    { rewrite tts_with_retries_eq.
      rewrite (@retry_loop_succeeds (synth_ok e) text (Z.to_nat (k - 1)));
        try lia; try assumption.
      - replace (1 + Z.of_nat (Z.to_nat (k - 1))) with k by lia. reflexivity.
      - intros i Hi. apply Hfail. lia.
      - replace (1 + Z.of_nat (Z.to_nat (k - 1))) with k by lia. exact Hok. }
    split; [unfold outcome; rewrite Hrun; reflexivity|].
    rewrite (emitted_of_run _ _ Hrun). split; [reflexivity|].
    unfold synth_calls. rewrite filter_app, length_app.
    fold (synth_calls (retry_events text (tts_backoff (cfg s)) 1
                         (Z.to_nat (k - 1)))).
    rewrite retry_events_calls. cbn. lia. }
  split.
  { intros Hb Hfail.
    assert (Hrun : _tts_with_retries (synth_ok e) text s
                   = (Raise (RuntimeError "TTS agotó reintentos"),
                      set_trace
                        (trace s
                         ++ retry_events text (tts_backoff (cfg s)) 1
                              (Z.to_nat (tts_max_retries (cfg s)))) s)).
    { rewrite tts_with_retries_eq.
      apply retry_loop_exhausted;
        [exact Hb | lia | intros i Hi; apply Hfail; lia]. }
    split; [unfold outcome; rewrite Hrun; reflexivity|].
    rewrite (emitted_of_run _ _ Hrun). reflexivity. }
  split.
  { intros Hff Hfail.
    destruct (retry_loop_bounded (synth_ok e) text
                (Z.to_nat (tts_max_retries (cfg s))) 1 s)
      as (r & l & El & Fl & _ & Rl).
    destruct Rl as [ex ->]; [intros i Hi; apply Hfail; lia|].
    rewrite <- tts_with_retries_eq in El.
    assert (Hrun := @phrase_body_synthesis_raises e text s ex l Hff El).
    split; [unfold outcome; rewrite Hrun; reflexivity|].
    rewrite (emitted_of_run _ _ Hrun).
    destruct (retry_side_counts Fl) as [F1 F2].
    unfold failure_reports in *. rewrite !filter_app, length_app, F1, F2.
    split; reflexivity. }
  split.
  { destruct (tts_iteration_returns e s) as [[] H]. exact H. }
  intros rest Hs. rewrite tts_loop_cons, Hs. reflexivity.
Qed.

Lemma retry_policy_witness :
  (emitted (_tts_with_retries (synth_ok second_try) "hola mundo") (init 0)
   = [Synth "hola mundo" 1; UiLog (LogRetry 1 SynthError); Sleep (1 * 1);
      Synth "hola mundo" 2]
   /\ synth_calls
        (emitted (_tts_with_retries (synth_ok second_try) "hola mundo")
                 (init 0))
      = 2%nat)
  /\ (emitted (_tts_with_retries (synth_ok never_answers) "hola mundo")
              (init 0)
      = [Synth "hola mundo" 1; UiLog (LogRetry 1 SynthError); Sleep (1 * 1);
         Synth "hola mundo" 2; UiLog (LogRetry 2 SynthError); Sleep (1 * 2);
         Synth "hola mundo" 3; UiLog (LogRetry 3 SynthError); Sleep (1 * 3)]
      /\ failure_reports (emitted (phrase_body never_answers "hola mundo")
                                  (init 0)) = 1%nat).
Proof.
  assert (H : forall n, 1 <= n < 2 -> synth_ok second_try n = false).
  { intros n Hn. assert (n = 1) as -> by lia. reflexivity. }
  destruct (proj1 (proj2 (retry_policy second_try "hola mundo" (init 0)))
              2 ltac:(discriminate) ltac:(cbn; lia) H eq_refl)
    as (_ & H2 & H3).
  split; [split; [exact H2 | exact H3]|].
  destruct (retry_policy never_answers "hola mundo" (init 0))
    as (_ & _ & H4 & H5 & _).
  split.
  - exact (proj2 (H4 ltac:(discriminate) (fun _ _ => eq_refl))).
  - exact (proj1 (proj2 (H5 eq_refl (fun _ _ => eq_refl)))).
Defined.

(** ** Ducking: capture is resumed when the per-phrase block is left *)

Lemma stop_input_no_open (d : device_env) (s : Engine) :
  ~ In OpenInput (stop_input_events d s).
Proof.
  unfold stop_input_events. destruct (stream_in s); [|intros []].
  destruct (stop_ok d); cbn; intuition discriminate.
Qed.

Lemma tts_side_no_open (l : list event) :
  Forall tts_side l -> ~ In OpenInput l.
Proof.
  intros F H. rewrite Forall_forall in F. exact (F _ H).
Qed.

Lemma handle_phrase_eq (e : tts_env) (text : string) (s : Engine) :
  ducking (cfg s) = true ->
  handle_phrase e text s = resume e (at_finally e text s).
Proof.
  intros Hd. unfold handle_phrase, at_finally.
  unfold gets at 1. unfold bind at 1. rewrite Hd. cbn [when].
  rewrite bind_unit by apply stop_input_returns.
  unfold try_finally.
  rewrite (returns_unit (exec (stop_input (dev e)) s)
             (@phrase_body_returns e text)).
  rewrite (returns_unit _ (@resume_returns e)). reflexivity.
Qed.

Lemma at_finally_state (e : tts_env) (text : string) (s : Engine) :
  cfg (at_finally e text s) = cfg s
  /\ stop_event (at_finally e text s) = stop_event s
  /\ stream_in (at_finally e text s) = None
  /\ exists l, trace (at_finally e text s)
               = trace s ++ stop_input_events (dev e) s ++ l
               /\ Forall tts_side l.
Proof.
  unfold at_finally.
  destruct (stop_input_total (dev e) s) as (_ & Hst & Hc & _ & _ & _ & Hev).
  destruct (phrase_body_side e text (exec (stop_input (dev e)) s))
    as (B1 & _ & _ & _ & B5 & B6 & _ & (l & El & Fl)).
  repeat split; try congruence.
  exists l. split; [|exact Fl].
  rewrite El, stop_input_trace. symmetry. apply app_assoc.
Qed.

(** The [finally] clause on an engine whose capture is suspended. *)
Lemma resume_stopping (e : tts_env) (s : Engine) :
  stop_event s || stop_raised e = true ->
  resume e s = (Ok tt, set_stop_event true s).
Proof.
  intros H. unfold resume. step_monad.
  destruct (stop_raised e); cbn.
  - rewrite andb_false_r. reflexivity.
  - rewrite orb_false_r in H. rewrite H, andb_false_r. cbn.
    rewrite <- H. unfold set_stop_event. rewrite engine_eta. reflexivity.
Qed.

Lemma resume_running (e : tts_env) (s : Engine) :
  ducking (cfg s) = true ->
  stop_event s || stop_raised e = false ->
  resume e s
  = try_except (start_input (dev e))
               (fun ex => ui_log (LogResumeFailed ex)) s.
Proof.
  intros Hd H. apply orb_false_elim in H. destruct H as [Hs Hr].
  unfold resume. rewrite Hr. cbn [when].
  unfold ret at 1. unfold bind at 1. unfold gets. unfold bind at 1 2.
  rewrite Hd, Hs. reflexivity.
Qed.

Lemma existsb_last (id : nat) (l : list nat) :
  existsb (Nat.eqb id) (l ++ [id]) = true.
Proof.
  rewrite existsb_app. cbn. rewrite Nat.eqb_refl, orb_true_r. reflexivity.
Qed.

(** The resume attempt: [start_input] is called; capture runs again when the
    device opens and starts the stream, and the failure is logged when it
    does not. *)
Lemma try_resume_spec (d : device_env) (s : Engine) :
  outcome (try_resume d) s = Ok tt
  /\ stop_event (exec (try_resume d) s) = stop_event s
  /\ (exists l, trace (exec (try_resume d) s) = trace s ++ OpenInput :: l
                /\ (open_ok d && start_ok d = false ->
                    In (UiLog (LogResumeFailed DeviceError)) l))
  /\ (open_ok d = true -> start_ok d = true ->
      capture_active (exec (try_resume d) s) = true).
Proof.
  unfold try_resume, start_input, stream_open, stream_start, capture_active.
  step_monad. cbn.
  destruct (open_ok d); cbn; [destruct (start_ok d); cbn|].
  - repeat split.
    + eexists. split; [repeat rewrite <- app_assoc; reflexivity|].
      intros H; discriminate H.
    + intros _ _. apply existsb_last.
  - repeat split.
    + eexists. split; [repeat rewrite <- app_assoc; reflexivity|].
      intros _. cbn. right. left. reflexivity.
    + intros _ H; discriminate H.
  - repeat split.
    + eexists. split; [repeat rewrite <- app_assoc; reflexivity|].
      intros _. cbn. left. reflexivity.
    + intros H; discriminate H.
Qed.

(** C1: with ducking enabled, the per-phrase block never raises, and the
    [finally] clause runs on the state the [try] block leaves, whatever
    happened in it (FFmpeg missing, synthesis succeeded or exhausted its
    retries, decoding, export or playback raised); capture is suspended
    throughout the block.  If the stop event is set when the clause reads
    it, capture is not resumed: [start_input] is not called and the engine
    is left without a stream.  Otherwise [start_input] is called: capture is
    active again once the device opens and starts the stream, and a failure
    of the device is logged. *)
Theorem capture_resumed_on_every_path (e : tts_env) (text : string)
  (s : Engine) :
  ducking (cfg s) = true ->
  outcome (handle_phrase e text) s = Ok tt
  /\ exec (handle_phrase e text) s = exec (resume e) (at_finally e text s)
  /\ stream_in (at_finally e text s) = None
  /\ (stop_event s || stop_raised e = true ->
      stop_event (exec (handle_phrase e text) s) = true
      /\ stream_in (exec (handle_phrase e text) s) = None
      /\ capture_active (exec (handle_phrase e text) s) = false
      /\ ~ In OpenInput (emitted (handle_phrase e text) s))
  /\ (stop_event s || stop_raised e = false ->
      stop_event (exec (handle_phrase e text) s) = false
      /\ In OpenInput (emitted (handle_phrase e text) s)
      /\ (open_ok (dev e) = true -> start_ok (dev e) = true ->
          capture_active (exec (handle_phrase e text) s) = true)
      /\ (open_ok (dev e) && start_ok (dev e) = false ->
          In (UiLog (LogResumeFailed DeviceError))
             (emitted (handle_phrase e text) s))).
Proof.
  intros Hd.
  destruct (at_finally_state e text s) as (Hc & Hs & Hst & (l & El & Fl)).
  assert (He : exec (handle_phrase e text) s
               = exec (resume e) (at_finally e text s))
    by (unfold exec at 1 2; rewrite (handle_phrase_eq e text s Hd);
        reflexivity).
  split.
  { destruct (handle_phrase_returns e text s) as [[] H]. exact H. }
  split; [exact He|]. split; [exact Hst|]. split.
  - intros Hstop.
    assert (Hx : exec (resume e) (at_finally e text s)
                 = set_stop_event true (at_finally e text s)).
    { unfold exec at 1. rewrite resume_stopping; [reflexivity|].
      rewrite Hs. exact Hstop. }
    unfold emitted. rewrite He, Hx.
    cbn [set_stop_event stop_event stream_in trace].
    split; [reflexivity|]. split; [exact Hst|]. split.
    + unfold capture_active. cbn. rewrite Hst. reflexivity.
    + rewrite El, skipn_emitted. intros H. apply in_app_or in H.
      destruct H as [H | H];
        [exact (stop_input_no_open _ _ H) | exact (tts_side_no_open Fl H)].
  - intros Hrun.
    assert (Hx : exec (resume e) (at_finally e text s)
                 = exec (try_resume (dev e)) (at_finally e text s)).
    { unfold exec at 1. rewrite resume_running; [reflexivity | |].
      - rewrite Hc. exact Hd.
      - rewrite Hs. exact Hrun. }
    destruct (try_resume_spec (dev e) (at_finally e text s))
      as (_ & H1 & (l' & El' & Hlog) & Hact).
    unfold emitted. rewrite He, Hx.
    apply orb_false_elim in Hrun.
    split; [rewrite H1, Hs; apply Hrun|].
    rewrite El', El. repeat rewrite <- app_assoc. rewrite skipn_emitted.
    split; [apply in_or_app; right; apply in_or_app; right; left; reflexivity|].
    split; [exact Hact|].
    intros Hfail. apply in_or_app. right. apply in_or_app. right. right.
    exact (Hlog Hfail).
Qed.

Lemma capture_resumed_on_every_path_witness :
  (capture_active (exec (handle_phrase playback_fails "hola mundo")
                        started_engine) = true
   /\ In OpenInput (emitted (handle_phrase playback_fails "hola mundo")
                            started_engine))
  /\ (stream_in (exec (handle_phrase stopped_meanwhile "hola mundo")
                      started_engine) = None
      /\ ~ In OpenInput (emitted (handle_phrase stopped_meanwhile "hola mundo")
                                 started_engine)).
Proof.
  destruct (capture_resumed_on_every_path playback_fails "hola mundo"
              started_engine eq_refl) as (_ & _ & _ & _ & H).
  destruct (H eq_refl) as (_ & H1 & H2 & _).
  split; [split; [exact (H2 eq_refl eq_refl) | exact H1]|].
  destruct (capture_resumed_on_every_path stopped_meanwhile "hola mundo"
              started_engine eq_refl) as (_ & _ & _ & H' & _).
  destruct (H' eq_refl) as (_ & H3 & _ & H4).
  split; [exact H3 | exact H4].
Defined.

(** ** Scenarios *)

Example strip_example : strip "  hola mundo  " = "hola mundo".
Proof. reflexivity. Qed.

(** The recognizer declares "hello world" final: one phrase reaches the
    synthesis loop, one synthesis call is made, and capture is suspended and
    resumed around the playback. *)
Example hello_world_run :
  emitted_by [DoAsrIteration (final_frame "hello world");
              DoTtsIteration all_fine] started_engine
  = [RecAccept []; RecResult; OnFinal "hello world";
     StreamStop 0; StreamClose 0; UiLog LogCaptureStopped;
     OnStatus StMicStopped;
     Synth "hello world" 1; Decode; ExportWav;
     OnStatus StPlaying; Play; SdStop; OnStatus StReady; RemoveMp3;
     OpenInput; StreamStart 1; OnStatus StRecording; UiLog LogCaptureStarted].
Proof. reflexivity. Qed.

(** Speech at time 1, then a poll at time 2 that finds no frame: with
    [silence_finalize_sec = 0.8] the silence path emits the phrase although
    the recognizer never declared a final result. *)
Example silence_run :
  emitted_by [DoAsrIteration (partial_frame "hola mundo" 1);
              DoAsrIteration (silent_poll "hola mundo")] started_engine
  = [RecAccept []; RecPartialResult; OnPartial "hola mundo";
     RecFinalResult; OnFinal "hola mundo"].
Proof. reflexivity. Qed.

(** [stop] arrives while a phrase is played: the playback completes, capture
    is not resumed, and both queues are empty after [stop]. *)
Example stop_during_playback :
  emitted_by [DoAsrIteration (final_frame "hello world");
              DoTtsIteration stopped_meanwhile;
              DoStop device_fine] started_engine
  = [RecAccept []; RecResult; OnFinal "hello world";
     StreamStop 0; StreamClose 0; UiLog LogCaptureStopped;
     OnStatus StMicStopped;
     Synth "hello world" 1; Decode; ExportWav;
     OnStatus StPlaying; Play; SdStop; OnStatus StReady; RemoveMp3]
  /\ stream_in (perform_all [DoAsrIteration (final_frame "hello world");
                             DoTtsIteration stopped_meanwhile;
                             DoStop device_fine] started_engine) = None
  /\ phrase_q (perform_all [DoAsrIteration (final_frame "hello world");
                            DoTtsIteration stopped_meanwhile;
                            DoStop device_fine] started_engine) = [].
Proof. repeat split. Qed.

(** The shutdown flush of the segmentation worker runs after [stop] has
    drained the queues: its phrase stays in the phrase queue. *)
Example flush_after_stop :
  phrase_q (perform_all [DoStop device_fine; DoAsrFlush (Some "hola mundo")]
                        started_engine) = ["hola mundo"].
Proof. reflexivity. Qed.

(** * Further properties *)

(** ** Samples for the recognizer *)

Ltac split_Qle_bool :=
  cbv zeta;
  repeat match goal with
  | |- context [Qle_bool ?a ?b] =>
      lazymatch a with
      | context [Qle_bool _ _] => fail
      | _ => idtac
      end;
      let E := fresh "E" in
      destruct (Qle_bool a b) eqn:E;
      [ apply Qle_bool_iff in E
      | apply not_true_iff_false in E; rewrite Qle_bool_iff in E;
        apply Qnot_le_lt in E ]
  end.

Lemma clip_bounds (lo hi x : Q) :
  (lo <= hi)%Q -> (lo <= clip lo hi x <= hi)%Q.
Proof. intros H. unfold clip. split_Qle_bool; lra. Qed.

Lemma clip_mono (lo hi a b : Q) :
  (a <= b)%Q -> (clip lo hi a <= clip lo hi b)%Q.
Proof. intros H. unfold clip. split_Qle_bool; lra. Qed.

Lemma Qnum_sign (q : Q) : 0 <= Qnum q <-> (0 <= q)%Q.
Proof. unfold Qle. cbn. lia. Qed.

Lemma Qtrunc_spec (q : Q) :
  Qtrunc q = if 0 <=? Qnum q then Qfloor q else Qceiling q.
Proof.
  destruct q as [n d]. unfold Qtrunc, Qceiling, Qfloor. cbn.
  destruct (0 <=? n) eqn:E.
  - apply Z.leb_le in E. apply Z.quot_div_nonneg; lia.
  - apply Z.leb_gt in E.
    replace n with (- (- n)) at 1 by lia.
    rewrite Z.quot_opp_l by lia. rewrite Z.quot_div_nonneg by lia.
    reflexivity.
Qed.

Lemma Qtrunc_mono (a b : Q) : (a <= b)%Q -> Qtrunc a <= Qtrunc b.
Proof.
  intros H. rewrite !Qtrunc_spec.
  destruct (0 <=? Qnum a) eqn:Ea; destruct (0 <=? Qnum b) eqn:Eb.
  - apply Qfloor_resp_le. exact H.
  - apply Z.leb_le in Ea. apply Z.leb_gt in Eb.
    apply Qnum_sign in Ea.
    assert (Hb : (0 <= b)%Q) by lra. apply Qnum_sign in Hb. lia.
  - apply Z.leb_gt in Ea. apply Z.leb_le in Eb. apply Qnum_sign in Eb.
    assert (Ha : (a <= 0)%Q).
    { unfold Qle. cbn. lia. }
    apply Z.le_trans with 0.
    + rewrite <- (Qceiling_Z 0). apply Qceiling_resp_le. exact Ha.
    + rewrite <- (Qfloor_Z 0). apply Qfloor_resp_le. exact Eb.
  - apply Qceiling_resp_le. exact H.
Qed.

Lemma Qtrunc_Z (k : Z) : Qtrunc (inject_Z k) = k.
Proof. unfold Qtrunc. cbn. apply Z.quot_1_r. Qed.

Lemma Qtrunc_eq (a b : Q) : (a == b)%Q -> Qtrunc a = Qtrunc b.
Proof.
  intros H. apply Z.le_antisymm; apply Qtrunc_mono; rewrite H; apply Qle_refl.
Qed.

Lemma wrap16_small (z : Z) : -32768 <= z < 32768 -> wrap16 z = z.
Proof. intros H. unfold wrap16. rewrite Z.mod_small by lia. lia. Qed.

Lemma wrap16_range (z : Z) : -32768 <= wrap16 z < 32768.
Proof.
  unfold wrap16. pose proof (Z.mod_pos_bound (z + 32768) 65536). lia.
Qed.

(** The scaled sample before the cast to int16 is within the type. *)
Lemma scaled_bounds (round32 : Q -> Q) (x : Q) :
  rounds round32 ->
  -32767 <= Qtrunc (round32 (clip (-1) 1 x * 32767)%Q) <= 32767.
Proof.
  intros [Hmono Hexact].
  assert (Hc := @clip_bounds (-1) 1 x ltac:(lra)).
  split.
  - rewrite <- (Qtrunc_Z (-32767)).
    rewrite <- (Qtrunc_eq (Hexact (-32767) ltac:(lia))).
    apply Qtrunc_mono, Hmono. unfold inject_Z. lra.
  - rewrite <- (Qtrunc_Z 32767) at 2.
    rewrite <- (Qtrunc_eq (Hexact 32767 ltac:(lia))).
    apply Qtrunc_mono, Hmono. unfold inject_Z. lra.
Qed.

Lemma to_int16_scaled (round32 : Q -> Q) (x : Q) :
  rounds round32 ->
  to_int16 round32 x = Qtrunc (round32 (clip (-1) 1 x * 32767)%Q).
Proof.
  intros H. unfold to_int16. apply wrap16_small.
  pose proof (scaled_bounds x H). lia.
Qed.

Lemma to_int16_mono (round32 : Q -> Q) (a b : Q) :
  rounds round32 -> (a <= b)%Q -> to_int16 round32 a <= to_int16 round32 b.
Proof.
  intros H Hab. rewrite !to_int16_scaled by exact H.
  apply Qtrunc_mono. apply H.
  assert (Hc := clip_mono (-1) 1 Hab). lra.
Qed.

Lemma to_int16_at (round32 : Q -> Q) (k : Z) :
  rounds round32 -> -1 <= k <= 1 ->
  to_int16 round32 (inject_Z k) = 32767 * k.
Proof.
  intros H Hk. rewrite to_int16_scaled by exact H.
  rewrite <- (Qtrunc_Z (32767 * k)).
  assert (E : (clip (-1) 1 (inject_Z k) * 32767 == inject_Z (32767 * k))%Q).
  { assert (k = -1 \/ k = 0 \/ k = 1) as [-> | [-> | ->]] by lia;
      reflexivity. }
  apply Qtrunc_eq.
  assert (Hr : forall a b, (a == b)%Q -> (round32 a == round32 b)%Q).
  { intros a b Hab. apply Qle_antisym; apply H; rewrite Hab; apply Qle_refl. }
  rewrite (Hr _ _ E). apply H. lia.
Qed.



Lemma rounds_exact : rounds (fun q => q).
Proof. split; [intros a b H; exact H | intros k _; reflexivity]. Qed.


Lemma int16_bytes_decode (z : Z) :
  -32768 <= z < 32768 ->
  forall rest, decode_int16 (int16_bytes z ++ rest) = z :: decode_int16 rest.
Proof.
  intros H.
  assert (E : int16_of_bytes (z mod 256) ((z / 256) mod 256) = z).
  { unfold int16_of_bytes, wrap16.
    replace (z mod 256 + 256 * ((z / 256) mod 256)) with (z mod 65536).
    - rewrite Z.add_mod_idemp_l by lia. 
      replace ((z + 32768) mod 65536) with (z + 32768)
        by (symmetry; apply Z.mod_small; lia).
      lia.
    - change 65536 with (256 * 256). rewrite Z.rem_mul_r by lia. lia. }
  intros rest. cbn. rewrite E. reflexivity.
Qed.

(** X2: the bytes are the samples: read back as little-endian int16, the
    output of [normalizar_float32_a_int16] gives one int16 per input sample,
    in order, with the value of the conversion. *)
Theorem normalizar_bytes_roundtrip (round32 : Q -> Q) (x : frame) :
  decode_int16 (normalizar_float32_a_int16 round32 x)
  = map (to_int16 round32) x.
Proof.
  unfold normalizar_float32_a_int16.
  induction x as [|v x IH]; [reflexivity|].
  cbn [flat_map map].
  rewrite (@int16_bytes_decode (to_int16 round32 v) (wrap16_range _)).
  rewrite IH. reflexivity.
Qed.

(** X3: the conversion saturates and keeps the order: a sample of 1.0 or
    more gives 32767, a sample of -1.0 or less gives -32767, silence gives
    0, and a larger sample never gives a smaller integer. *)
Theorem normalizar_saturates (round32 : Q -> Q) (a b : Q) :
  rounds round32 ->
  ((1 <= a)%Q -> to_int16 round32 a = 32767)
  /\ ((a <= -1)%Q -> to_int16 round32 a = -32767)
  /\ to_int16 round32 0 = 0
  /\ ((a <= b)%Q -> to_int16 round32 a <= to_int16 round32 b).
Proof.
  intros H.
  assert (Hhi := @to_int16_at round32 1 H ltac:(lia)).
  assert (Hlo := @to_int16_at round32 (-1) H ltac:(lia)).
  assert (Hz := @to_int16_at round32 0 H ltac:(lia)).
  cbn [inject_Z] in *.
  split; [|split; [|split]].
  - intros Ha. apply Z.le_antisymm.
    + rewrite to_int16_scaled by exact H. apply scaled_bounds. exact H.
    + change 32767 with (32767 * 1). rewrite <- Hhi.
      apply to_int16_mono; assumption.
  - intros Ha. apply Z.le_antisymm.
    + change (-32767) with (32767 * -1). rewrite <- Hlo.
      apply to_int16_mono; assumption.
    + rewrite to_int16_scaled by exact H. apply scaled_bounds. exact H.
  - exact Hz.
  - apply to_int16_mono. exact H.
Qed.

Lemma normalizar_saturates_witness :
  to_int16 (fun q => q) 3 = 32767
  /\ to_int16 (fun q => q) (1 # 3) <= to_int16 (fun q => q) (1 # 2).
Proof.
  destruct (@normalizar_saturates (fun q => q) 3 3 rounds_exact)
    as (H1 & _).
  destruct (@normalizar_saturates (fun q => q) (1 # 3) (1 # 2) rounds_exact)
    as (_ & _ & _ & H4).
  split; [apply H1; discriminate | apply H4; discriminate].
Defined.

(** ** Capture callback *)

(** X4: the noise gate.  With the gate on, a frame whose rms is below the
    threshold is dropped: the engine is unchanged and the call returns even
    when the queue is full; an empty frame is always dropped when the
    threshold is positive.  Any other frame goes to the tail of the frame
    queue when fewer than 80 frames wait, and the call waits when 80 do.  A
    status flag is logged in every case. *)
Theorem noise_gate_drops_quiet_frames (root_mean_square : frame -> Q)
  (g : gate) (status : option string) (indata : frame) (s : Engine) :
  (enable_noise_gate g = true ->
   (rms root_mean_square indata < rms_gate_threshold g)%Q ->
   snd (_audio_callback root_mean_square g status indata s) = Some s)
  /\ (enable_noise_gate g = true -> (0 < rms_gate_threshold g)%Q ->
      snd (_audio_callback root_mean_square g status [] s) = Some s)
  /\ (enable_noise_gate g = false
      \/ (rms_gate_threshold g <= rms root_mean_square indata)%Q ->
      snd (_audio_callback root_mean_square g status indata s)
      = if (List.length (audio_q s) <? 80)%nat
        then Some (set_audio_q (audio_q s ++ [indata]) s)
        else None)
  /\ fst (_audio_callback root_mean_square g status indata s)
     = match status with
       | Some text => [NoteAudioStatus text]
       | None => []
       end.
Proof.
  assert (Hdrop : forall x, enable_noise_gate g = true ->
            (rms root_mean_square x < rms_gate_threshold g)%Q ->
            snd (_audio_callback root_mean_square g status x s) = Some s).
  { intros x Hg Hlt. unfold _audio_callback. rewrite Hg. cbn [andb].
    destruct (Qle_bool (rms_gate_threshold g) (rms root_mean_square x)) eqn:E;
      [|reflexivity].
    apply Qle_bool_iff in E. lra. }
  split; [apply Hdrop|]. split; [intros Hg Hthr; apply Hdrop; [exact Hg | exact Hthr]|].
  split.
  - intros H. unfold _audio_callback, audio_put.
    destruct H as [H | H].
    + rewrite H. reflexivity.
    + apply Qle_bool_iff in H. rewrite H, andb_false_r. reflexivity.
  - unfold _audio_callback.
    destruct (enable_noise_gate g && _); reflexivity.
Qed.

Lemma noise_gate_drops_quiet_frames_witness :
  snd (_audio_callback (fun _ => 1 # 1000) (mkGate true (5 # 1000)) None
         [1 # 1000] (init 0)) = Some (init 0)
  /\ snd (_audio_callback (fun _ => 1 # 10) (mkGate true (5 # 1000)) None
            [1 # 10] (init 0))
     = Some (set_audio_q [[1 # 10]] (init 0)).
Proof.
  split.
  - apply (@noise_gate_drops_quiet_frames (fun _ => 1 # 1000)
             (mkGate true (5 # 1000)) None [1 # 1000] (init 0));
      reflexivity.
  - apply (proj1 (proj2 (proj2
      (@noise_gate_drops_quiet_frames (fun _ => 1 # 10)
         (mkGate true (5 # 1000)) None [1 # 10] (init 0))))).
    right. discriminate.
Defined.

(** ** Segmentation: frames, recognizer finals, silence *)

Lemma set_audio_q_same (s : Engine) : set_audio_q (audio_q s) s = s.
Proof. destruct s; reflexivity. Qed.

(** One iteration, case by case. *)
Lemma asr_iteration_eq (e : asr_env) (s : Engine) :
  asr_iteration e s
  = match next_frame e s with
    | None => _finalize_by_silence e s
    | Some (f, rest) =>
        if accept e
        then (Ok tt,
              reset_at (t_reset e)
                (finalized (strip (get_or_empty (result_text e)))
                   (set_trace (trace s ++ [RecAccept f; RecResult])
                      (set_audio_q rest s))))
        else on_partial_result e
               (set_trace (trace s ++ [RecAccept f]) (set_audio_q rest s))
    end.
Proof.
  assert (Hfeed : forall f rest,
            (emit (RecAccept f) ;;
             if accept e
             then emit RecResult ;;
                  when (truthy (strip (get_or_empty (result_text e))))
                       (_emit_phrase (strip (get_or_empty (result_text e)))) ;;
                  _reset_partials (t_reset e)
             else on_partial_result e) (set_audio_q rest s)
            = if accept e
              then (Ok tt,
                    reset_at (t_reset e)
                      (finalized (strip (get_or_empty (result_text e)))
                         (set_trace (trace s ++ [RecAccept f; RecResult])
                            (set_audio_q rest s))))
              else on_partial_result e
                     (set_trace (trace s ++ [RecAccept f])
                        (set_audio_q rest s))).
  { intros f rest. rewrite bind_unit by apply returns_emit.
    destruct (accept e); [|reflexivity].
    rewrite bind_unit by apply returns_emit.
    unfold bind at 1. rewrite when_emit_phrase_eq.
    unfold exec, emit, modify. cbn [snd set_trace trace set_audio_q].
    rewrite <- app_assoc. reflexivity. }
  unfold asr_iteration, audio_get, next_frame.
  unfold gets at 1. unfold bind at 1 2.
  destruct (audio_q s) as [|f rest] eqn:Hq.
  - unfold ret. destruct (arrival e) as [f|]; [|reflexivity].
    specialize (Hfeed f []).
    rewrite <- Hq, set_audio_q_same in Hfeed.
    rewrite <- Hq, set_audio_q_same. apply Hfeed.
  - unfold modify, ret, bind at 1. cbv beta iota. apply Hfeed.
Qed.

Lemma queue_kept_refl s : queue_kept s s.
Proof. split; [reflexivity | apply extends_refl]. Qed.

Lemma queue_kept_trans a b c :
  queue_kept a b -> queue_kept b c -> queue_kept a c.
Proof.
  intros [A1 A2] [B1 B2]. split; [congruence|].
  eapply extends_trans; eassumption.
Qed.

Ltac queue_update :=
  intros ?s; split; [reflexivity|];
  first [ exists []; split; [symmetry; apply app_nil_r | constructor]
        | eexists [_]; split; [reflexivity | repeat constructor] ].

Lemma emit_phrase_queue (text : string) : keeps queue_kept (_emit_phrase text).
Proof.
  unfold _emit_phrase.
  keeps_auto queue_kept_refl queue_kept_trans; queue_update.
Qed.

Lemma on_partial_result_queue (e : asr_env) :
  keeps queue_kept (on_partial_result e).
Proof.
  unfold on_partial_result.
  keeps_auto queue_kept_refl queue_kept_trans;
    try apply emit_phrase_queue; queue_update.
Qed.

Lemma accepted_app (l1 l2 : list event) :
  accepted (l1 ++ l2) = accepted l1 ++ accepted l2.
Proof. unfold accepted. apply flat_map_app. Qed.

Lemma accepted_none (l : list event) : Forall not_accept l -> accepted l = [].
Proof.
  unfold accepted. induction 1 as [|ev l Hev _ IH]; [reflexivity|].
  cbn [flat_map]. rewrite IH.
  destruct ev; cbn in *; try reflexivity; contradiction.
Qed.

(** An iteration that finds a frame waiting passes exactly that frame to the
    recognizer and leaves the rest of the queue. *)
Lemma asr_iteration_takes_head (e : asr_env) (s : Engine) (f : frame)
  (rest : list frame) :
  audio_q s = f :: rest ->
  audio_q (exec (asr_iteration e) s) = rest
  /\ exists l, trace (exec (asr_iteration e) s) = trace s ++ l
               /\ accepted l = [f].
Proof.
  intros Hq. unfold exec. rewrite asr_iteration_eq. unfold next_frame.
  rewrite Hq. destruct (accept e).
  - cbn [snd]. unfold finalized.
    destruct (truthy _ && long_enough _ _); cbn.
    + split; [reflexivity|]. eexists. rewrite <- !app_assoc.
      split; [reflexivity | reflexivity].
    + split; [reflexivity|]. eexists. split; reflexivity.
  - destruct (on_partial_result_queue e
                (set_trace (trace s ++ [RecAccept f]) (set_audio_q rest s)))
      as [Hq' (l & El & Fl)].
    unfold exec in *. split; [exact Hq'|].
    exists (RecAccept f :: l). split.
    + rewrite El. cbn. rewrite <- app_assoc. reflexivity.
    + change (accepted (RecAccept f :: l)) with (f :: accepted l).
      rewrite (accepted_none Fl). reflexivity.
Qed.

(** X5: frames reach the recognizer in queue order: n iterations of the
    segmentation loop on a queue holding at least n frames pass its first n
    frames to [AcceptWaveform], in order and once each, and leave the
    others in the queue. *)
Theorem frames_accepted_in_queue_order (envs : list asr_env) (s : Engine) :
  (List.length envs <= List.length (audio_q s))%nat ->
  accepted (emitted_by (map DoAsrIteration envs) s)
  = firstn (List.length envs) (audio_q s)
  /\ audio_q (perform_all (map DoAsrIteration envs) s)
     = skipn (List.length envs) (audio_q s).
Proof.
  intros Hlen.
  assert (H : audio_q (perform_all (map DoAsrIteration envs) s)
              = skipn (List.length envs) (audio_q s)
              /\ exists l, trace (perform_all (map DoAsrIteration envs) s)
                           = trace s ++ l
                           /\ accepted l
                              = firstn (List.length envs) (audio_q s)).
  { revert s Hlen. induction envs as [|e envs IH]; intros s Hlen.
    - split; [reflexivity|]. exists []. rewrite app_nil_r.
      split; reflexivity.
    - destruct (audio_q s) as [|f rest] eqn:Hq; [cbn in Hlen; lia|].
      destruct (asr_iteration_takes_head e s Hq) as [Hq1 (l1 & El1 & Al1)].
      cbn [map perform_all perform List.length firstn skipn].
      destruct (IH (exec (asr_iteration e) s)) as [Hq2 (l2 & El2 & Al2)].
      { rewrite Hq1. cbn in Hlen. lia. }
      rewrite Hq1 in Hq2, Al2. split; [exact Hq2|].
      exists (l1 ++ l2). rewrite El2, El1, <- app_assoc.
      split; [reflexivity|]. rewrite accepted_app, Al1, Al2. reflexivity. }
  destruct H as [Hq (l & El & Al)]. split; [|exact Hq].
  unfold emitted_by. rewrite El, skipn_emitted. exact Al.
Qed.

Lemma frames_accepted_in_queue_order_witness :
  accepted (emitted_by
              (map DoAsrIteration [partial_frame "ho" 1; final_frame "hola"])
              (set_audio_q [[1]; [2]; [3]]%Q (init 0)))
  = [[1]; [2]]%Q.
Proof.
  apply (@frames_accepted_in_queue_order
           [partial_frame "ho" 1; final_frame "hola"]
           (set_audio_q [[1]; [2]; [3]]%Q (init 0))).
  cbn. lia.
Defined.

(** X6: a recognizer final ends the utterance.  When [AcceptWaveform]
    returns true the iteration reads [Result] (never [FinalResult]), turns
    the stripped text into one phrase when it is non-empty and long enough,
    and resets the segment whatever the text was; a silence check after it
    does nothing, so the utterance is not emitted a second time. *)
Theorem recognizer_final_ends_utterance (e : asr_env) (s : Engine)
  (f : frame) (rest : list frame) :
  next_frame e s = Some (f, rest) ->
  accept e = true ->
  outcome (asr_iteration e) s = Ok tt
  /\ emitted (asr_iteration e) s
     = [RecAccept f; RecResult]
       ++ (if truthy (strip (get_or_empty (result_text e)))
              && long_enough s (strip (get_or_empty (result_text e)))
           then [OnFinal (strip (get_or_empty (result_text e)))] else [])
  /\ phrase_q (exec (asr_iteration e) s)
     = phrase_q s
       ++ (if truthy (strip (get_or_empty (result_text e)))
              && long_enough s (strip (get_or_empty (result_text e)))
           then [strip (get_or_empty (result_text e))] else [])
  /\ seg (exec (asr_iteration e) s)
     = mkSegment EmptyString (_last_partial_time (seg s)) (t_reset e) false
  /\ audio_q (exec (asr_iteration e) s) = rest
  /\ forall e2,
       _finalize_by_silence e2 (exec (asr_iteration e) s)
       = (Ok tt, exec (asr_iteration e) s).
Proof.
  intros Hf Ha. unfold outcome, emitted, exec.
  rewrite asr_iteration_eq, Hf, Ha. cbn [fst snd]. unfold finalized.
  change (long_enough (set_trace (trace s ++ [RecAccept f; RecResult])
                         (set_audio_q rest s)))
    with (long_enough s).
  destruct (truthy _ && long_enough s _); cbn.
  all: repeat split;
    try (intros e2; apply finalize_idle; left; reflexivity);
    try (rewrite <- app_assoc); try apply skipn_emitted.
  symmetry. apply app_nil_r.
Qed.

Lemma recognizer_final_ends_utterance_witness :
  phrase_q (exec (asr_iteration (final_frame "hola mundo")) pending_segment)
  = ["hola mundo"]
  /\ seg (exec (asr_iteration (final_frame "hola mundo")) pending_segment)
     = mkSegment EmptyString 1 1 false.
Proof.
  destruct (@recognizer_final_ends_utterance (final_frame "hola mundo")
              pending_segment [] [] eq_refl eq_refl)
    as (_ & _ & H3 & H4 & _).
  split; [exact H3 | exact H4].
Defined.

Lemma after_partial_state (e : asr_env) (s : Engine) :
  truthy (get_or_empty (partial_text e)) = true ->
  cfg (exec (on_partial_result e) s) = cfg s
  /\ _speech_seen_this_segment (seg (exec (on_partial_result e) s)) = true
  /\ _last_activity_time (seg (exec (on_partial_result e) s)) = t_partial e.
Proof.
  intros Hp. unfold exec. rewrite (on_partial_result_eq e s Hp). cbn [snd].
  destruct (surfaces _ _ s); repeat split.
Qed.

(** X7: the silence timeout counts from the last non-empty partial.  After
    a non-empty partial read at time t, a silence check whose clock reads
    less than [silence_finalize_sec] after t does nothing (the recognizer is
    not asked for a final result); a check that reads that much or more
    forces the final result and ends the segment. *)
Theorem silence_counts_from_last_partial (e e2 : asr_env) (s : Engine) :
  truthy (get_or_empty (partial_text e)) = true ->
  ((t_silence e2 - t_partial e < silence_finalize_sec (cfg s))%Q ->
   _finalize_by_silence e2 (exec (on_partial_result e) s)
   = (Ok tt, exec (on_partial_result e) s))
  /\ ((silence_finalize_sec (cfg s) <= t_silence e2 - t_partial e)%Q ->
      In RecFinalResult
         (emitted (_finalize_by_silence e2) (exec (on_partial_result e) s))
      /\ _speech_seen_this_segment
           (seg (exec (_finalize_by_silence e2)
                      (exec (on_partial_result e) s))) = false).
Proof.
  intros Hp. destruct (after_partial_state e s Hp) as (Hc & Hseen & Hact).
  assert (Hel : silence_elapsed (t_silence e2) (exec (on_partial_result e) s)
                = Qle_bool (silence_finalize_sec (cfg s))
                           (t_silence e2 - t_partial e)).
  { unfold silence_elapsed. rewrite Hc, Hact. reflexivity. }
  split.
  - intros Hlt. apply finalize_idle. right. rewrite Hel.
    apply not_true_is_false. intros H. apply Qle_bool_iff in H. lra.
  - intros Hle. apply Qle_bool_iff in Hle. rewrite <- Hel in Hle.
    remember (exec (on_partial_result e) s) as s1 eqn:Es1.
    unfold emitted, exec.
    rewrite (finalize_fires e2 s1 Hseen Hle). cbn [snd]. unfold finalized.
    destruct (truthy _ && long_enough _ _); cbn.
    + split; [|reflexivity]. rewrite <- app_assoc, skipn_emitted.
      left. reflexivity.
    + split; [|reflexivity]. rewrite skipn_emitted. left. reflexivity.
Qed.

Lemma silence_counts_from_last_partial_witness :
  _finalize_by_silence (silent_poll "hola mundo")
    (exec (on_partial_result (partial_frame "hola" (15 # 10))) (init 0))
  = (Ok tt, exec (on_partial_result (partial_frame "hola" (15 # 10))) (init 0))
  /\ In RecFinalResult
        (emitted (_finalize_by_silence (silent_poll "hola mundo"))
                 (exec (on_partial_result (partial_frame "hola" 1)) (init 0))).
Proof.
  split.
  - apply (proj1 (@silence_counts_from_last_partial
                    (partial_frame "hola" (15 # 10))
                    (silent_poll "hola mundo") (init 0) eq_refl)).
    reflexivity.
  - apply (proj2 (@silence_counts_from_last_partial
                    (partial_frame "hola" 1)
                    (silent_poll "hola mundo") (init 0) eq_refl)).
    discriminate.
Defined.

(** ** Model loading and lifecycle *)

Lemma set_loaded_same (s : Engine) :
  set_loaded (model_loaded (cfg s)) (recognizer_loaded (cfg s)) s = s.
Proof. destruct s as [[] ? ? ? ? ? ? ? ? ?]; reflexivity. Qed.




(** [start] when the model is loaded and the device opens and starts the
    stream. *)
Lemma start_succeeds (d : device_env) (s : Engine) :
  model_loaded (cfg s) = true -> recognizer_loaded (cfg s) = true ->
  open_ok d = true -> start_ok d = true ->
  start d s
  = (Ok tt,
     mkEngine (cfg s) (seg s) (audio_q s) (phrase_q s) false
       (Some (dev_next (device s))) true true
       (mkDevice (dev_open (device s) ++ [dev_next (device s)])
                 (dev_running (device s) ++ [dev_next (device s)])
                 (S (dev_next (device s))))
       (trace s ++ [OpenInput; StreamStart (dev_next (device s));
                    OnStatus StRecording; UiLog LogCaptureStarted;
                    ThreadStart AsrWorker; ThreadStart TtsWorker])).
Proof.
  intros Hm Hr Ho Hs. unfold start.
  unfold gets at 1 2. unfold bind at 1 2. rewrite Hm, Hr. cbn [negb orb].
  unfold modify at 1. unfold bind at 1.
  unfold bind at 1.
  rewrite (@start_input_succeeds d (set_stop_event false s) Ho Hs).
  unfold emit, modify, bind. cbn. repeat rewrite <- app_assoc. reflexivity.
Qed.



(** X10: [start] on a loaded engine whose device opens and starts the stream:
    it clears the stop event, opens one input stream, reports the recording
    status, then creates and starts the two workers, in that order; capture
    is active afterwards.  It leaves the segment state and both queues as
    they are: nothing but [stop] empties them. *)
Theorem start_runs_capture_and_workers (d : device_env) (s : Engine) :
  model_loaded (cfg s) = true -> recognizer_loaded (cfg s) = true ->
  open_ok d = true -> start_ok d = true ->
  outcome (start d) s = Ok tt
  /\ stop_event (exec (start d) s) = false
  /\ capture_active (exec (start d) s) = true
  /\ (t_asr (exec (start d) s) = true /\ t_tts (exec (start d) s) = true)
  /\ emitted (start d) s
     = [OpenInput; StreamStart (dev_next (device s)); OnStatus StRecording;
        UiLog LogCaptureStarted; ThreadStart AsrWorker; ThreadStart TtsWorker]
  /\ seg (exec (start d) s) = seg s
  /\ audio_q (exec (start d) s) = audio_q s
  /\ phrase_q (exec (start d) s) = phrase_q s.
Proof.
  intros Hm Hr Ho Hs. unfold outcome, emitted, exec.
  rewrite (@start_succeeds d s Hm Hr Ho Hs). cbn.
  repeat split; [apply existsb_last | apply skipn_emitted].
Qed.

Lemma start_runs_capture_and_workers_witness :
  capture_active started_engine = true
  /\ stop_event started_engine = false.
Proof.
  destruct (@start_runs_capture_and_workers device_fine
              (mkEngine
                 (mkConfig true true true true true false true 6 (8 # 10)
                           (25 # 100) 3 1)
                 (mkSegment EmptyString 0 0 false) [] [] false None false false
                 (mkDevice [] [] 0%nat) [])
              eq_refl eq_refl eq_refl eq_refl) as (_ & H2 & H3 & _).
  split; [exact H3 | exact H2].
Defined.

(** X11: [start] whose device fails.  The model check has passed and the stop
    event is already cleared when [start_input] raises: the error leaves
    [start], no worker is created or started, and the stop event stays
    cleared.  When the stream could not be opened the stream handle is
    unchanged; when it was opened but did not start, the engine keeps the
    handle of the opened stream. *)
Theorem start_device_failure (d : device_env) (s : Engine) :
  model_loaded (cfg s) = true -> recognizer_loaded (cfg s) = true ->
  open_ok d && start_ok d = false ->
  outcome (start d) s = Raise DeviceError
  /\ stop_event (exec (start d) s) = false
  /\ (t_asr (exec (start d) s) = t_asr s /\ t_tts (exec (start d) s) = t_tts s)
  /\ (forall w, ~ In (ThreadStart w) (emitted (start d) s))
  /\ stream_in (exec (start d) s)
     = (if open_ok d then Some (dev_next (device s)) else stream_in s)
  /\ dev_running (device (exec (start d) s)) = dev_running (device s).
Proof.
  intros Hm Hr Hd.
  assert (Hrun : start d s
            = (Raise DeviceError,
               if open_ok d
               then mkEngine (cfg s) (seg s) (audio_q s) (phrase_q s) false
                      (Some (dev_next (device s))) (t_asr s) (t_tts s)
                      (mkDevice (dev_open (device s) ++ [dev_next (device s)])
                                (dev_running (device s))
                                (S (dev_next (device s))))
                      (trace s ++ [OpenInput;
                                   StreamStart (dev_next (device s))])
               else set_trace (trace s ++ [OpenInput])
                              (set_stop_event false s))).
  { unfold start, start_input, stream_open, stream_start. step_monad.
    rewrite Hm, Hr. cbn.
    destruct (open_ok d); cbn; [destruct (start_ok d); [discriminate|]; cbn|].
    - rewrite <- app_assoc. reflexivity.
    - reflexivity. }
  unfold outcome, emitted, exec. rewrite Hrun. cbn [fst snd].
  destruct (open_ok d); cbn; rewrite skipn_emitted; repeat split.
  - intros w [H | [H | []]]; discriminate H.
  - intros w [H | []]; discriminate H.
Qed.

Lemma start_device_failure_witness :
  outcome (start (mkDeviceEnv false true true true))
    (set_loaded true true (init 0)) = Raise DeviceError
  /\ stop_event (exec (start (mkDeviceEnv false true true true))
                      (set_stop_event true (set_loaded true true (init 0))))
     = false.
Proof.
  split.
  - apply (@start_device_failure (mkDeviceEnv false true true true)
             (set_loaded true true (init 0)) eq_refl eq_refl eq_refl).
  - apply (proj1 (proj2 (@start_device_failure
             (mkDeviceEnv false true true true)
             (set_stop_event true (set_loaded true true (init 0)))
             eq_refl eq_refl eq_refl))).
Defined.

Lemma stop_state (d : device_env) (s : Engine) :
  cfg (exec (stop d) s) = cfg s
  /\ seg (exec (stop d) s) = seg s
  /\ stream_in (exec (stop d) s) = None
  /\ audio_q (exec (stop d) s) = []
  /\ phrase_q (exec (stop d) s) = []
  /\ stop_event (exec (stop d) s) = true.
Proof.
  unfold exec. rewrite stop_unfold. cbn.
  destruct (stop_input_total d (set_stop_event true s))
    as (_ & H1 & H2 & H3 & _ & _ & H4).
  repeat split; assumption.
Qed.

(** X12: a restart.  [stop] followed by [start] (model loaded, device
    willing) gives an engine whose stop event is cleared, whose capture is
    active, whose two queues are empty and whose workers are started.  The
    segment state is not reset on the way: what the segmentation remembered
    before the stop (speech seen, last partial, times) is still there. *)
Theorem restart_after_stop (d1 d2 : device_env) (s : Engine) :
  model_loaded (cfg s) = true -> recognizer_loaded (cfg s) = true ->
  open_ok d2 = true -> start_ok d2 = true ->
  outcome (start d2) (exec (stop d1) s) = Ok tt
  /\ stop_event (exec (start d2) (exec (stop d1) s)) = false
  /\ capture_active (exec (start d2) (exec (stop d1) s)) = true
  /\ audio_q (exec (start d2) (exec (stop d1) s)) = []
  /\ phrase_q (exec (start d2) (exec (stop d1) s)) = []
  /\ seg (exec (start d2) (exec (stop d1) s)) = seg s.
Proof.
  intros Hm Hr Ho Hs.
  destruct (stop_state d1 s) as (Hc & Hseg & _ & Ha & Hp & _).
  remember (exec (stop d1) s) as s1 eqn:Es1.
  unfold outcome, exec.
  rewrite (@start_succeeds d2 s1); try assumption; try (rewrite Hc; assumption).
  cbn. repeat split; try assumption. apply existsb_last.
Qed.

Lemma restart_after_stop_witness :
  capture_active (exec (start device_fine)
                       (exec (stop device_fine) started_engine)) = true
  /\ stop_event (exec (start device_fine)
                      (exec (stop device_fine) started_engine)) = false.
Proof.
  destruct (@restart_after_stop device_fine device_fine started_engine
              eq_refl eq_refl eq_refl eq_refl) as (_ & H2 & H3 & _).
  split; [exact H3 | exact H2].
Defined.

(** ** Synthesis and playback: the rest of the per-phrase block *)

Lemma phrase_body_unfold (e : tts_env) (text : string) :
  phrase_body e text
  = try_except
      (ff <- gets (fun s => ffmpeg_available (cfg s)) ;;
       if negb ff then ui_log LogFfmpegMissing
       else _tts_with_retries (synth_ok e) text ;; after_synthesis e)
      (fun ex => ui_log (LogTtsError ex)).
Proof. reflexivity. Qed.

Lemma after_synthesis_eq (e : tts_env) (s : Engine) :
  after_synthesis e s
  = (playback_outcome e s, set_trace (trace s ++ playback_events e s) s).
Proof.
  unfold after_synthesis, playback_outcome, playback_events, _play_segment.
  step_monad. cbn.
  destruct (decode_ok e); cbn; [|reflexivity].
  destruct (save_wav (cfg s)); cbn.
  - destruct (export_ok e); cbn; [|rewrite <- !app_assoc; reflexivity].
    destruct (play_ok e); cbn; [|rewrite <- !app_assoc; reflexivity].
    destruct (keep_mp3 (cfg s)); cbn; [rewrite <- !app_assoc; reflexivity|].
    destruct (remove_ok e); cbn; rewrite <- !app_assoc; reflexivity.
  - destruct (play_ok e); cbn; [|rewrite <- !app_assoc; reflexivity].
    destruct (keep_mp3 (cfg s)); cbn; [rewrite <- !app_assoc; reflexivity|].
    destruct (remove_ok e); cbn; rewrite <- !app_assoc; reflexivity.
Qed.

(** The shape of every run of the [try] block with its [except] clause. *)
Lemma phrase_body_shape (e : tts_env) (text : string) (s : Engine) :
  exists l,
    phrase_body e text s = (Ok tt, set_trace (trace s ++ l) s)
    /\ (ffmpeg_available (cfg s) = false /\ l = [UiLog LogFfmpegMissing]
        \/ ffmpeg_available (cfg s) = true
           /\ exists retries,
                Forall retry_side retries
                /\ ((exists ex, l = retries ++ [UiLog (LogTtsError ex)])
                    \/ l = retries ++ playback_events e s
                             ++ error_report (playback_outcome e s))).
Proof.
  rewrite phrase_body_unfold. unfold try_except.
  unfold gets at 1. unfold bind at 1.
  destruct (ffmpeg_available (cfg s)) eqn:Hff; cbn [negb].
  - destruct (retry_loop_bounded (synth_ok e) text
                (Z.to_nat (tts_max_retries (cfg s))) 1 s)
      as (r & l & El & Fl & _ & _).
    rewrite <- tts_with_retries_eq in El.
    unfold bind at 1. rewrite El. destruct r as [[]|ex].
    + rewrite after_synthesis_eq. cbn [trace set_trace cfg].
      change (playback_outcome e (set_trace (trace s ++ l) s))
        with (playback_outcome e s).
      change (playback_events e (set_trace (trace s ++ l) s))
        with (playback_events e s).
      destruct (playback_outcome e s) as [[]|ex] eqn:Ho; cbn.
      * exists (l ++ playback_events e s ++ []).
        split; [rewrite app_nil_r, app_assoc; reflexivity|].
        right. split; [reflexivity|]. exists l. split; [exact Fl|].
        right. reflexivity.
      * exists (l ++ playback_events e s ++ [UiLog (LogTtsError ex)]).
        split; [rewrite !app_assoc; reflexivity|].
        right. split; [reflexivity|]. exists l. split; [exact Fl|].
        right. reflexivity.
    + cbn. exists (l ++ [UiLog (LogTtsError ex)]).
      split; [rewrite app_assoc; reflexivity|].
      right. split; [reflexivity|]. exists l. split; [exact Fl|].
      left. exists ex. reflexivity.
  - cbn. eexists. split; [reflexivity|].
    left. split; reflexivity.
Qed.

Lemma retry_side_skipped (l t : list event) :
  Forall retry_side l ->
  stops_after_play (l ++ t) = stops_after_play t
  /\ filter is_play (l ++ t) = filter is_play t
  /\ (forall ev, ~ retry_side ev -> In ev (l ++ t) -> In ev t).
Proof.
  induction 1 as [|ev l Hev _ (IH1 & IH2 & IH3)].
  - repeat split. intros ev _ H. exact H.
  - split; [|split].
    + cbn [app]. rewrite <- IH1.
      destruct ev as [[]| | | | | | | | | | | | | | | | | | |]; cbn in *;
        try contradiction; reflexivity.
    + cbn [app filter]. rewrite <- IH2.
      destruct ev as [[]| | | | | | | | | | | | | | | | | | |]; cbn in *;
        try contradiction; reflexivity.
    + intros ev' Hn [H | H]; [subst ev'; contradiction | exact (IH3 ev' Hn H)].
Qed.

Lemma playback_events_checked (e : tts_env) (s : Engine) :
  stops_after_play
    (playback_events e s ++ error_report (playback_outcome e s)) = true
  /\ (List.length
        (filter is_play
           (playback_events e s ++ error_report (playback_outcome e s)))
      <= 1)%nat
  /\ (In Play (playback_events e s ++ error_report (playback_outcome e s)) ->
      decode_ok e = true
      /\ (save_wav (cfg s) = true -> export_ok e = true))
  /\ (In RemoveMp3
         (playback_events e s ++ error_report (playback_outcome e s)) ->
      keep_mp3 (cfg s) = false /\ play_ok e = true
      /\ In Play (playback_events e s ++ error_report (playback_outcome e s))).
Proof.
  unfold playback_events, playback_outcome, error_report.
  destruct (decode_ok e), (save_wav (cfg s)), (export_ok e), (play_ok e),
    (keep_mp3 (cfg s)); cbn.
  all: (split; [reflexivity | split; [lia | split]]);
    intros K; intuition (try discriminate; try reflexivity).
Qed.

(** X13: playback inside the per-phrase block.  Whatever the services do,
    every [sd.play] is directly followed by [sd.stop] (also when the playback
    raised), at most one playback is made per phrase, and nothing is played
    unless FFmpeg is present, the synthesized file decoded and, when the WAV
    copy is wanted, its export succeeded: a failed export of the cache copy
    keeps the phrase from being played. *)
Theorem playback_is_stopped_and_guarded (e : tts_env) (text : string)
  (s : Engine) :
  stops_after_play (emitted (phrase_body e text) s) = true
  /\ (List.length (filter is_play (emitted (phrase_body e text) s)) <= 1)%nat
  /\ (In Play (emitted (phrase_body e text) s) ->
      ffmpeg_available (cfg s) = true
      /\ decode_ok e = true
      /\ (save_wav (cfg s) = true -> export_ok e = true)).
Proof.
  destruct (phrase_body_shape e text s) as (l & Hrun & Hshape).
  rewrite (emitted_of_run _ _ Hrun).
  destruct Hshape as [[Hff ->] | [Hff (retries & Fr & [[ex ->] | ->])]].
  - cbn. split; [reflexivity | split; [lia|]].
    intros [K | []]; discriminate K.
  - destruct (@retry_side_skipped retries [UiLog (LogTtsError ex)] Fr)
      as (H1 & H2 & H3).
    rewrite H1, H2. cbn. split; [reflexivity | split; [lia|]].
    intros K. apply H3 in K; [|cbn; tauto].
    destruct K as [K | []]; discriminate K.
  - destruct (@retry_side_skipped retries
                (playback_events e s ++ error_report (playback_outcome e s))
                Fr) as (H1 & H2 & H3).
    destruct (playback_events_checked e s) as (C1 & C2 & C3 & _).
    rewrite H1, H2. split; [exact C1 | split; [exact C2|]].
    intros H. apply H3 in H; [|cbn; tauto].
    split; [exact Hff | exact (C3 H)].
Qed.

Lemma after_synthesis_remove_ok (b : bool) (e : tts_env) (s : Engine) :
  after_synthesis (with_remove_ok b e) s = after_synthesis e s.
Proof. rewrite !after_synthesis_eq. reflexivity. Qed.

(** X14: the synthesized MP3 in the cache.  [os.remove] is called only when
    [keep_mp3] is off and the phrase has been played to the end; when
    decoding, export or playback raise, the file is left in the cache.  What
    [os.remove] answers is invisible: a failed removal changes neither the
    outcome of the block nor anything it logs. *)
Theorem mp3_removed_only_after_playback (e : tts_env) (text : string)
  (s : Engine) :
  (In RemoveMp3 (emitted (phrase_body e text) s) ->
   keep_mp3 (cfg s) = false /\ play_ok e = true
   /\ In Play (emitted (phrase_body e text) s))
  /\ (forall b, phrase_body (with_remove_ok b e) text s
                = phrase_body e text s).
Proof.
  split.
  - destruct (phrase_body_shape e text s) as (l & Hrun & Hshape).
    rewrite (emitted_of_run _ _ Hrun).
    destruct Hshape as [[Hff ->] | [Hff (retries & Fr & [[ex ->] | ->])]].
    + intros [H | []]; discriminate H.
    + intros H.
      apply (proj2 (proj2 (@retry_side_skipped retries _ Fr))) in H;
        [|cbn; tauto].
      destruct H as [H | []]; discriminate H.
    + intros H.
      apply (proj2 (proj2 (@retry_side_skipped retries _ Fr))) in H;
        [|cbn; tauto].
      destruct (playback_events_checked e s) as (_ & _ & _ & C4).
      destruct (C4 H) as (K1 & K2 & K3).
      repeat split; try assumption. apply in_or_app. right. exact K3.
  - intros b. rewrite !phrase_body_unfold. unfold try_except.
    unfold gets, bind. cbn [synth_ok with_remove_ok].
    destruct (negb (ffmpeg_available (cfg s))); [reflexivity|].
    destruct (_tts_with_retries (synth_ok e) text s) as [[[]|ex] s1];
      [|reflexivity].
    rewrite after_synthesis_remove_ok. reflexivity.
Qed.

Lemma mp3_removed_only_after_playback_witness :
  keep_mp3 (cfg started_engine) = false /\ play_ok all_fine = true.
Proof.
  assert (H : In RemoveMp3 (emitted (phrase_body all_fine "hola mundo")
                                    started_engine)).
  { vm_compute. repeat (first [left; reflexivity | right]). }
  destruct (proj1 (@mp3_removed_only_after_playback all_fine "hola mundo"
                     started_engine) H) as (K1 & K2 & _).
  split; [exact K1 | exact K2].
Defined.

Lemma playback_is_stopped_and_guarded_witness :
  decode_ok all_fine = true.
Proof.
  assert (H : In Play (emitted (phrase_body all_fine "hola mundo")
                               started_engine)).
  { vm_compute. repeat (first [left; reflexivity | right]). }
  exact (proj1 (proj2 (proj2 (proj2
           (@playback_is_stopped_and_guarded all_fine "hola mundo"
              started_engine)) H))).
Defined.

(** ** One phrase: ducking off, FFmpeg missing *)

Lemma handle_phrase_run (e : tts_env) (text : string) (s : Engine) :
  handle_phrase e text s
  = (Ok tt,
     exec (resume e)
       (exec (phrase_body e text)
          (exec (when (ducking (cfg s)) (stop_input (dev e))) s))).
Proof.
  unfold handle_phrase. unfold gets at 1. unfold bind at 1.
  rewrite bind_unit by (apply returns_when, stop_input_returns).
  unfold try_finally.
  rewrite (returns_unit _ (@phrase_body_returns e text)).
  rewrite (returns_unit _ (@resume_returns e)). reflexivity.
Qed.

Lemma capture_side_refl s : extends capture_side s s.
Proof. apply extends_refl. Qed.

Lemma stop_input_capture_side (d : device_env) :
  keeps (extends capture_side) (stop_input d).
Proof.
  keeps_auto capture_side_refl (@extends_trans capture_side);
    intros ?s; unfold extends; cbn;
    first [ exists []; split; [symmetry; apply app_nil_r | constructor]
          | eexists [_]; split; [reflexivity | repeat constructor] ].
Qed.

Lemma resume_capture_side (e : tts_env) :
  keeps (extends capture_side) (resume e).
Proof.
  unfold resume.
  keeps_auto capture_side_refl (@extends_trans capture_side);
    intros ?s; unfold extends; cbn;
    first [ exists []; split; [symmetry; apply app_nil_r | constructor]
          | eexists [_]; split; [reflexivity | repeat constructor] ].
Qed.

Lemma phrase_body_tts_side (e : tts_env) (text : string) (s : Engine) :
  exists l, phrase_body e text s = (Ok tt, set_trace (trace s ++ l) s)
            /\ Forall tts_side l.
Proof.
  destruct (phrase_body_shape e text s) as (l & Hrun & _).
  exists l. split; [exact Hrun|].
  destruct (phrase_body_side e text s) as (_ & _ & _ & _ & _ & _ & _ & l' & El & Fl).
  unfold exec in El. rewrite Hrun in El. cbn in El.
  apply app_inv_head in El. subst l'. exact Fl.
Qed.

(** X15: with ducking switched off, the handling of a phrase does not touch
    capture: the only calls it makes are those of synthesis and playback
    (synthesizer, codec, output device, file system, log, status), the
    stream handle and the device layer are as before, so that a running
    capture keeps running while the phrase is played.  It returns normally;
    the one other change is the stop event, when [stop] raised it
    meanwhile. *)
Theorem ducking_off_leaves_capture_alone (e : tts_env) (text : string)
  (s : Engine) :
  ducking (cfg s) = false ->
  (exists l,
     Forall tts_side l
     /\ handle_phrase e text s
        = (Ok tt,
           let s1 := set_trace (trace s ++ l) s in
           if stop_raised e then set_stop_event true s1 else s1))
  /\ stream_in (exec (handle_phrase e text) s) = stream_in s
  /\ device (exec (handle_phrase e text) s) = device s
  /\ capture_active (exec (handle_phrase e text) s) = capture_active s.
Proof.
  intros Hd.
  assert (Hrun : exists l,
     Forall tts_side l
     /\ handle_phrase e text s
        = (Ok tt,
           let s1 := set_trace (trace s ++ l) s in
           if stop_raised e then set_stop_event true s1 else s1)).
  { destruct (phrase_body_tts_side e text s) as (l & Hb & Fl).
    exists l. split; [exact Fl|].
    rewrite handle_phrase_run, Hd. cbn [when].
    change (exec (ret tt) s) with s.
    unfold exec at 2. rewrite Hb. cbn [snd].
    unfold resume, exec.
    destruct (stop_raised e); step_monad; cbn; rewrite Hd; reflexivity. }
  split; [exact Hrun|].
  destruct Hrun as (l & _ & Hrun). unfold capture_active, exec.
  rewrite Hrun. destruct (stop_raised e); cbn; repeat split.
Qed.

Lemma ducking_off_leaves_capture_alone_witness :
  capture_active
    (exec (handle_phrase all_fine "hola mundo")
       (mkEngine
          (mkConfig true true false true true false true 6 (8 # 10)
                    (25 # 100) 3 1)
          (seg running_engine) [] [] false (stream_in running_engine)
          true true (device running_engine) []))
  = true.
Proof.
  rewrite (proj2 (proj2 (proj2
             (@ducking_off_leaves_capture_alone all_fine "hola mundo"
                (mkEngine
                   (mkConfig true true false true true false true 6 (8 # 10)
                             (25 # 100) 3 1)
                   (seg running_engine) [] [] false (stream_in running_engine)
                   true true (device running_engine) [])
                eq_refl)))).
  reflexivity.
Defined.

Lemma handle_phrase_without_ffmpeg (e : tts_env) (text : string) (s : Engine) :
  ffmpeg_available (cfg s) = false ->
  exists before after,
    trace (exec (handle_phrase e text) s)
    = trace s ++ before ++ UiLog LogFfmpegMissing :: after
    /\ Forall capture_side before /\ Forall capture_side after.
Proof.
  intros Hff. unfold exec at 1. rewrite handle_phrase_run. cbn [snd].
  remember (exec (when (ducking (cfg s)) (stop_input (dev e))) s) as s1 eqn:E1.
  assert (H1 : cfg s1 = cfg s /\ extends capture_side s s1).
  { subst s1. destruct (ducking (cfg s)); cbn [when].
    - split; [apply stop_input_total | apply stop_input_capture_side].
    - split; [reflexivity | apply extends_refl]. }
  destruct H1 as (Hc & before & Eb & Fb).
  destruct (phrase_body_shape e text s1) as (l & Hrun & Hshape).
  destruct Hshape as [[_ ->] | [Hff' _]]; [|congruence].
  unfold exec at 2. rewrite Hrun. cbn [snd].
  destruct (resume_capture_side e (set_trace (trace s1 ++ [UiLog LogFfmpegMissing]) s1))
    as (after & Ea & Fa).
  exists before, after. split; [|split; assumption].
  rewrite Ea. cbn [trace set_trace]. rewrite Eb.
  repeat rewrite <- app_assoc. reflexivity.
Qed.

(** X16: without FFmpeg nothing is synthesized.  An iteration of the
    synthesis loop that finds a phrase in the queue takes it out and drops
    it: the log gets the FFmpeg message, and every other call of the
    iteration is on the capture side (the suspension and the resumption
    around the block), so neither the synthesizer nor the codec nor the
    output device is called.  The iteration returns normally. *)
Theorem phrase_dropped_without_ffmpeg (e : tts_env) (t : string)
  (rest : list string) (s : Engine) :
  ffmpeg_available (cfg s) = false ->
  phrase_q s = t :: rest ->
  truthy t = true ->
  outcome (tts_iteration e) s = Ok tt
  /\ phrase_q (exec (tts_iteration e) s) = rest
  /\ exists before after,
       emitted (tts_iteration e) s
       = before ++ UiLog LogFfmpegMissing :: after
       /\ Forall capture_side before /\ Forall capture_side after.
Proof.
  intros Hff Hq Ht.
  assert (Hrun : tts_iteration e s = handle_phrase e t (set_phrase_q rest s)).
  { rewrite tts_iteration_eq, Hq. unfold on_phrase. rewrite Ht. reflexivity. }
  split; [|split].
  - unfold outcome. rewrite Hrun, handle_phrase_run. reflexivity.
  - unfold exec. rewrite Hrun.
    destruct (handle_phrase_quiet e t (set_phrase_q rest s))
      as (_ & _ & _ & Hp & _).
    exact Hp.
  - destruct (@handle_phrase_without_ffmpeg e t (set_phrase_q rest s) Hff)
      as (before & after & Et & Fb & Fa).
    exists before, after. split; [|split; assumption].
    apply emitted_spec. unfold exec in *. rewrite Hrun. exact Et.
Qed.

Lemma phrase_dropped_without_ffmpeg_witness :
  phrase_q
    (exec (tts_iteration all_fine)
       (mkEngine
          (mkConfig true true true false true false true 6 (8 # 10)
                    (25 # 100) 3 1)
          (seg running_engine) [] ["hola mundo"; "adios"] false
          (stream_in running_engine) true true (device running_engine) []))
  = ["adios"].
Proof.
  exact (proj1 (proj2
    (@phrase_dropped_without_ffmpeg all_fine "hola mundo" ["adios"]
       (mkEngine
          (mkConfig true true true false true false true 6 (8 # 10)
                    (25 # 100) 3 1)
          (seg running_engine) [] ["hola mundo"; "adios"] false
          (stream_in running_engine) true true (device running_engine) [])
       eq_refl eq_refl eq_refl))).
Defined.

(** ** Phrases between segmentation and synthesis *)

Lemma lstrip_head (t : string) :
  match lstrip t with
  | EmptyString => True
  | String c _ => is_space c = false
  end.
Proof.
  induction t as [|c r IH]; cbn; [exact I|].
  destruct (is_space c) eqn:Hc; [exact IH | exact Hc].
Qed.

Lemma rstrip_head (c : ascii) (r : string) :
  is_space c = false -> exists r', rstrip (String c r) = String c r'.
Proof.
  intros Hc. cbn. destruct (rstrip r) as [|d r'].
  - rewrite Hc. eexists. reflexivity.
  - eexists. reflexivity.
Qed.

Lemma rstrip_idempotent (t : string) : rstrip (rstrip t) = rstrip t.
Proof.
  induction t as [|c r IH]; [reflexivity|].
  cbn. destruct (rstrip r) as [|d r'] eqn:Hr.
  - destruct (is_space c) eqn:Hc; [reflexivity|]. cbn. rewrite Hc. reflexivity.
  - cbn [rstrip] in *. rewrite IH. reflexivity.
Qed.

Lemma strip_idempotent (t : string) : strip (strip t) = strip t.
Proof.
  unfold strip. pose proof (lstrip_head t) as Hl.
  destruct (lstrip t) as [|c r]; [reflexivity|].
  destruct (@rstrip_head c r Hl) as (r' & Hr). rewrite Hr.
  assert (Hfix : lstrip (String c r') = String c r')
    by (cbn; rewrite Hl; reflexivity).
  rewrite Hfix, <- Hr. apply rstrip_idempotent.
Qed.

Lemma stripped_kept_refl s : stripped_kept s s.
Proof. split; [trivial | apply extends_refl]. Qed.

Lemma stripped_kept_trans a b c :
  stripped_kept a b -> stripped_kept b c -> stripped_kept a c.
Proof.
  intros (Q1 & E1) (Q2 & E2).
  split; [auto | eapply extends_trans; eassumption].
Qed.

Lemma quiet_stripped_kept s s' : quiet not_final s s' -> stripped_kept s s'.
Proof.
  intros (_ & _ & _ & A4 & A5). unfold stripped_kept.
  rewrite A4. split; [trivial|].
  eapply extends_weaken; [|exact A5]. intros [] Hev; cbn in *; trivial.
  contradiction.
Qed.

(** [text = ....strip()] followed by [if text: self._emit_phrase(text)]. *)
Lemma guarded_emit_stripped (x : string) :
  keeps stripped_kept (when (truthy (strip x)) (_emit_phrase (strip x))).
Proof.
  intros s. unfold exec. rewrite when_emit_phrase_eq. cbn [snd].
  unfold finalized.
  destruct (truthy (strip x)) eqn:Ht; cbn [andb];
    [|apply stripped_kept_refl].
  destruct (long_enough s (strip x)); [|apply stripped_kept_refl].
  assert (Hs : stripped (strip x)) by (split; [exact Ht | apply strip_idempotent]).
  unfold enqueued. split; cbn.
  - intros Hq. apply Forall_app. split; [exact Hq|].
    constructor; [exact Hs | constructor].
  - exists [OnFinal (strip x)]. split; [reflexivity|].
    constructor; [exact Hs | constructor].
Qed.

Ltac stripped_update :=
  intros ?s; unfold stripped_kept; cbn; split; [trivial|];
  first [ exists []; split; [symmetry; apply app_nil_r | constructor]
        | eexists [_]; split; [reflexivity | repeat constructor] ].

Lemma finalize_stripped (e : asr_env) :
  keeps stripped_kept (_finalize_by_silence e).
Proof.
  unfold _finalize_by_silence.
  pose proof (guarded_emit_stripped (get_or_empty (final_text e))) as Hg.
  set (c := when _ _) in *.
  keeps_auto stripped_kept_refl stripped_kept_trans;
    try exact Hg; stripped_update.
Qed.

Lemma on_partial_result_stripped (e : asr_env) :
  keeps stripped_kept (on_partial_result e).
Proof.
  unfold on_partial_result.
  pose proof (finalize_stripped e) as Hf.
  set (c := _finalize_by_silence e) in *.
  keeps_auto stripped_kept_refl stripped_kept_trans;
    try exact Hf; stripped_update.
Qed.

Lemma asr_iteration_stripped (e : asr_env) :
  keeps stripped_kept (asr_iteration e).
Proof.
  unfold asr_iteration.
  pose proof (guarded_emit_stripped (get_or_empty (result_text e))) as Hg.
  pose proof (finalize_stripped e) as Hf.
  set (c := when _ _) in *.
  set (c' := _finalize_by_silence e) in *.
  keeps_auto stripped_kept_refl stripped_kept_trans;
    try exact Hg; try exact Hf; try apply on_partial_result_stripped;
    stripped_update.
Qed.

Lemma asr_flush_stripped (final : option string) :
  keeps stripped_kept (asr_flush final).
Proof.
  unfold asr_flush.
  pose proof (guarded_emit_stripped (get_or_empty final)) as Hg.
  set (c := when _ _) in *.
  keeps_auto stripped_kept_refl stripped_kept_trans;
    try exact Hg; stripped_update.
Qed.

Lemma tts_iteration_stripped (e : tts_env) :
  keeps stripped_kept (tts_iteration e).
Proof.
  intros s. unfold exec. rewrite tts_iteration_eq.
  destruct (phrase_q s) as [|t rest] eqn:Hq.
  - destruct (phrase_arrival e) as [t|]; [|apply stripped_kept_refl].
    apply quiet_stripped_kept. apply (on_phrase_quiet e t s).
  - apply stripped_kept_trans with (b := set_phrase_q rest s).
    + split; cbn.
      * rewrite Hq. intros H. inversion H; assumption.
      * exists []. split; [symmetry; apply app_nil_r | constructor].
    + apply quiet_stripped_kept. apply (on_phrase_quiet e t).
Qed.

Lemma start_stripped (d : device_env) : keeps stripped_kept (start d).
Proof.
  intros s. apply quiet_stripped_kept. revert s.
  change (keeps (quiet not_final) (start d)). unfold start.
  keeps_auto (@quiet_refl not_final) (@quiet_trans not_final); trace_update.
Qed.

Lemma stop_stripped (d : device_env) : keeps stripped_kept (stop d).
Proof.
  intros s. unfold exec. rewrite stop_unfold. cbn [snd].
  destruct (stop_input_quiet d (set_stop_event true s))
    as (_ & _ & _ & _ & A5).
  split; cbn; [intros _; constructor|].
  eapply extends_weaken; [|exact A5]. intros [] Hev; cbn in *; trivial.
  contradiction.
Qed.

Lemma perform_stripped (a : action) : keeps stripped_kept (perform a).
Proof.
  destruct a; cbn [perform].
  - apply start_stripped.
  - apply stop_stripped.
  - apply asr_iteration_stripped.
  - apply asr_flush_stripped.
  - apply tts_iteration_stripped.
Qed.

Lemma perform_all_stripped (acts : list action) (s : Engine) :
  stripped_kept s (perform_all acts s).
Proof.
  revert s. induction acts as [|a rest IH]; intros s; cbn [perform_all].
  - apply stripped_kept_refl.
  - eapply stripped_kept_trans; [apply (perform_stripped a s) | apply IH].
Qed.

(** X17: what the segmentation side hands over is a stripped, non-empty
    text.  Over any interleaving of lifecycle calls and worker iterations,
    every phrase passed to [on_final] is non-empty and has no white space at
    either end, and so has every phrase in the queue when those that were in
    it at first have. *)
Theorem queued_phrases_are_stripped (acts : list action) (s : Engine) :
  Forall stripped (phrase_q s) ->
  Forall stripped (phrase_q (perform_all acts s))
  /\ forall t, In (OnFinal t) (emitted_by acts s) -> stripped t.
Proof.
  intros Hq. destruct (perform_all_stripped acts s) as (Q & l & El & Fl).
  split; [exact (Q Hq)|].
  intros t Hin. unfold emitted_by in Hin. rewrite El, skipn_emitted in Hin.
  rewrite Forall_forall in Fl. exact (Fl _ Hin).
Qed.

Lemma queued_phrases_are_stripped_witness :
  Forall stripped
    (phrase_q
       (perform_all
          [DoAsrIteration
             (mkAsrEnv (Some []) true (Some "  hola mundo ") None None 1 1 1)]
          (init 0))).
Proof.
  exact (proj1 (@queued_phrases_are_stripped
                  [DoAsrIteration
                     (mkAsrEnv (Some []) true (Some "  hola mundo ") None None
                               1 1 1)]
                  (init 0) (Forall_nil _))).
Defined.

Lemma conserved_refl s : conserved s s.
Proof. exists []. cbn. rewrite !app_nil_r. split; reflexivity. Qed.

Lemma first_attempts_app (l1 l2 : list event) :
  first_attempts (l1 ++ l2) = first_attempts l1 ++ first_attempts l2.
Proof. apply flat_map_app. Qed.

Lemma finals_app (l1 l2 : list event) :
  finals (l1 ++ l2) = finals l1 ++ finals l2.
Proof. apply flat_map_app. Qed.

Lemma conserved_trans a b c : conserved a b -> conserved b c -> conserved a c.
Proof.
  intros (l1 & E1 & C1) (l2 & E2 & C2). exists (l1 ++ l2). split.
  - rewrite E2, E1. symmetry. apply app_assoc.
  - rewrite first_attempts_app, finals_app, <- app_assoc, C2.
    rewrite !app_assoc. rewrite C1. reflexivity.
Qed.

Lemma emit_phrase_conserved (text : string) :
  keeps conserved (_emit_phrase text).
Proof.
  intros s. unfold exec. rewrite emit_phrase_eq. cbn [snd].
  destruct (long_enough s text); [|apply conserved_refl].
  exists [OnFinal text]. split; reflexivity.
Qed.

Ltac conserved_update :=
  intros ?s; unfold conserved; cbn;
  first [ exists []; split; [symmetry; apply app_nil_r
                            | cbn; rewrite app_nil_r; reflexivity]
        | eexists [_]; split; [reflexivity
                              | cbn; rewrite app_nil_r; reflexivity] ].

Lemma on_partial_result_conserved (e : asr_env) :
  keeps conserved (on_partial_result e).
Proof.
  unfold on_partial_result.
  keeps_auto conserved_refl conserved_trans;
    try apply emit_phrase_conserved; conserved_update.
Qed.

Lemma asr_iteration_conserved (e : asr_env) :
  keeps conserved (asr_iteration e).
Proof.
  keeps_auto conserved_refl conserved_trans;
    try apply emit_phrase_conserved; try apply on_partial_result_conserved;
    conserved_update.
Qed.

Lemma asr_flush_conserved (final : option string) :
  keeps conserved (asr_flush final).
Proof.
  keeps_auto conserved_refl conserved_trans;
    try apply emit_phrase_conserved; conserved_update.
Qed.

Lemma capture_side_no_phrase (l : list event) :
  Forall capture_side l -> first_attempts l = [] /\ finals l = [].
Proof.
  induction 1 as [|ev l Hev _ (IH1 & IH2)]; [split; reflexivity|].
  destruct ev as [[]| | | | | | | | | | | | | | | | | | |]; cbn in *;
    try contradiction; split; assumption.
Qed.

Lemma tts_side_no_final (l : list event) : Forall tts_side l -> finals l = [].
Proof.
  induction 1 as [|ev l Hev _ IH]; [reflexivity|].
  destruct ev; cbn in *; try contradiction; assumption.
Qed.

Lemma retry_loop_attempts (ok : Z -> bool) (text : string) (left : nat) :
  forall (n : Z) (s : Engine),
  1 <= n ->
  exists r l,
    retry_loop ok text n left s = (r, set_trace (trace s ++ l) s)
    /\ first_attempts l
       = if (n =? 1) && negb (Nat.eqb left 0) then [text] else [].
Proof.
  induction left as [|left IH]; intros n s Hn.
  - exists (Raise (RuntimeError "TTS agotó reintentos")), [].
    split; [cbn; rewrite app_nil_r; unfold raise; f_equal; symmetry;
            apply engine_eta|].
    rewrite andb_false_r. reflexivity.
  - cbn [retry_loop]. unfold emit, ui_log, emit, modify, gets.
    unfold bind at 1. destruct (ok n) eqn:Hok.
    + exists (Ok tt), [Synth text n]. split; [reflexivity|].
      cbn. destruct (n =? 1); reflexivity.
    + unfold bind at 1 2. cbn [cfg set_trace]. unfold bind at 1.
      unfold sleep, emit, modify. unfold bind at 1.
      destruct (Qle_bool 0 (tts_backoff (cfg s) * inject_Z n)).
      * unfold ret. cbv beta iota.
        match goal with
        | |- context [retry_loop ok text (n + 1) left ?s1] =>
            destruct (IH (n + 1) s1 ltac:(lia)) as (r & l & El & Al)
        end.
        exists r, ([Synth text n; UiLog (LogRetry n SynthError);
                    Sleep (tts_backoff (cfg s) * inject_Z n)] ++ l).
        rewrite El. cbn [trace set_trace]. repeat rewrite <- app_assoc.
        split; [reflexivity|].
        rewrite first_attempts_app, Al.
        replace (n + 1 =? 1) with false by (symmetry; apply Z.eqb_neq; lia).
        cbn. destruct (n =? 1); reflexivity.
      * exists (Raise ValueError),
          [Synth text n; UiLog (LogRetry n SynthError);
           Sleep (tts_backoff (cfg s) * inject_Z n)].
        unfold raise. cbn [trace set_trace]. repeat rewrite <- app_assoc.
        split; [reflexivity|].
        cbn. destruct (n =? 1); reflexivity.
Qed.

Lemma playback_no_attempt (e : tts_env) (s : Engine) (r : res unit) :
  first_attempts (playback_events e s ++ error_report r) = [].
Proof.
  unfold playback_events, error_report.
  destruct (decode_ok e), (save_wav (cfg s)), (export_ok e), (play_ok e),
    (keep_mp3 (cfg s)), r; reflexivity.
Qed.

(** With FFmpeg present and at least one attempt allowed, the per-phrase
    block calls the synthesizer on its phrase. *)
Lemma phrase_body_attempts (e : tts_env) (text : string) (s : Engine) :
  ffmpeg_available (cfg s) = true ->
  1 <= tts_max_retries (cfg s) ->
  exists l,
    phrase_body e text s = (Ok tt, set_trace (trace s ++ l) s)
    /\ first_attempts l = [text] /\ finals l = [].
Proof.
  intros Hff Hr.
  destruct (phrase_body_tts_side e text s) as (l & Hrun & Fl).
  exists l. split; [exact Hrun | split; [|exact (tts_side_no_final Fl)]].
  rewrite phrase_body_unfold in Hrun. unfold try_except in Hrun.
  unfold gets at 1 in Hrun. unfold bind at 1 in Hrun.
  rewrite Hff in Hrun. cbn [negb] in Hrun.
  destruct (@retry_loop_attempts (synth_ok e) text
              (Z.to_nat (tts_max_retries (cfg s))) 1 s ltac:(lia))
    as (r & l0 & El & Al).
  replace (Nat.eqb (Z.to_nat (tts_max_retries (cfg s))) 0) with false in Al
    by (symmetry; apply Nat.eqb_neq; lia).
  cbn in Al.
  rewrite <- tts_with_retries_eq in El.
  unfold bind at 1 in Hrun. rewrite El in Hrun. destruct r as [[]|ex].
  - rewrite after_synthesis_eq in Hrun. cbn [trace set_trace cfg] in Hrun.
    assert (Hl : trace s ++ l
                 = (trace s ++ l0)
                   ++ playback_events e (set_trace (trace s ++ l0) s)
                   ++ error_report
                        (playback_outcome e (set_trace (trace s ++ l0) s))).
    { destruct (playback_outcome e (set_trace (trace s ++ l0) s))
        as [[]|ex] eqn:Ho; cbn in Hrun;
        injection Hrun as Hrun; cbn [error_report];
        rewrite ?app_nil_r; try rewrite <- Hrun; try rewrite app_assoc;
        reflexivity. }
    rewrite <- app_assoc in Hl. apply app_inv_head in Hl. subst l.
    rewrite first_attempts_app, Al, playback_no_attempt. reflexivity.
  - cbn in Hrun. injection Hrun as Hrun.
    rewrite <- app_assoc in Hrun. apply app_inv_head in Hrun. subst l.
    rewrite first_attempts_app, Al. reflexivity.
Qed.

Lemma handle_phrase_conserved (e : tts_env) (text : string) (s : Engine) :
  ffmpeg_available (cfg s) = true ->
  1 <= tts_max_retries (cfg s) ->
  exists l,
    trace (exec (handle_phrase e text) s) = trace s ++ l
    /\ first_attempts l = [text] /\ finals l = [].
Proof.
  intros Hff Hr. unfold exec at 1. rewrite handle_phrase_run. cbn [snd].
  remember (exec (when (ducking (cfg s)) (stop_input (dev e))) s) as s1 eqn:E1.
  assert (H1 : cfg s1 = cfg s /\ extends capture_side s s1).
  { subst s1. destruct (ducking (cfg s)); cbn [when].
    - split; [apply stop_input_total | apply stop_input_capture_side].
    - split; [reflexivity | apply extends_refl]. }
  destruct H1 as (Hc & before & Eb & Fb).
  rewrite <- Hc in Hff, Hr.
  destruct (phrase_body_attempts e text s1 Hff Hr) as (l & Hrun & Al & Nl).
  unfold exec at 2. rewrite Hrun. cbn [snd].
  destruct (resume_capture_side e (set_trace (trace s1 ++ l) s1))
    as (after & Ea & Fa).
  exists (before ++ l ++ after). split.
  - rewrite Ea. cbn [trace set_trace]. rewrite Eb.
    repeat rewrite <- app_assoc. reflexivity.
  - destruct (capture_side_no_phrase Fb) as (B1 & B2).
    destruct (capture_side_no_phrase Fa) as (A1 & A2).
    rewrite !first_attempts_app, !finals_app, B1, B2, A1, A2, Al, Nl.
    split; reflexivity.
Qed.

Lemma tts_iteration_conserved (e : tts_env) (s : Engine) :
  phrase_arrival e = None ->
  ffmpeg_available (cfg s) = true ->
  1 <= tts_max_retries (cfg s) ->
  Forall nonempty (phrase_q s) ->
  conserved s (exec (tts_iteration e) s).
Proof.
  intros Ha Hff Hr Hq. unfold exec. rewrite tts_iteration_eq, Ha.
  destruct (phrase_q s) as [|t rest] eqn:Eq; [apply conserved_refl|].
  inversion Hq as [|? ? Ht _]; subst. unfold on_phrase. rewrite Ht.
  destruct (@handle_phrase_conserved e t (set_phrase_q rest s) Hff Hr)
    as (l & El & Al & Nl).
  destruct (handle_phrase_quiet e t (set_phrase_q rest s))
    as (_ & _ & _ & Hp & _).
  exists l. split; [exact El|].
  unfold exec in Hp. rewrite Hp, Al, Nl, Eq, app_nil_r. reflexivity.
Qed.

Lemma conserved_nonempty (s s' : Engine) :
  conserved s s' -> stripped_kept s s' ->
  Forall nonempty (phrase_q s) -> Forall nonempty (phrase_q s').
Proof.
  intros (l & El & Cl) (_ & l' & El' & Fl') Hq.
  rewrite El in El'. apply app_inv_head in El'. subst l'.
  assert (Hall : Forall nonempty (phrase_q s ++ finals l)).
  { apply Forall_app. split; [exact Hq|].
    clear El Cl. induction Fl' as [|ev l Hev _ IH]; [constructor|].
    destruct ev; cbn in *; try exact IH.
    constructor; [apply Hev | exact IH]. }
  rewrite <- Cl in Hall. apply Forall_app in Hall. apply Hall.
Qed.

Lemma worker_steps_conserved (acts : list action) :
  forall s : Engine,
  Forall worker_step acts ->
  ffmpeg_available (cfg s) = true ->
  1 <= tts_max_retries (cfg s) ->
  Forall nonempty (phrase_q s) ->
  conserved s (perform_all acts s).
Proof.
  induction acts as [|a rest IH]; intros s Hw Hff Hr Hq; cbn [perform_all].
  - apply conserved_refl.
  - inversion Hw as [|? ? Ha Hrest]; subst.
    assert (Hstep : conserved s (exec (perform a) s)).
    { destruct a; cbn [perform worker_step] in *; try contradiction.
      - apply asr_iteration_conserved.
      - apply asr_flush_conserved.
      - apply tts_iteration_conserved; assumption. }
    destruct (perform_partials a s) as (Hc & _).
    eapply conserved_trans; [exact Hstep|].
    apply IH; [exact Hrest | rewrite Hc; exact Hff | rewrite Hc; exact Hr |].
    exact (conserved_nonempty Hstep (perform_stripped a s) Hq).
Qed.

(** X18: phrases go from the segmentation worker to the synthesis worker in
    order, each one once.  While the engine runs (any interleaving of
    iterations of the two worker loops and of the shutdown flush, FFmpeg
    present, at least one synthesis attempt allowed, no empty text in the
    queue at first): the phrases the synthesizer has been called on,
    followed by the phrases still in the queue, are the phrases that were in
    the queue at first followed by the phrases passed to [on_final] since,
    in that order. *)
Theorem phrases_synthesized_in_order (acts : list action) (s : Engine) :
  Forall worker_step acts ->
  ffmpeg_available (cfg s) = true ->
  1 <= tts_max_retries (cfg s) ->
  Forall nonempty (phrase_q s) ->
  first_attempts (emitted_by acts s) ++ phrase_q (perform_all acts s)
  = phrase_q s ++ finals (emitted_by acts s).
Proof.
  intros Hw Hff Hr Hq.
  destruct (@worker_steps_conserved acts s Hw Hff Hr Hq) as (l & El & Cl).
  unfold emitted_by. rewrite El, skipn_emitted. exact Cl.
Qed.

Lemma phrases_synthesized_in_order_witness :
  first_attempts
    (emitted_by [DoAsrIteration (final_frame "hola mundo");
                 DoAsrIteration (final_frame "que tal estas");
                 DoTtsIteration all_fine] started_engine)
  ++ phrase_q
       (perform_all [DoAsrIteration (final_frame "hola mundo");
                     DoAsrIteration (final_frame "que tal estas");
                     DoTtsIteration all_fine] started_engine)
  = phrase_q started_engine
    ++ finals
         (emitted_by [DoAsrIteration (final_frame "hola mundo");
                      DoAsrIteration (final_frame "que tal estas");
                      DoTtsIteration all_fine] started_engine).
Proof.
  apply phrases_synthesized_in_order.
  - repeat constructor.
  - reflexivity.
  - vm_compute. discriminate.
  - vm_compute. constructor.
Defined.

(** X19: a phrase flushed at shutdown outlives the stop.  [stop] empties
    the phrase queue, but the segmentation worker, once it has seen the stop
    event, still hands over the recognizer's last text; when that text is
    non-empty and long enough it is put in the queue after the drain.
    [start] does not empty the queues, so after the next [start] the phrase
    is still there for the synthesis worker. *)
Theorem flushed_phrase_survives_restart (d1 d2 : device_env)
  (final : option string) (s : Engine) :
  truthy (strip (get_or_empty final)) = true ->
  long_enough s (strip (get_or_empty final)) = true ->
  model_loaded (cfg s) = true -> recognizer_loaded (cfg s) = true ->
  open_ok d2 = true -> start_ok d2 = true ->
  phrase_q (perform_all [DoStop d1; DoAsrFlush final] s)
  = [strip (get_or_empty final)]
  /\ phrase_q (perform_all [DoStop d1; DoAsrFlush final; DoStart d2] s)
     = [strip (get_or_empty final)]
  /\ stop_event (perform_all [DoStop d1; DoAsrFlush final; DoStart d2] s)
     = false.
Proof.
  intros Ht Hl Hm Hr Ho Hs. cbn [perform_all perform].
  destruct (stop_state d1 s) as (Hc & _ & _ & _ & Hp & _).
  remember (exec (stop d1) s) as s1 eqn:Es1.
  assert (Hq : phrase_q (exec (asr_flush final) s1)
               = [strip (get_or_empty final)]
               /\ cfg (exec (asr_flush final) s1) = cfg s).
  { unfold exec. rewrite asr_flush_eq. cbn [snd].
    unfold finalized, long_enough in *. cbn [cfg set_trace].
    rewrite Hc, Ht, Hl. cbn. rewrite Hp, Hc. split; reflexivity. }
  destruct Hq as (Hq & Hc2). split; [exact Hq|].
  remember (exec (asr_flush final) s1) as s2 eqn:Es2.
  unfold exec.
  rewrite (@start_succeeds d2 s2); try assumption; try (rewrite Hc2; assumption).
  cbn. split; [exact Hq | reflexivity].
Qed.

Lemma flushed_phrase_survives_restart_witness :
  phrase_q (perform_all [DoStop device_fine; DoAsrFlush (Some " hola mundo ");
                         DoStart device_fine] started_engine)
  = ["hola mundo"].
Proof.
  exact (proj1 (proj2
    (@flushed_phrase_survives_restart device_fine device_fine
       (Some " hola mundo ") started_engine
       eq_refl eq_refl eq_refl eq_refl eq_refl eq_refl))).
Defined.

(** ** The window: device lists, file names, the text panel *)

Lemma digit_plain (c : ascii) :
  is_digit c = true ->
  is_space c = false /\ Ascii.eqb c ":" = false.
Proof.
  intros Hd.
  destruct c as [[] [] [] [] [] [] [] []]; cbv in Hd; try discriminate Hd;
    split; reflexivity.
Qed.

Lemma py_int_digits (c : ascii) (r : string) :
  is_digit c = true ->
  strip (String c r) = String c r ->
  py_int (String c r)
  = if valid_digits false (String c r)
    then Some (digits_value 0 (String c r)) else None.
Proof.
  intros Hd Hs. unfold py_int. rewrite Hs.
  destruct c as [[] [] [] [] [] [] [] []]; cbv in Hd; try discriminate Hd;
    reflexivity.
Qed.

Lemma all_digits_rstrip (t : string) : all_digits t = true -> rstrip t = t.
Proof.
  induction t as [|c r IH]; [reflexivity|].
  cbn. intros H. apply andb_prop in H. destruct H as [Hc Hr].
  rewrite (IH Hr). destruct r; [|reflexivity].
  rewrite (proj1 (@digit_plain c Hc)). reflexivity.
Qed.

Lemma all_digits_strip (t : string) : all_digits t = true -> strip t = t.
Proof.
  intros H. unfold strip.
  assert (Hl : lstrip t = t).
  { destruct t as [|c r]; [reflexivity|]. cbn in *.
    apply andb_prop in H. rewrite (proj1 (@digit_plain c (proj1 H))).
    reflexivity. }
  rewrite Hl. apply all_digits_rstrip. exact H.
Qed.

Lemma all_digits_valid (t : string) :
  all_digits t = true -> valid_digits true t = true.
Proof.
  induction t as [|c r IH]; [reflexivity|].
  cbn. intros H. apply andb_prop in H. destruct H as [Hc Hr].
  rewrite Hc. exact (IH Hr).
Qed.

Lemma all_digits_before_colon (t rest : string) :
  all_digits t = true ->
  before_colon (t ++ String ":" rest)%string = t.
Proof.
  induction t as [|c r IH]; [reflexivity|].
  cbn. intros H. apply andb_prop in H. destruct H as [Hc Hr].
  rewrite (proj2 (@digit_plain c Hc)), (IH Hr). reflexivity.
Qed.

Lemma uint_digits (d : uint) :
  all_digits (NilEmpty.string_of_uint d) = true.
Proof. induction d; cbn; trivial. Qed.

Lemma uint_value (d : uint) :
  forall acc : nat,
  digits_value (Z.of_nat acc) (NilEmpty.string_of_uint d)
  = Z.of_nat (Nat.of_uint_acc d acc).
Proof.
  induction d; intros acc; cbn [NilEmpty.string_of_uint Nat.of_uint_acc];
    [reflexivity | ..];
    rewrite <- IHd; cbn [digits_value];
    match goal with
    | |- context [is_digit ?c] =>
        change (is_digit c) with true; cbv beta iota
    end;
    f_equal; rewrite Nat.tail_mul_spec;
    match goal with
    | |- context [nat_of_ascii ?c] =>
        let v := eval vm_compute in (Z.of_nat (nat_of_ascii c)) in
        change (Z.of_nat (nat_of_ascii c)) with v
    end; lia.
Qed.

Lemma str_nat_spec (n : nat) :
  all_digits (str_nat n) = true
  /\ truthy (str_nat n) = true
  /\ digits_value 0 (str_nat n) = Z.of_nat n.
Proof.
  unfold str_nat. pose proof (Unsigned.of_to n) as Hn.
  unfold Nat.of_uint in Hn.
  destruct (Nat.to_uint n) as [|d|d|d|d|d|d|d|d|d|d] eqn:Ed;
    cbn [NilZero.string_of_uint];
    [cbn in Hn; subst n; repeat split | ..];
    (split; [apply uint_digits |
             split; [reflexivity |
                     rewrite <- Hn; apply (uint_value _ 0%nat)]]).
Qed.

Lemma parse_device_label (idx : nat) (d : device_info) :
  parse_device_index (device_label idx d) = Some (Z.of_nat idx).
Proof.
  destruct (str_nat_spec idx) as (Hd & Ht & Hv).
  unfold parse_device_index, device_label.
  assert (Hlabel : truthy (str_nat idx ++ ": " ++ name d ++ "  (in:"
                           ++ str_nat (max_input_channels d) ++ "/out:"
                           ++ str_nat (max_output_channels d) ++ ")")%string
                   = true).
  { destruct (str_nat idx); [discriminate Ht | reflexivity]. }
  rewrite Hlabel.
  change (str_nat idx ++ ": " ++ name d ++ "  (in:"
          ++ str_nat (max_input_channels d) ++ "/out:"
          ++ str_nat (max_output_channels d) ++ ")")%string
    with (str_nat idx
          ++ String ":" (" " ++ name d ++ "  (in:"
                         ++ str_nat (max_input_channels d) ++ "/out:"
                         ++ str_nat (max_output_channels d) ++ ")"))%string.
  rewrite (@all_digits_before_colon _ _ Hd).
  destruct (str_nat idx) as [|c r] eqn:Es; [discriminate Ht|].
  assert (Hc : is_digit c = true) by (cbn in Hd; apply andb_prop in Hd; tauto).
  rewrite (@py_int_digits c r Hc (@all_digits_strip _ Hd)).
  cbn [valid_digits]. rewrite Hc.
  cbn in Hd. apply andb_prop in Hd.
  rewrite (@all_digits_valid _ (proj2 Hd)). rewrite Hv. reflexivity.
Qed.

Lemma device_options_spec (devices : list device_info) :
  forall (k : nat) (label : string),
  (In label (fst (device_options k devices)) <->
   exists i d, nth_error devices i = Some d
               /\ (0 < max_input_channels d)%nat
               /\ label = device_label (k + i) d)
  /\ (In label (snd (device_options k devices)) <->
      exists i d, nth_error devices i = Some d
                  /\ (0 < max_output_channels d)%nat
                  /\ label = device_label (k + i) d).
Proof.
  induction devices as [|d rest IH]; intros k label.
  - cbn. split; (split; [intros [] |]);
      intros (i & d & H & _); destruct i; discriminate H.
  - cbn [device_options]. specialize (IH (S k) label).
    destruct (device_options (S k) rest) as [ins outs]. cbn [fst snd] in *.
    destruct IH as [IHi IHo]. split.
    + split.
      * intros H.
        assert (Hcase : (0 < max_input_channels d)%nat
                        /\ label = device_label k d \/ In label ins).
        { destruct (0 <? max_input_channels d)%nat eqn:E; [|right; exact H].
          destruct H as [H | H]; [left | right; exact H].
          apply Nat.ltb_lt in E. split; [exact E | symmetry; exact H]. }
        destruct Hcase as [[Hpos Hl] | Hin].
        -- exists 0%nat, d. rewrite Nat.add_0_r. repeat split; assumption.
        -- apply IHi in Hin. destruct Hin as (i & d' & Hn & Hpos & Hl).
           exists (S i), d'. rewrite <- Nat.add_succ_comm.
           repeat split; assumption.
      * intros (i & d' & Hn & Hpos & Hl). destruct i as [|i].
        -- cbn in Hn. injection Hn as <-. rewrite Nat.add_0_r in Hl.
           apply Nat.ltb_lt in Hpos. rewrite Hpos. left. symmetry. exact Hl.
        -- cbn in Hn. rewrite <- Nat.add_succ_comm in Hl.
           assert (Hin : In label ins)
             by (apply IHi; exists i, d'; repeat split; assumption).
           destruct (0 <? max_input_channels d)%nat; [right|]; exact Hin.
    + split.
      * intros H.
        assert (Hcase : (0 < max_output_channels d)%nat
                        /\ label = device_label k d \/ In label outs).
        { destruct (0 <? max_output_channels d)%nat eqn:E; [|right; exact H].
          destruct H as [H | H]; [left | right; exact H].
          apply Nat.ltb_lt in E. split; [exact E | symmetry; exact H]. }
        destruct Hcase as [[Hpos Hl] | Hin].
        -- exists 0%nat, d. rewrite Nat.add_0_r. repeat split; assumption.
        -- apply IHo in Hin. destruct Hin as (i & d' & Hn & Hpos & Hl).
           exists (S i), d'. rewrite <- Nat.add_succ_comm.
           repeat split; assumption.
      * intros (i & d' & Hn & Hpos & Hl). destruct i as [|i].
        -- cbn in Hn. injection Hn as <-. rewrite Nat.add_0_r in Hl.
           apply Nat.ltb_lt in Hpos. rewrite Hpos. left. symmetry. exact Hl.
        -- cbn in Hn. rewrite <- Nat.add_succ_comm in Hl.
           assert (Hin : In label outs)
             by (apply IHo; exists i, d'; repeat split; assumption).
           destruct (0 <? max_output_channels d)%nat; [right|]; exact Hin.
Qed.

(** X20: the device lists and the parser of their entries fit together.
    The input list of [refresh_devices] holds exactly the labels of the
    devices that have input channels, the output list those of the devices
    that have output channels, each label starting with the position of the
    device in [sd.query_devices()]; and [parse_device_index] reads that
    position back from the label, whatever the device is called (colons in
    the name included). *)
Theorem device_labels_parse_back (devices : list device_info)
  (label : string) :
  (In label (fst (refresh_devices devices)) <->
   exists i d, nth_error devices i = Some d
               /\ (0 < max_input_channels d)%nat
               /\ label = device_label i d)
  /\ (In label (snd (refresh_devices devices)) <->
      exists i d, nth_error devices i = Some d
                  /\ (0 < max_output_channels d)%nat
                  /\ label = device_label i d)
  /\ (forall i d, label = device_label i d ->
                  parse_device_index label = Some (Z.of_nat i)).
Proof.
  unfold refresh_devices.
  destruct (device_options_spec devices 0 label) as [Hi Ho].
  split; [exact Hi | split; [exact Ho|]].
  intros i d ->. apply parse_device_label.
Qed.

Lemma replace_char_length (old new : ascii) (t : string) :
  String.length (replace_char old new t) = String.length t.
Proof. induction t as [|c r IH]; cbn; [reflexivity | rewrite IH; reflexivity]. Qed.

Lemma prefix_of_length (n : nat) :
  forall t : string,
  String.length (prefix_of n t) = Nat.min n (String.length t).
Proof.
  induction n as [|n IH]; intros [|c r]; cbn; try reflexivity.
  rewrite IH. reflexivity.
Qed.

(** The three replacements of [safe_snip] on one character. *)
Lemma replaced_char (c : ascii) :
  (if Ascii.eqb (if Ascii.eqb (if Ascii.eqb c " " then "_" else c) "/"
                 then "_" else if Ascii.eqb c " " then "_" else c) "\"
   then "_"
   else if Ascii.eqb (if Ascii.eqb c " " then "_" else c) "/"
        then "_" else if Ascii.eqb c " " then "_" else c)%char
  = if unsafe_char c then "_"%char else c.
Proof.
  destruct c as [[] [] [] [] [] [] [] []]; reflexivity.
Qed.

Lemma replaced_get (t : string) :
  forall (n : nat) (c : ascii),
  String.get n t = Some c ->
  String.get n (replace_char "\" "_"
                  (replace_char "/" "_" (replace_char " " "_" t)))
  = Some (if unsafe_char c then "_"%char else c).
Proof.
  induction t as [|a r IH]; intros n c H; [discriminate H|].
  cbn [replace_char]. destruct n as [|n].
  - cbn in H. injection H as <-. cbn [String.get]. rewrite replaced_char.
    reflexivity.
  - cbn [String.get] in *. exact (IH n c H).
Qed.

Lemma replaced_safe (t : string) :
  has_unsafe (replace_char "\" "_"
                (replace_char "/" "_" (replace_char " " "_" t))) = false.
Proof.
  induction t as [|a r IH]; [reflexivity|].
  cbn [replace_char has_unsafe]. rewrite replaced_char, IH.
  destruct a as [[] [] [] [] [] [] [] []]; reflexivity.
Qed.

Lemma replaced_fixed (t : string) :
  has_unsafe t = false ->
  replace_char "\" "_" (replace_char "/" "_" (replace_char " " "_" t)) = t.
Proof.
  induction t as [|a r IH]; [reflexivity|].
  cbn [replace_char has_unsafe]. intros H. apply orb_false_elim in H.
  destruct H as [Ha Hr]. rewrite replaced_char, Ha, (IH Hr). reflexivity.
Qed.

Lemma prefix_of_all (n : nat) :
  forall t : string, (String.length t <= n)%nat -> prefix_of n t = t.
Proof.
  induction n as [|n IH]; intros [|c r] H; cbn in *; try reflexivity;
    [lia|].
  rewrite IH by lia. reflexivity.
Qed.

(** X21: the file name part made from the text of the panel.  For a
    non-empty text it is as long as the text, cut after 30 characters; each
    of its characters is the character of the text at that place, with
    blank, slash and backslash replaced by an underscore, so that it holds
    none of the three; a text of at most 30 characters without them is
    taken as it is. *)
Theorem safe_snip_is_a_file_name_part (text : string) :
  truthy text = true ->
  String.length (safe_snip text) = Nat.min 30 (String.length text)
  /\ has_unsafe (safe_snip text) = false
  /\ (forall n c, (n < 30)%nat -> String.get n text = Some c ->
        String.get n (safe_snip text)
        = Some (if unsafe_char c then "_"%char else c))
  /\ (has_unsafe text = false -> (String.length text <= 30)%nat ->
      safe_snip text = text).
Proof.
  intros Ht. unfold safe_snip. rewrite Ht.
  split; [|split; [|split]].
  - rewrite !replace_char_length. apply prefix_of_length.
  - apply replaced_safe.
  - intros n c Hn Hg. apply replaced_get.
    clear Ht. revert n Hn text Hg. generalize 30%nat as m.
    induction m as [|m IH]; intros n Hn text Hg; [lia|].
    destruct text as [|a r]; [discriminate Hg|].
    destruct n as [|n]; cbn in *; [exact Hg|].
    apply IH; [lia | exact Hg].
  - intros Hu Hl. rewrite (prefix_of_all _ Hl). apply replaced_fixed.
    exact Hu.
Qed.

Lemma safe_snip_is_a_file_name_part_witness :
  has_unsafe (safe_snip "hola mundo/que tal\bien y tu, todo en orden por aqui")
  = false.
Proof.
  exact (proj1 (proj2
    (@safe_snip_is_a_file_name_part
       "hola mundo/que tal\bien y tu, todo en orden por aqui" eq_refl))).
Defined.

Lemma all_space_lstrip (t : string) :
  all_space t = true <-> lstrip t = EmptyString.
Proof.
  induction t as [|c r IH]; cbn; [tauto|].
  destruct (is_space c); cbn; [exact IH|]. split; discriminate.
Qed.

Lemma rstrip_empty (t : string) :
  rstrip t = EmptyString -> all_space t = true.
Proof.
  induction t as [|c r IH]; cbn; [trivial|].
  destruct (rstrip r) as [|d r']; [|discriminate].
  destruct (is_space c); [intros _; exact (IH eq_refl) | discriminate].
Qed.

Lemma strip_empty (t : string) :
  strip t = EmptyString <-> all_space t = true.
Proof.
  unfold strip. split.
  - intros H. apply rstrip_empty in H. apply all_space_lstrip.
    pose proof (lstrip_head t) as Hh.
    destruct (lstrip t) as [|c r]; [reflexivity|].
    cbn in H. rewrite Hh in H. discriminate H.
  - intros H. apply all_space_lstrip in H. rewrite H. reflexivity.
Qed.

(** X22: the text panel.  The warning is shown, and no synthesis thread
    started, exactly when the text box holds white space only; otherwise the
    thread gets a
    text that is non-empty and has no white space at either end, so the
    fallback name of [safe_snip] for an empty text is never used. *)
Theorem panel_synthesizes_stripped_text (box : string) :
  (generate_and_play_tts box = WarnEmptyText <-> all_space box = true)
  /\ (forall text,
        generate_and_play_tts box = SynthesizeInThread text ->
        stripped text
        /\ (1 <= String.length (safe_snip text) <= 30)%nat
        /\ has_unsafe (safe_snip text) = false).
Proof.
  unfold generate_and_play_tts. split.
  - rewrite <- strip_empty.
    destruct (strip box) as [|c r]; cbn; split; intros H;
      try reflexivity; discriminate H.
  - intros text H. destruct (truthy (strip box)) eqn:Ht; [|discriminate H].
    injection H as <-.
    split; [split; [exact Ht | apply strip_idempotent]|].
    unfold safe_snip. rewrite Ht. rewrite !replace_char_length.
    rewrite prefix_of_length. split; [|apply replaced_safe].
    destruct (strip box); [discriminate Ht | cbn [String.length]; lia].
Qed.

(** ** The window: start, stop, the text panel *)

Lemma start_device_fails (d : device_env) (s : Engine) :
  model_loaded (cfg s) = true -> recognizer_loaded (cfg s) = true ->
  open_ok d && start_ok d = false ->
  start d s
  = (Raise DeviceError,
     if open_ok d
     then mkEngine (cfg s) (seg s) (audio_q s) (phrase_q s) false
            (Some (dev_next (device s))) (t_asr s) (t_tts s)
            (mkDevice (dev_open (device s) ++ [dev_next (device s)])
                      (dev_running (device s))
                      (S (dev_next (device s))))
            (trace s ++ [OpenInput; StreamStart (dev_next (device s))])
     else set_trace (trace s ++ [OpenInput]) (set_stop_event false s)).
Proof.
  intros Hm Hr Hd.
  unfold start, start_input, stream_open, stream_start. step_monad.
  rewrite Hm, Hr. cbn.
  destruct (open_ok d); cbn; [destruct (start_ok d); [discriminate|]; cbn|].
  - rewrite <- app_assoc. reflexivity.
  - reflexivity.
Qed.

Lemma shown_by_display (w w' : Window) (l : list window_event) :
  displayed w' = displayed w ++ l -> shown_by w w' = l.
Proof. intros H. unfold shown_by. rewrite H. apply skipn_emitted. Qed.

(** The window after [App.start], case by case. *)
Lemma app_start_run (fs : model_env) (d : device_env) (f : form)
  (w : Window) :
  App.start fs d f w
  = if negb (truthy (strip (model_path_var f)))
    then display [ShowErrorNoModelDir] w
    else
      let notes := fst (fst (load_model fs (strip (model_path_var f))
                               (engine w))) in
      let s1 := snd (load_model fs (strip (model_path_var f)) (engine w)) in
      if negb (is_dir fs && model_ok fs && recognizer_ok fs)
      then display (map EngineLog notes
                    ++ [ShowLoadError
                          (if negb (is_dir fs)
                           then NoSuchDirectory (strip (model_path_var f))
                           else if negb (model_ok fs) then ModelFailed
                           else RecognizerFailed)])
                   (set_engine s1 w)
      else
        let w2 := set_settings (read_settings f)
                    (set_engine (apply_config s1)
                       (display (map EngineLog notes) w)) in
        if open_ok d && start_ok d
        then display [SetStatus WsRecording; WindowLog LineStarted]
               (set_buttons false true
                  (set_engine
                     (exec (start d) (set_stop_event false (apply_config s1)))
                     w2))
        else display [ShowError DeviceError]
               (set_engine
                  (exec (start d) (set_stop_event false (apply_config s1)))
                  w2).
Proof.
  unfold App.start.
  destruct (truthy (strip (model_path_var f))); cbn [negb]; [|reflexivity].
  unfold load_model.
  destruct (is_dir fs); cbn [negb andb fst snd]; [|reflexivity].
  destruct (model_ok fs); cbn [negb andb fst snd]; [|reflexivity].
  destruct (recognizer_ok fs); cbn [negb andb fst snd]; [|reflexivity].
  cbv zeta. cbn [engine set_settings set_engine display].
  destruct (open_ok d && start_ok d) eqn:Hd.
  - apply andb_prop in Hd. destruct Hd as [Ho Hs]. unfold exec.
    rewrite (@start_succeeds d (set_stop_event false (apply_config (set_loaded true true (engine w)))) eq_refl eq_refl Ho Hs).
    reflexivity.
  - unfold exec.
    rewrite (@start_device_fails d (set_stop_event false (apply_config (set_loaded true true (engine w)))) eq_refl eq_refl Hd).
    reflexivity.
Qed.

(** X23: [App.start] never raises and switches the buttons only on success.
    It succeeds exactly when the model box is not blank, the model loads and
    the input device opens and starts the stream: then Start is disabled and
    Stop enabled, capture runs, the stop event is cleared, the engine has
    the flags and phrasing parameters of the window and the settings read
    from the widgets, and the window reports the start.  In every other
    case the buttons stay as they were and the last thing shown is one
    error dialog.  When the model does not load, nothing of the engine but
    model and recognizer is changed and no setting is applied. *)
Theorem window_start_outcomes (fs : model_env) (d : device_env) (f : form)
  (w : Window) :
  (btn_start (App.start fs d f w), btn_stop (App.start fs d f w))
  = (if starts fs d f then (false, true) else (btn_start w, btn_stop w))
  /\ last_tts_seg (App.start fs d f w) = last_tts_seg w
  /\ (starts fs d f = true ->
      capture_active (engine (App.start fs d f w)) = true
      /\ stop_event (engine (App.start fs d f w)) = false
      /\ cfg (engine (App.start fs d f w))
         = mkConfig true true true (ffmpeg_available (cfg (engine w)))
             true false (print_partials (cfg (engine w))) 6 (8 # 10)
             (25 # 100) (tts_max_retries (cfg (engine w)))
             (tts_backoff (cfg (engine w)))
      /\ engine_settings (App.start fs d f w) = read_settings f
      /\ exists notes,
           shown_by w (App.start fs d f w)
           = map EngineLog notes
             ++ [SetStatus WsRecording; WindowLog LineStarted])
  /\ (starts fs d f = false ->
      exists notes ev,
        shown_by w (App.start fs d f w) = map EngineLog notes ++ [ev]
        /\ is_error_dialog ev = true)
  /\ (loads fs f = false ->
      engine_settings (App.start fs d f w) = engine_settings w
      /\ set_loaded (model_loaded (cfg (engine (App.start fs d f w))))
                    (recognizer_loaded (cfg (engine (App.start fs d f w))))
                    (engine w)
         = engine (App.start fs d f w)).
Proof.
  rewrite app_start_run. unfold starts, loads.
  destruct (truthy (strip (model_path_var f))) eqn:Ht; cbn [negb andb].
  2:{ split; [reflexivity | split; [reflexivity|]].
      split; [discriminate | split].
      - intros _. exists [], ShowErrorNoModelDir. split; [|reflexivity].
        apply shown_by_display. reflexivity.
      - intros _. split; [reflexivity | cbn; apply set_loaded_same]. }
  cbv zeta.
  destruct (is_dir fs && model_ok fs && recognizer_ok fs) eqn:Hl;
    cbn [negb andb].
  2:{ split; [reflexivity | split; [reflexivity|]].
      split; [discriminate | split].
      - intros _. eexists _, _.
        split; [apply shown_by_display; reflexivity | reflexivity].
      - intros _. split; [reflexivity|].
        cbn [engine display set_engine]. unfold load_model.
        destruct (is_dir fs); cbn; [|apply set_loaded_same].
        destruct (model_ok fs); cbn; [|apply set_loaded_same].
        destruct (recognizer_ok fs); [discriminate Hl|]. reflexivity. }
  apply andb_prop in Hl. destruct Hl as [Hl Hrec].
  apply andb_prop in Hl. destruct Hl as [Hdir Hmod].
  assert (Hload : load_model fs (strip (model_path_var f)) (engine w)
                  = ((if has_am fs || has_conf fs || has_graph fs then []
                      else [NoteNotVosk (strip (model_path_var f))])
                     ++ [NoteLoading; NoteLoaded], inr tt,
                     set_loaded true true (engine w))).
  { unfold load_model. rewrite Hdir, Hmod, Hrec. reflexivity. }
  rewrite Hload. cbn [fst snd].
  destruct (open_ok d && start_ok d) eqn:Hd.
  - apply andb_prop in Hd. destruct Hd as [Ho Hs].
    unfold exec.
    rewrite (@start_succeeds d (set_stop_event false (apply_config (set_loaded true true (engine w)))) eq_refl eq_refl Ho Hs).
    cbn [snd]. split; [reflexivity | split; [reflexivity|]].
    split; [|split; [discriminate | discriminate]].
    intros _. cbn [engine display set_buttons set_engine set_settings
                   engine_settings].
    split; [unfold capture_active; cbn; apply existsb_last|].
    split; [reflexivity|]. split; [reflexivity|]. split; [reflexivity|].
    eexists. apply shown_by_display. cbn. rewrite <- app_assoc. reflexivity.
  - split; [reflexivity | split; [reflexivity|]].
    split; [discriminate | split; [|discriminate]].
    intros _. eexists _, _.
    split; [apply shown_by_display; cbn; rewrite <- app_assoc; reflexivity
           | reflexivity].
Qed.

(** X24: [App.stop] always goes through.  The engine's [stop] never raises,
    so the error dialog of [App.stop] is never shown: whatever the state of
    the window and of the device, Start is enabled and Stop disabled
    afterwards, the window reports the stop, the stop event is set, capture
    is off and both queues are empty; [on_close] does the same and then
    destroys the window.  After [App.start], successful or not, [App.stop]
    brings the buttons back to where a start is possible. *)
Theorem window_stop_always_succeeds (d : device_env) (w : Window) :
  (btn_start (App.stop d w), btn_stop (App.stop d w)) = (true, false)
  /\ shown_by w (App.stop d w) = [SetStatus WsStopped; WindowLog LineStopped]
  /\ shown_by w (App.on_close d w)
     = [SetStatus WsStopped; WindowLog LineStopped; DestroyRoot]
  /\ stop_event (engine (App.stop d w)) = true
  /\ capture_active (engine (App.stop d w)) = false
  /\ audio_q (engine (App.stop d w)) = []
  /\ phrase_q (engine (App.stop d w)) = []
  /\ (forall fs d' f,
        (btn_start (App.stop d (App.start fs d' f w)),
         btn_stop (App.stop d (App.start fs d' f w))) = (true, false)).
Proof.
  assert (Hrun : forall w0,
            App.stop d w0
            = display [SetStatus WsStopped; WindowLog LineStopped]
                (set_buttons true false
                   (set_engine (exec (stop d) (engine w0)) w0))).
  { intros w0. unfold App.stop, exec. rewrite stop_unfold. reflexivity. }
  unfold App.on_close. rewrite !Hrun.
  destruct (stop_state d (engine w)) as (_ & _ & Hs & Ha & Hp & He).
  split; [reflexivity|].
  split; [apply shown_by_display; reflexivity|].
  split; [apply shown_by_display; cbn; rewrite <- app_assoc; reflexivity|].
  cbn [engine display set_buttons set_engine].
  split; [exact He|]. split; [unfold capture_active; rewrite Hs; reflexivity|].
  split; [exact Ha|]. split; [exact Hp|].
  intros fs d' f. rewrite Hrun. reflexivity.
Qed.






